(** * CloudWatch filter expressions: parser and equivalence checker

    A shallow embedding of the Go package [cloudwatch_lep]
    (src/main.go): the expression tree, the equivalence check on trees,
    the depth-5 recursive-descent parser, and the earlier depth-2 parser.

    Go strings are byte sequences.  They are embedded as lists of
    [ascii] (8-bit characters); a rune is a code point in [N].  Loops
    written [for _, r := range s] walk the UTF-8 decoding of [s], loops
    written [s[pointer]] walk its bytes, and [buf.WriteRune] appends the
    UTF-8 encoding of a rune: the three are kept apart below, since the
    two parser versions differ exactly there. *)

From Stdlib Require Import Bool Arith Lia NArith ZArith Ascii String DecimalString.
From Stdlib Require Import List Permutation.
Import ListNotations.

Set Warnings "-register-all".

Open Scope string_scope.
Open Scope nat_scope.
Open Scope list_scope.

(** ** Go strings *)

Definition gostring := list ascii.

Definition str (s : string) : gostring := list_ascii_of_string s.
Coercion str : string >-> gostring.

Definition byteval (c : ascii) : N := N_of_ascii c.
Definition byte_of (n : N) : ascii := ascii_of_N n.

Definition streq (a b : gostring) : bool :=
  if list_eq_dec ascii_dec a b then true else false.

(** ** UTF-8, as package unicode/utf8 decodes and encodes it *)

Definition rune := N.
Definition RuneError : rune := 0xFFFD%N.

(** The table [first] of unicode/utf8 for a leading byte that opens a
    multi-byte sequence: the length of the sequence and the range accepted
    for its second byte.  [None] is the entry [xx] (an invalid leading
    byte); ASCII bytes are handled before the table is consulted. *)
Definition leadInfo (b : N) : option (nat * (N * N)) :=
  (if b <? 0xC2 then None
   else if b <=? 0xDF then Some (2%nat, (0x80, 0xBF))
   else if b =? 0xE0 then Some (3%nat, (0xA0, 0xBF))
   else if b <=? 0xEC then Some (3%nat, (0x80, 0xBF))
   else if b =? 0xED then Some (3%nat, (0x80, 0x9F))
   else if b <=? 0xEF then Some (3%nat, (0x80, 0xBF))
   else if b =? 0xF0 then Some (4%nat, (0x90, 0xBF))
   else if b <=? 0xF3 then Some (4%nat, (0x80, 0xBF))
   else if b =? 0xF4 then Some (4%nat, (0x80, 0x8F))
   else None)%N.

Definition byteAt (s : gostring) (i : nat) : N := byteval (nth i s zero).

Definition isCont (b : N) : bool := ((0x80 <=? b) && (b <=? 0xBF))%N.

(** [utf8.DecodeRuneInString]: the first rune of [s] and its width in
    bytes; an invalid or truncated sequence decodes to [RuneError] with
    width 1, and the empty string to [RuneError] with width 0. *)
Definition decodeRune (s : gostring) : rune * nat :=
  match s with
  | [] => (RuneError, 0)
  | c0 :: _ =>
      let s0 := byteval c0 in
      if (s0 <? 0x80)%N then (s0, 1)
      else match leadInfo s0 with
           | None => (RuneError, 1)
           | Some (sz, (lo, hi)) =>
               if length s <? sz then (RuneError, 1)
               else
                 let s1 := byteAt s 1 in
                 if ((s1 <? lo) || (hi <? s1))%N then (RuneError, 1)
                 else if sz <=? 2 then
                   (N.lor (N.shiftl (N.land s0 0x1F) 6) (N.land s1 0x3F), 2)
                 else
                   let s2 := byteAt s 2 in
                   if negb (isCont s2) then (RuneError, 1)
                   else if sz <=? 3 then
                     (N.lor (N.shiftl (N.land s0 0x0F) 12)
                        (N.lor (N.shiftl (N.land s1 0x3F) 6) (N.land s2 0x3F)), 3)
                   else
                     let s3 := byteAt s 3 in
                     if negb (isCont s3) then (RuneError, 1)
                     else
                       (N.lor (N.shiftl (N.land s0 0x07) 18)
                          (N.lor (N.shiftl (N.land s1 0x3F) 12)
                             (N.lor (N.shiftl (N.land s2 0x3F) 6)
                                (N.land s3 0x3F))), 4)
           end
  end.

(** [utf8.AppendRune], which [strings.Builder.WriteRune] calls. *)
Definition encodeRune (r : rune) : gostring :=
  (if r <=? 0x7F then [byte_of r]
   else if r <=? 0x7FF then
     [byte_of (N.lor 0xC0 (N.shiftr r 6)); byte_of (N.lor 0x80 (N.land r 0x3F))]
   else if (0x10FFFF <? r) || ((0xD800 <=? r) && (r <=? 0xDFFF)) then
     [byte_of 0xEF; byte_of 0xBF; byte_of 0xBD]
   else if r <=? 0xFFFF then
     [byte_of (N.lor 0xE0 (N.shiftr r 12));
      byte_of (N.lor 0x80 (N.land (N.shiftr r 6) 0x3F));
      byte_of (N.lor 0x80 (N.land r 0x3F))]
   else
     [byte_of (N.lor 0xF0 (N.shiftr r 18));
      byte_of (N.lor 0x80 (N.land (N.shiftr r 12) 0x3F));
      byte_of (N.lor 0x80 (N.land (N.shiftr r 6) 0x3F));
      byte_of (N.lor 0x80 (N.land r 0x3F))])%N.

(** [for i, r := range s]: the runes of [s] with the byte index each
    starts at.  [skip] counts the bytes still covered by the rune decoded
    last, and [i] is the index of the head of the list. *)
Fixpoint rangeFrom (i skip : nat) (s : gostring) : list (nat * rune) :=
  match s with
  | [] => []
  | _ :: tl =>
      match skip with
      | S k => rangeFrom (S i) k tl
      | O => let (r, w) := decodeRune s in
             (i, r) :: rangeFrom (S i) (pred w) tl
      end
  end.

Definition rangeString (s : gostring) : list (nat * rune) := rangeFrom 0 0 s.

Definition runes (s : gostring) : list rune := map snd (rangeString s).

(** Rune literals of the source. *)
Definition rSpace : rune := 32%N.
Definition rLParen : rune := 40%N.
Definition rRParen : rune := 41%N.

(** ** Package strings *)

(** [strings.HasPrefix]. *)
Fixpoint hasPrefix (s prefix : gostring) {struct prefix} : bool :=
  match prefix with
  | [] => true
  | a :: prefix' =>
      match s with
      | [] => false
      | b :: s' => Ascii.eqb a b && hasPrefix s' prefix'
      end
  end.

(** [strings.HasSuffix]. *)
Definition hasSuffix (s suffix : gostring) : bool :=
  hasPrefix (rev s) (rev suffix).

(** [strings.TrimSuffix]. *)
Definition trimSuffix (s suffix : gostring) : gostring :=
  if hasSuffix s suffix then firstn (length s - length suffix) s else s.

Fixpoint dropWhile (p : ascii -> bool) (s : gostring) : gostring :=
  match s with
  | [] => []
  | c :: tl => if p c then dropWhile p tl else s
  end.

(** [strings.TrimLeft] and [strings.TrimRight] with a cutset of one ASCII
    character. *)
Definition trimLeft (s : gostring) (cut : ascii) : gostring :=
  dropWhile (Ascii.eqb cut) s.

Definition trimRight (s : gostring) (cut : ascii) : gostring :=
  rev (dropWhile (Ascii.eqb cut) (rev s)).

(** [strings.Count] with a separator of one byte. *)
Definition count (s : gostring) (c : ascii) : nat :=
  count_occ ascii_dec s c.

(** The UTF-8 encodings of the runes [unicode.IsSpace] accepts: tab, line
    feed, vertical tab, form feed, carriage return, space, U+0085, U+00A0,
    U+1680, U+2000 to U+200A, U+2028, U+2029, U+202F, U+205F, U+3000. *)
Definition spaceRunes : list rune :=
  [0x09; 0x0A; 0x0B; 0x0C; 0x0D; 0x20; 0x85; 0xA0; 0x1680;
   0x2000; 0x2001; 0x2002; 0x2003; 0x2004; 0x2005; 0x2006; 0x2007;
   0x2008; 0x2009; 0x200A; 0x2028; 0x2029; 0x202F; 0x205F; 0x3000]%N.

Definition spaceEncodings : list gostring := map encodeRune spaceRunes.

(** The width of the first of the encodings [encs] that [s] starts
    with, if it starts with one. *)
Definition encodingPrefix (encs : list gostring) (s : gostring) : option nat :=
  match find (hasPrefix s) encs with
  | Some e => Some (length e)
  | None => None
  end.

(** The width of the white-space rune [s] starts with.  A string starts
    with the encoding of a rune exactly when [decodeRune] returns that
    rune, since the decoder refuses overlong forms. *)
Definition spacePrefix (s : gostring) : option nat :=
  encodingPrefix spaceEncodings s.

(** The same at the end of a string, read on the reversed string [r]:
    the last rune [utf8.DecodeLastRuneInString] finds is a white-space
    rune exactly when the string ends with its encoding. *)
Definition spaceSuffixRev (r : gostring) : option nat :=
  encodingPrefix (map (@rev ascii) spaceEncodings) r.

(** Strips white-space runes from the front; [skip] counts the bytes of
    the rune being dropped that are still ahead. *)
Fixpoint stripSpace (front : gostring -> option nat) (skip : nat)
    (s : gostring) : gostring :=
  match s with
  | [] => []
  | _ :: tl =>
      match skip with
      | S k => stripSpace front k tl
      | O => match front s with
             | Some w => stripSpace front (pred w) tl
             | None => s
             end
      end
  end.

(** [strings.TrimSpace]: leading and trailing white space removed, as
    Unicode defines it. *)
Definition trimSpace (s : gostring) : gostring :=
  rev (stripSpace spaceSuffixRev 0 (rev (stripSpace spacePrefix 0 s))).

(** ** The data model *)

Definition logicalOperator := gostring.
Definition comparisonOperator := gostring.

Definition loAnd : logicalOperator := str "&&".
Definition loOr : logicalOperator := str "||".

Definition coEqual : comparisonOperator := str "=".
Definition coNotEqual : comparisonOperator := str "!=".
Definition coNotExists : comparisonOperator := str "NOT EXISTS".

Definition listLogicalOperators : list logicalOperator := [loAnd; loOr].

(** This order must be kept: first different, then equals. *)
Definition listComparisonOperator : list comparisonOperator :=
  [coNotExists; coNotEqual; coEqual].

Record simpleExpression := {
  left : gostring;
  right : gostring;
  operator : comparisonOperator
}.

(** The two implementations of the interface [expression]:
    [simpleExpression] and [complexExpression] (fields [operator] and
    [expressions]). *)
Inductive expression :=
| Simple (s : simpleExpression)
| Complex (operator : logicalOperator) (expressions : list expression).

(** The constructors of the test file. *)
Definition se (l : gostring) (c : comparisonOperator) (r : gostring) : expression :=
  Simple {| left := l; right := r; operator := c |}.

Definition ce (c : logicalOperator) (expressions : list expression) : expression :=
  Complex c expressions.

(** ** The equivalence checker *)

(** The body of [simpleExpression.isEquivalent] once the other side is
    known to be a [simpleExpression]. *)
Definition simpleEquivalent (s simpleOther : simpleExpression) : bool :=
  if negb (streq (operator simpleOther) (operator s)) then false
  else if streq (left simpleOther) (left s) && streq (right simpleOther) (right s)
       then true
  else if streq (left simpleOther) (right s) && streq (right simpleOther) (left s)
       then true
  else false.

(** [findEquivalentPos]: the first index of [otherExpressions] whose
    element [exp] is equivalent to; [None] is the result [(false, -1)]. *)
Fixpoint findEquivalentPos (isEquivalentTo : expression -> bool)
    (otherExpressions : list expression) : option nat :=
  match otherExpressions with
  | [] => None
  | expB :: tl =>
      if isEquivalentTo expB then Some 0
      else match findEquivalentPos isEquivalentTo tl with
           | Some i => Some (S i)
           | None => None
           end
  end.

(** [otherExpressions[idx] = otherExpressions[len-1]] followed by
    [otherExpressions = otherExpressions[:len-1]], for [idx] in range. *)
Definition replaceAt (idx : nat) (v : expression) (l : list expression) :=
  firstn idx l ++ v :: skipn (S idx) l.

Definition swapRemove (idx : nat) (l : list expression) : list expression :=
  match rev l with
  | [] => l
  | lastE :: _ => removelast (replaceAt idx lastE l)
  end.

Section MatchChildren.

(** The method [isEquivalent] the loop calls on each child. *)
Variable isEquivalent : expression -> expression -> bool.

(** The loop of [complexExpression.isEquivalent] over the receiver's
    children, with the pool of the other side's children not matched yet. *)
Fixpoint matchChildren (expressions otherExpressions : list expression) : bool :=
  match expressions with
  | [] => true
  | exp :: rest =>
      match findEquivalentPos (isEquivalent exp) otherExpressions with
      | Some idx => matchChildren rest (swapRemove idx otherExpressions)
      | None => false
      end
  end.

End MatchChildren.

(** [a.isEquivalent(b)], dispatched on the dynamic type of the receiver. *)
Fixpoint isEquivalent (a b : expression) {struct a} : bool :=
  match a with
  | Simple s =>
      match b with
      | Simple simpleOther => simpleEquivalent s simpleOther
      | Complex _ _ => false
      end
  | Complex op exprs =>
      match b with
      | Simple _ => false
      | Complex opOther exprsOther =>
          if negb (streq opOther op) then false
          else if negb (length exprs =? length exprsOther) then false
          else matchChildren isEquivalent exprs exprsOther
      end
  end.

(** [areCloudWatchExpressionsEquivalent] and the parser return a value
    and an [error]; an error is the message [errors.New] was given. *)
Definition error := string.

Inductive result (A : Type) :=
| Ok (a : A)
| Err (e : error).
Arguments Ok {A} a.
Arguments Err {A} e.

Definition errBrokenParenthesis : error := "broken parenthesis".
Definition errMaxDepth : error := "max depth reached, can't parse this expression".
Definition errAlternating : error :=
  "not supported comparison with alternating logical operators".
Definition errMultipleOperators : error := "got multiple comparison operators".
Definition errMissingOperator : error :=
  "could not find a operator for this expression".

(** ** The parser (depth-5 version) *)

Definition maxDepth : nat := 5.

(** [hasSuffixComparisonOp] and [hasSuffixLogicalOp]: the first operator
    of the list that [s] ends with; [None] is the result [(false, "")]. *)
Definition hasSuffixComparisonOp (s : gostring) : option comparisonOperator :=
  find (hasSuffix s) listComparisonOperator.

Definition hasSuffixLogicalOp (s : gostring) : option logicalOperator :=
  find (hasSuffix s) listLogicalOperators.

(** [matchingParenthesisPos]: the index of the first rune after which
    the count of open parentheses is back to zero; [None] is -1. *)
Fixpoint matchingLoop (rs : list (nat * rune)) (parenthesisStack : Z) : option nat :=
  match rs with
  | [] => None
  | (i, r) :: tl =>
      let stack1 := if (r =? rLParen)%N then (parenthesisStack + 1)%Z
                    else parenthesisStack in
      let stack2 := if (r =? rRParen)%N then (stack1 - 1)%Z else stack1 in
      if (stack2 =? 0)%Z then Some i else matchingLoop tl stack2
  end.

Definition matchingParenthesisPos (s : gostring) : option nat :=
  matchingLoop (rangeString s) 0%Z.

(** The variables of [parseSimpleStatement]. *)
Record leafState := {
  lbuf : gostring;
  lleft : gostring;
  loperator : comparisonOperator;
  foundOp : bool
}.

Definition leafInit : leafState :=
  {| lbuf := []; lleft := []; loperator := []; foundOp := false |}.

(** One iteration of the loop of [parseSimpleStatement] on the rune [r]. *)
Definition leafStep (r : rune) (st : leafState) : result leafState :=
  if (length (lbuf st) =? 0) && ((r =? rSpace)%N || (r =? rLParen)%N) then Ok st
  else
    let tmpString := lbuf st ++ encodeRune r in
    match hasSuffixComparisonOp tmpString with
    | Some op =>
        if foundOp st then Err errMultipleOperators
        else Ok {| lbuf := [];
                   lleft := trimSpace (trimSuffix tmpString op);
                   loperator := op;
                   foundOp := true |}
    | None => Ok {| lbuf := tmpString; lleft := lleft st;
                    loperator := loperator st; foundOp := foundOp st |}
    end.

Fixpoint leafLoop (rs : list rune) (st : leafState) : result leafState :=
  match rs with
  | [] => Ok st
  | r :: tl =>
      match leafStep r st with
      | Err e => Err e
      | Ok st' => leafLoop tl st'
      end
  end.

Definition parseSimpleStatement (s : gostring) : result expression :=
  match leafLoop (runes s) leafInit with
  | Err e => Err e
  | Ok st =>
      if negb (foundOp st) then Err errMissingOperator
      else Ok (Simple {| left := lleft st;
                         operator := loperator st;
                         right := trimSpace (trimRight (trimSpace (lbuf st)) ")") |})
  end.

(** The variables of [safeParse]. *)
Record scanState := {
  logicalOp : logicalOperator;
  expressions : list expression;
  buf : gostring
}.

Definition scanInit : scanState :=
  {| logicalOp := []; expressions := []; buf := [] |}.

(** The branch of the loop of [safeParse] for a byte that is not an
    opening parenthesis: the byte, taken as a rune, is written to the
    buffer, and a logical operator at the end of the buffer closes a leaf. *)
Definition scanByte (c : ascii) (st : scanState) : result scanState :=
  let tmpString := buf st ++ encodeRune (byteval c) in
  match hasSuffixLogicalOp tmpString with
  | Some op =>
      let logicalOp' := if streq (logicalOp st) [] then op else logicalOp st in
      if negb (streq logicalOp' op) then Err errAlternating
      else
        let expStr := trimSpace (trimSuffix tmpString op) in
        if 0 <? length expStr then
          match parseSimpleStatement expStr with
          | Err e => Err e
          | Ok exp => Ok {| logicalOp := logicalOp';
                            expressions := expressions st ++ [exp];
                            buf := [] |}
          end
        else Ok {| logicalOp := logicalOp'; expressions := expressions st; buf := [] |}
  | None => Ok {| logicalOp := logicalOp st; expressions := expressions st;
                  buf := tmpString |}
  end.

(** One iteration of the loop [for len(s) > pointer] of [safeParse], at
    the byte [c] of index [i] followed by [tl].  [skip] is [pointer - i]:
    the bytes of a parenthesised group, which [pointer = pos + i + 1]
    jumps over, are walked without being looked at.  [sub] is the
    recursive call [safeParse(_, depth+1)].  The result is the new
    [pointer - (i + 1)] and the new values of the variables. *)
Definition scanStep (sub : gostring -> result expression) (skip : nat)
    (c : ascii) (tl : gostring) (st : scanState) : result (nat * scanState) :=
  match skip with
  | S k => Ok (k, st)
  | O =>
      if (byteval c =? rLParen)%N then
        match matchingParenthesisPos (c :: tl) with
        | None => Err errBrokenParenthesis
        | Some pos =>
            let subS := firstn (pos - 1) tl in
            match sub subS with
            | Err e => Err e
            | Ok exp =>
                Ok (pos, {| logicalOp := logicalOp st;
                            expressions := expressions st ++ [exp];
                            buf := buf st |})
            end
        end
      else
        match scanByte c st with
        | Err e => Err e
        | Ok st' => Ok (0, st')
        end
  end.

Fixpoint scan (sub : gostring -> result expression) (skip : nat)
    (rest : gostring) (st : scanState) : result scanState :=
  match rest with
  | [] => Ok st
  | c :: tl =>
      match scanStep sub skip c tl st with
      | Err e => Err e
      | Ok (skip', st') => scan sub skip' tl st'
      end
  end.

(** The first [n] iterations of the same loop: where the loop stands
    after them. *)
Fixpoint scanPrefix (sub : gostring -> result expression) (n skip : nat)
    (rest : gostring) (st : scanState) : result (nat * gostring * scanState) :=
  match n, rest with
  | S n', c :: tl =>
      match scanStep sub skip c tl st with
      | Err e => Err e
      | Ok (skip', st') => scanPrefix sub n' skip' tl st'
      end
  | _, _ => Ok (skip, rest, st)
  end.

(** What [safeParse] does after its loop. *)
Definition finish (st : scanState) : result expression :=
  let expStr := trimSpace (buf st) in
  let children :=
    if 0 <? length expStr then
      match parseSimpleStatement expStr with
      | Err e => Err e
      | Ok exp => Ok (expressions st ++ [exp])
      end
    else Ok (expressions st) in
  match children with
  | Err e => Err e
  | Ok [exp] => Ok exp
  | Ok exprs => Ok (Complex (logicalOp st) exprs)
  end.

(** [safeParse] by recursion on the levels it may still descend:
    [budget] is [maxDepth + 1 - depth], which is zero exactly when
    [depth > maxDepth]. *)
Fixpoint safeParseFrom (budget : nat) (s : gostring) : result expression :=
  match budget with
  | O => Err errMaxDepth
  | S b =>
      match scan (safeParseFrom b) 0 s scanInit with
      | Err e => Err e
      | Ok st => finish st
      end
  end.

Definition safeParse (s : gostring) (depth : nat) : result expression :=
  safeParseFrom (S maxDepth - depth) s.

Definition cleanInput (s : gostring) : gostring :=
  trimSpace (trimRight (trimLeft (trimSpace s) "{") "}").

Definition parse (s : gostring) : result expression :=
  let cleanS := cleanInput s in
  if negb (count s "(" =? count s ")") then Err errBrokenParenthesis
  else safeParse cleanS 0.

(** [parse] with the constant [maxDepth] replaced by [limit]. *)
Definition parseWithin (limit : nat) (s : gostring) : result expression :=
  let cleanS := cleanInput s in
  if negb (count s "(" =? count s ")") then Err errBrokenParenthesis
  else safeParseFrom (S limit) cleanS.

Definition areCloudWatchExpressionsEquivalent (a b : gostring) : bool * option error :=
  match parse a with
  | Err e => (false, Some e)
  | Ok statementA =>
      match parse b with
      | Err e => (false, Some e)
      | Ok statementB => (isEquivalent statementA statementB, None)
      end
  end.

(** ** The parser (depth-2 version)

    The earlier version of the package.  It walks the runes of its input
    where the later one walks the bytes, counts parentheses itself, and
    parses every fragment by a recursive call.  Next to an error it
    returns [simpleExpression{}] where the later version returns [nil];
    the caller drops that value, and [Err] does not carry it. *)
Module Depth2.

Definition errNestedParenthesis : error :=
  "not supported more than 2 nested parenthesis".

(** [fmt.Errorf("max depth reached (%d), won't parse anymore", depth)]. *)
Definition errMaxDepthReached (depth : nat) : error :=
  ("max depth reached ("
   ++ NilEmpty.string_of_uint (Nat.to_uint depth)
   ++ "), won't parse anymore")%string.

(** Lines 264 to 303: the loop is the text of the later version. *)
Definition parseSimpleStatement (s : gostring) : result expression :=
  match leafLoop (runes s) leafInit with
  | Err e => Err e
  | Ok st =>
      if negb (foundOp st) then Err errMissingOperator
      else Ok (Simple {| left := lleft st;
                         operator := loperator st;
                         right := trimSpace (trimRight (trimSpace (lbuf st)) ")") |})
  end.

Record scanState := {
  buf : gostring;
  parenthesisAcc : Z;
  logicalOp : logicalOperator;
  expressions : list expression;
  isInsideSubExp : bool
}.

Definition scanInit : scanState :=
  {| buf := []; parenthesisAcc := 0; logicalOp := []; expressions := [];
     isInsideSubExp := false |}.

(** One iteration of the loop of [safeParse] on the rune [r]; [sub] is
    the recursive call [safeParse(_, depth+1)]. *)
Definition scanStep (sub : gostring -> result expression) (r : rune)
    (st : scanState) : result scanState :=
  if (r =? rLParen)%N then
    let acc := (parenthesisAcc st + 1)%Z in
    let inside := if (1 <? acc)%Z then true else isInsideSubExp st in
    if (3 <? acc)%Z then Err errNestedParenthesis
    else Ok {| buf := buf st; parenthesisAcc := acc; logicalOp := logicalOp st;
               expressions := expressions st; isInsideSubExp := inside |}
  else if (r =? rRParen)%N then
    let acc := (parenthesisAcc st - 1)%Z in
    if (acc <? 0)%Z then Err errBrokenParenthesis
    else Ok {| buf := buf st; parenthesisAcc := acc; logicalOp := logicalOp st;
               expressions := expressions st; isInsideSubExp := isInsideSubExp st |}
  else if isInsideSubExp st then
    let expStr := buf st ++ encodeRune r in
    if (parenthesisAcc st =? 0)%Z then
      match sub expStr with
      | Err e => Err e
      | Ok exp =>
          Ok {| buf := []; parenthesisAcc := parenthesisAcc st;
                logicalOp := logicalOp st;
                expressions := expressions st ++ [exp];
                isInsideSubExp := false |}
      end
    else Ok {| buf := expStr; parenthesisAcc := parenthesisAcc st;
               logicalOp := logicalOp st; expressions := expressions st;
               isInsideSubExp := true |}
  else
    let tmpString := buf st in
    match hasSuffixLogicalOp tmpString with
    | Some op =>
        let logicalOp' := if streq (logicalOp st) [] then op else logicalOp st in
        if negb (streq logicalOp' op) then Err errAlternating
        else
          let exprStr := trimSuffix tmpString op in
          let children :=
            if 0 <? length exprStr then
              match sub exprStr with
              | Err e => Err e
              | Ok exp => Ok (expressions st ++ [exp])
              end
            else Ok (expressions st) in
          match children with
          | Err e => Err e
          | Ok exprs =>
              Ok {| buf := encodeRune r; parenthesisAcc := parenthesisAcc st;
                    logicalOp := logicalOp'; expressions := exprs;
                    isInsideSubExp := false |}
          end
    | None =>
        Ok {| buf := buf st ++ encodeRune r; parenthesisAcc := parenthesisAcc st;
              logicalOp := logicalOp st; expressions := expressions st;
              isInsideSubExp := false |}
    end.

Fixpoint scanLoop (sub : gostring -> result expression) (rs : list rune)
    (st : scanState) : result scanState :=
  match rs with
  | [] => Ok st
  | r :: tl =>
      match scanStep sub r st with
      | Err e => Err e
      | Ok st' => scanLoop sub tl st'
      end
  end.

(** [safeParse] by recursion on [budget], which is [3 - depth]. *)
Fixpoint safeParseFrom (budget depth : nat) (s : gostring) : result expression :=
  match budget with
  | O => Err (errMaxDepthReached depth)
  | S b =>
      let sub := safeParseFrom b (S depth) in
      match scanLoop sub (runes s) scanInit with
      | Err e => Err e
      | Ok st =>
          if length (expressions st) =? 0 then parseSimpleStatement s
          else
            let children :=
              if 0 <? length (buf st) then
                match sub (buf st) with
                | Err e => Err e
                | Ok exp => Ok (expressions st ++ [exp])
                end
              else Ok (expressions st) in
            match children with
            | Err e => Err e
            | Ok exprs => Ok (Complex (logicalOp st) exprs)
            end
      end
  end.

Definition safeParse (s : gostring) (depth : nat) : result expression :=
  safeParseFrom (3 - depth) depth s.

Definition parse (s : gostring) : result expression :=
  let cleanS := trimSpace (trimRight (trimLeft (trimSpace s) "{") "}") in
  safeParse cleanS 0.

End Depth2.

(** ** Equivalence as a relation *)

(** Structural equivalence of trees: operands of a comparison may be
    swapped, and the children of a group may be paired in any order. *)
Inductive equiv : expression -> expression -> Prop :=
| equiv_simple s o :
    simpleEquivalent s o = true -> equiv (Simple s) (Simple o)
| equiv_complex op es es' l' :
    Permutation es' l' -> Forall2 equiv es l' ->
    equiv (Complex op es) (Complex op es').


(** A perfect one-to-one pairing of the children [es] with the pool
    [others]: some reordering of the pool matches [es] position by
    position. *)
Definition pairing (R : expression -> expression -> Prop)
    (es others : list expression) : Prop :=
  exists l', Permutation others l' /\ Forall2 R es l'.

(** Concatenations of encodings taken from [encs]. *)
Inductive concatOf (encs : list gostring) : gostring -> Prop :=
| concat_nil : concatOf encs []
| concat_cons e t : In e encs -> concatOf encs t -> concatOf encs (e ++ t).

(** Strings made of white-space runes only. *)
Definition whiteSpace : gostring -> Prop := concatOf spaceEncodings.

(** The white-space encodings reversed, and the two passes of
    [trimSpace]. *)
Definition revEncodings : list gostring := map (@rev ascii) spaceEncodings.

Definition nonemptyb (encs : list gostring) : bool :=
  forallb (fun e => negb (length e =? 0)) encs.

Definition prefixFreeb (encs : list gostring) : bool :=
  forallb (fun e => forallb (fun e' => implb (hasPrefix e e') (streq e e')) encs) encs.

(** No byte after the first of an encoding opens an encoding. *)
Definition selfSyncb (encs : list gostring) : bool :=
  forallb (fun e =>
    forallb (fun e2 => forallb (fun c => negb (hasPrefix e2 [c])) (tl e)) encs) encs.

Definition stripLeft : gostring -> gostring := stripSpace spacePrefix 0.
Definition stripRightRev : gostring -> gostring := stripSpace spaceSuffixRev 0.

(** ** Notions the properties are stated with *)

(** Every group of the tree has the operator [&&] or [||] and at least
    one child. *)
Fixpoint wellFormed (e : expression) : bool :=
  match e with
  | Simple _ => true
  | Complex op children =>
      (streq op loAnd || streq op loOr)
      && (1 <=? length children)
      && forallb wellFormed children
  end.

(** The walk of [scan] over the parenthesised groups of [rest]: every
    group the loop would descend into satisfies [fits]. *)
Fixpoint groupsFit (fits : gostring -> bool) (skip : nat) (rest : gostring) : bool :=
  match rest with
  | [] => true
  | c :: tl =>
      match skip with
      | S k => groupsFit fits k tl
      | O =>
          if (byteval c =? rLParen)%N then
            match matchingParenthesisPos rest with
            | None => true
            | Some pos => fits (firstn (pos - 1) tl) && groupsFit fits pos tl
            end
          else groupsFit fits 0 tl
      end
  end.

(** [s] can be walked with [budget] levels of recursion: the chains of
    parenthesis-induced descents in [s] are shorter than [budget]. *)
Fixpoint fitsBudget (budget : nat) (s : gostring) : bool :=
  match budget with
  | O => false
  | S b => groupsFit (fitsBudget b) 0 s
  end.

(** The nesting depth of [s], counted in parenthesis-induced recursive
    descents, is at most [d]. *)
Definition nestedWithin (d : nat) (s : gostring) : bool := fitsBudget (S d) s.

(** The iteration of [parseSimpleStatement] on [r] writes the rune and
    finds a comparison operator at the end of the buffer. *)
Definition operatorMatched (r : rune) (st : leafState) : bool :=
  negb ((length (lbuf st) =? 0) && ((r =? rSpace)%N || (r =? rLParen)%N))
  && match hasSuffixComparisonOp (lbuf st ++ encodeRune r) with
     | Some _ => true
     | None => false
     end.

(** [strings.Contains]. *)
Fixpoint contains (s substr : gostring) : bool :=
  hasPrefix s substr
  || match s with
     | [] => false
     | _ :: tl => contains tl substr
     end.

Definition isASCII (s : gostring) : bool :=
  forallb (fun c => (byteval c <? 128)%N) s.

Definition dquote : ascii := ascii_of_nat 34.

(** [s] without the space characters that stand outside double-quoted
    literals: two inputs differ only in such white space when this maps
    them to the same string. *)
Fixpoint unspaced (inQuotes : bool) (s : gostring) : gostring :=
  match s with
  | [] => []
  | c :: tl =>
      if Ascii.eqb c dquote then c :: unspaced (negb inQuotes) tl
      else if negb inQuotes && Ascii.eqb c " " then unspaced inQuotes tl
      else c :: unspaced inQuotes tl
  end.

(** Strings of ASCII characters with no parenthesis and no occurrence of a
    logical operator. *)
Record plain (x : gostring) : Prop := {
  plain_ascii : isASCII x = true;
  plain_open : ~ In "("%char x;
  plain_close : ~ In ")"%char x;
  plain_ops : forall op pre post, In op listLogicalOperators -> x <> pre ++ op ++ post
}.


(** No comparison operator occurs in [x]: an occurrence of [!=] holds one
    of [=]. *)
Definition noOperator (x : gostring) : Prop :=
  contains x coEqual = false /\ contains x coNotExists = false.

(** A double-quoted literal. *)
Definition quotedLiteral (body : gostring) : gostring :=
  dquote :: body ++ [dquote].

(** A text between a pair of parentheses, and between [n] pairs. *)
Definition wrap (s : gostring) : gostring := "("%char :: s ++ [")"%char].

Fixpoint wrapN (n : nat) (x : gostring) : gostring :=
  match n with
  | O => x
  | S k => wrap (wrapN k x)
  end.

(** ASCII text without parentheses, possibly between pairs of
    parentheses. *)
Inductive closedText : gostring -> Prop :=
| closed_plain x :
    isASCII x = true -> count x "(" = 0 -> count x ")" = 0 -> closedText x
| closed_wrap s : closedText s -> closedText (wrap s).

(** ** The test tables of the repository *)

(** Test inputs are written with an apostrophe where the Go source has an
    escaped double quote. *)
Definition quoted (s : string) : gostring :=
  map (fun c => if Ascii.eqb c "'" then dquote else c) (str s).

(** [TestParse]: input and expected result. *)
Definition testParse : list (gostring * result expression) :=
  [ (quoted "{$.eventName=DeleteGroupPolicy}",
     Ok (se "$.eventName" coEqual "DeleteGroupPolicy"));
    (quoted "{   $.eventName = DeleteGroupPolicy   }",
     Ok (se "$.eventName" coEqual "DeleteGroupPolicy"));
    (quoted "{   $. eventName = DeleteGroupPolicy   }",
     Ok (se "$. eventName" coEqual "DeleteGroupPolicy"));
    (quoted "{   $. eventName = ' String string string  ' }",
     Ok (se "$. eventName" coEqual (quoted "' String string string  '")));
    (quoted "{   $. eventName != ' String string string  ' }",
     Ok (se "$. eventName" coNotEqual (quoted "' String string string  '")));
    (quoted "{   $.eventName NOT EXISTS }",
     Ok (se "$.eventName" coNotExists ""));
    (quoted "{($.eventName=DeleteGroupPolicy)}",
     Ok (se "$.eventName" coEqual "DeleteGroupPolicy"));
    (quoted "{(($.eventName=DeleteGroupPolicy))}",
     Ok (se "$.eventName" coEqual "DeleteGroupPolicy"));
    (quoted "{   (   $.eventName  =   DeleteGroupPolicy )   }",
     Ok (se "$.eventName" coEqual "DeleteGroupPolicy"));
    (quoted "{   (   $.eventName  =   DeleteGroupPolicy ))   }",
     Err "broken parenthesis");
    (quoted "{   $.eventName == a }",
     Err "got multiple comparison operators");
    (quoted "{   $.eventName !== a }",
     Err "got multiple comparison operators");
    (quoted "{   $.eventName != a !=}",
     Err "got multiple comparison operators");
    (quoted "{$.userIdentity.type = 'Root' && $.userIdentity.invokedBy NOT EXISTS}",
     Ok (ce loAnd [se "$.userIdentity.type" coEqual (quoted "'Root'");
                   se "$.userIdentity.invokedBy" coNotExists ""]));
    (quoted "{($.userIdentity.type = 'Root' && $.userIdentity.invokedBy NOT EXISTS)}",
     Ok (ce loAnd [se "$.userIdentity.type" coEqual (quoted "'Root'");
                   se "$.userIdentity.invokedBy" coNotExists ""]));
    (quoted "{($.errorCode = '*UnauthorizedOperation') || ($.errorCode = 'AccessDenied*') || ($.sourceIPAddress!='delivery.logs.amazonaws.com') || ($.eventName!='HeadBucket') }",
     Ok (ce loOr [se "$.errorCode" coEqual (quoted "'*UnauthorizedOperation'");
                  se "$.errorCode" coEqual (quoted "'AccessDenied*'");
                  se "$.sourceIPAddress" coNotEqual
                     (quoted "'delivery.logs.amazonaws.com'");
                  se "$.eventName" coNotEqual (quoted "'HeadBucket'")]));
    (quoted "{$.userIdentity.type = 'Root' && $.userIdentity.invokedBy NOT EXISTS && $.eventType != 'AwsServiceEvent' }",
     Ok (ce loAnd [se "$.userIdentity.type" coEqual (quoted "'Root'");
                   se "$.userIdentity.invokedBy" coNotExists "";
                   se "$.eventType" coNotEqual (quoted "'AwsServiceEvent'")]));
    (quoted "{($.eventSource = kms.amazonaws.com) && (($.eventName=DisableKey)||($.eventName=ScheduleKeyDeletion)) }",
     Ok (ce loAnd [se "$.eventSource" coEqual "kms.amazonaws.com";
                   ce loOr [se "$.eventName" coEqual "DisableKey";
                            se "$.eventName" coEqual "ScheduleKeyDeletion"]]));
    (quoted "{ (($.eventName=DisableKey)||($.eventName=ScheduleKeyDeletion)) && ($.eventSource = kms.amazonaws.com) }",
     Ok (ce loAnd [ce loOr [se "$.eventName" coEqual "DisableKey";
                            se "$.eventName" coEqual "ScheduleKeyDeletion"];
                   se "$.eventSource" coEqual "kms.amazonaws.com"]));
    (quoted "{($.eventSource = kms.amazonaws.com) && ($.eventName=DisableKey) || ($.eventName=ScheduleKeyDeletion)}",
     Err "not supported comparison with alternating logical operators");
    (quoted "{((a=b) && ((a=b) || ((a=b) && (a!=b || (a=b)))))}",
     Err "not supported more than 2 nested parenthesis") ].

(** [TestSimpleExpression_isEquivalent] (without the case whose operands
    are not ASCII) and [TestComplexExpression_isEquivalent]: the two
    sides and the expected answer, asked in both directions. *)
Definition testIsEquivalent : list (expression * expression * bool) :=
  [ (se "a" coEqual "b", se "a" coEqual "b", true);
    (se "a" coEqual "b", se "b" coEqual "a", true);
    (se "a" coNotExists "b", se "b" coNotExists "a", true);
    (se "a" coNotEqual "b", se "b" coNotEqual "a", true);
    (se "a" coNotEqual "b", se "b" coEqual "a", false);
    (se "a" coNotEqual "b", se "a" coNotEqual "DIFF", false);
    (se "a" coNotEqual "b", se "DIFF" coNotEqual "b", false);
    (se "a" coNotEqual "b", se "DIFF" coNotEqual "a", false);
    (se "a" coNotEqual "b", se "DIFF" coNotEqual "DIFF2", false);
    (ce loAnd [se "$.userIdentity.type" coEqual (quoted "'Root'");
               se "$.userIdentity.invokedBy" coNotExists "";
               se "$.eventType" coNotEqual (quoted "'AwsServiceEvent'")],
     ce loAnd [se "$.userIdentity.type" coEqual (quoted "'Root'");
               se "$.userIdentity.invokedBy" coNotExists "";
               se "$.eventType" coNotEqual (quoted "'AwsServiceEvent'")],
     true);
    (ce loAnd [se "$.eventType" coNotEqual (quoted "'AwsServiceEvent'");
               se (quoted "'Root'") coEqual "$.userIdentity.type";
               se "$.userIdentity.invokedBy" coNotExists ""],
     ce loAnd [se "$.userIdentity.invokedBy" coNotExists "";
               se "$.userIdentity.type" coEqual (quoted "'Root'");
               se "$.eventType" coNotEqual (quoted "'AwsServiceEvent'")],
     true);
    (ce loAnd [ce loOr [se "$.eventName" coEqual "DisableKey";
                        se "$.eventName" coEqual "ScheduleKeyDeletion"];
               se "$.eventSource" coEqual "kms.amazonaws.com"],
     ce loAnd [se "$.eventSource" coEqual "kms.amazonaws.com";
               ce loOr [se "$.eventName" coEqual "ScheduleKeyDeletion";
                        se "$.eventName" coEqual "DisableKey"]],
     true);
    (ce loAnd [se "$.userIdentity.type" coEqual (quoted "'Root'");
               se "$.userIdentity.invokedBy" coNotExists "";
               se "$.eventType" coNotEqual (quoted "'AwsServiceEvent'")],
     ce loOr [se "$.userIdentity.type" coEqual (quoted "'Root'");
              se "$.userIdentity.invokedBy" coNotExists "";
              se "$.eventType" coNotEqual (quoted "'AwsServiceEvent'")],
     false);
    (ce loAnd [se "$.userIdentity.type" coEqual (quoted "'Rootty'");
               se "$.userIdentity.invokedBy" coNotExists "";
               se "$.eventType" coNotEqual (quoted "'AwsServiceEvent'")],
     ce loAnd [se "$.userIdentity.type" coEqual (quoted "'Root'");
               se "$.userIdentity.invokedBy" coNotExists "";
               se "$.eventType" coNotEqual (quoted "'AwsServiceEvent'")],
     false);
    (ce loAnd [se "$.userIdentity.invokedBy" coNotExists "";
               se "$.eventType" coNotEqual (quoted "'AwsServiceEvent'")],
     ce loAnd [se "$.userIdentity.type" coEqual (quoted "'Root'");
               se "$.userIdentity.invokedBy" coNotExists "";
               se "$.eventType" coNotEqual (quoted "'AwsServiceEvent'")],
     false) ].

(** ** Further notions *)

(** The number of elements of [l] that [z] is equivalent to. *)
Definition countEquivalent (z : expression) (l : list expression) : nat :=
  length (filter (isEquivalent z) l).

(** The messages of the errors the depth-5 [parse] creates. *)
Definition parseErrors : list error :=
  [errBrokenParenthesis; errMaxDepth; errAlternating; errMultipleOperators;
   errMissingOperator].

(** [x] has no white space at either end. *)
Definition trimmed (x : gostring) : bool := streq (trimSpace x) x.

(** What every tree built by the depth-5 parser satisfies: a comparison
    carries one of the three comparison operators and operands without
    outer white space; a group carries [&&], [||] or no operator, never
    has exactly one child, and its children satisfy the same. *)
Fixpoint parsedShape (e : expression) : bool :=
  match e with
  | Simple s =>
      existsb (streq (operator s)) listComparisonOperator
      && trimmed (left s) && trimmed (right s)
  | Complex op children =>
      (streq op [] || existsb (streq op) listLogicalOperators)
      && negb (length children =? 1)
      && forallb parsedShape children
  end.

(** The variables of [safeParse] hold an operator of the list, or none
    yet, and trees of the expected shape. *)
Definition scanShape (st : scanState) : Prop :=
  (logicalOp st = [] \/ In (logicalOp st) listLogicalOperators) /\
  forallb parsedShape (expressions st) = true.

(** The count of [(] less the count of [)] in [s]. *)
Definition balance (s : gostring) : Z :=
  (Z.of_nat (count s "(") - Z.of_nat (count s ")"))%Z.

(** The loop of [matchingParenthesisPos] read byte by byte: the index,
    counted from [i], of the first byte after which the count of open
    parentheses, [parenthesisStack] before the walk, is zero. *)
Fixpoint firstBalanced (i : nat) (parenthesisStack : Z) (s : gostring) : option nat :=
  match s with
  | [] => None
  | c :: tl =>
      let stack1 := if (byteval c =? rLParen)%N then (parenthesisStack + 1)%Z
                    else parenthesisStack in
      let stack2 := if (byteval c =? rRParen)%N then (stack1 - 1)%Z else stack1 in
      if (stack2 =? 0)%Z then Some i else firstBalanced (S i) stack2 tl
  end.

(** The parentheses of [s] are matched: read from the left with [open]
    parentheses already open, no [)] comes without a [(] to close, and
    none is left open at the end. *)
Fixpoint wellNestedFrom (open : nat) (s : gostring) : bool :=
  match s with
  | [] => open =? 0
  | c :: tl =>
      if (byteval c =? rLParen)%N then wellNestedFrom (S open) tl
      else if (byteval c =? rRParen)%N then
        match open with
        | O => false
        | S k => wellNestedFrom k tl
        end
      else wellNestedFrom open tl
  end.

Definition wellNested (s : gostring) : bool := wellNestedFrom 0 s.

(** The same by counting: as many [(] as [)], and in no prefix more [)]
    than [(]. *)
Definition nested (s : gostring) : Prop :=
  balance s = 0%Z /\ forall j, (0 <= balance (firstn j s))%Z.

(** The characters the loop of [parseSimpleStatement] drops while its
    buffer is empty, and a text without the ones it starts with. *)
Definition leadingPad (c : ascii) : bool :=
  Ascii.eqb c " " || Ascii.eqb c "(".

Definition skipLeading (s : gostring) : gostring := dropWhile leadingPad s.

(** *** Operands joined by a logical operator *)

(** ASCII text that holds no parenthesis and none of the characters of
    the logical operators. *)
Definition quiet (x : gostring) : bool :=
  isASCII x && (count x "(" =? 0) && (count x ")" =? 0)
  && (count x "&" =? 0) && (count x "|" =? 0).

Definition spaces (p : gostring) : bool := forallb (Ascii.eqb " ") p.

(** An operand as it is written: a parenthesised text with spaces
    around it, or a text without parentheses. *)
Inductive operand :=
| Group (before inner after : gostring)
| Leaf (text : gostring).

Definition operandText (o : operand) : gostring :=
  match o with
  | Group before inner after => before ++ wrap inner ++ after
  | Leaf text => text
  end.

(** The operands written one after the other with [op] in between. *)
Fixpoint joinOperands (op : logicalOperator) (os : list operand) : gostring :=
  match os with
  | [] => []
  | o :: tl =>
      match tl with
      | [] => operandText o
      | _ :: _ => operandText o ++ op ++ joinOperands op tl
      end
  end.

(** The operand [o] stands for the tree [e]: the text of a group has
    matched parentheses and [sub], the recursive call, returns [e] for it;
    the text of the others is quiet, not blank, and
    [parseSimpleStatement] returns [e] for it once trimmed. *)
Definition operandParses (sub : gostring -> result expression)
    (o : operand) (e : expression) : Prop :=
  match o with
  | Group before inner after =>
      spaces before = true /\ spaces after = true /\
      wellNested inner = true /\ sub inner = Ok e
  | Leaf text =>
      quiet text = true /\ trimSpace text <> [] /\
      parseSimpleStatement (trimSpace text) = Ok e
  end.

(** The loop of [safeParse] started on [x] with the variables [st] has
    the variables [st'] when it has read [x], whatever follows [x]. *)
Definition walks (sub : gostring -> result expression) (x : gostring)
    (st st' : scanState) : Prop :=
  forall m R,
    scanPrefix sub (length x + m) 0 (x ++ R) st = scanPrefix sub m 0 R st'.

(** *** Runes written and read back *)

(** The Unicode scalar values: what [utf8.AppendRune] encodes as it is;
    any other rune is written as U+FFFD. *)
Definition validRune (r : rune) : bool :=
  ((r <? 0xD800) || ((0xE000 <=? r) && (r <=? 0x10FFFF)))%N.

Definition normalize (r : rune) : rune := if validRune r then r else RuneError.

(** The text [strings.Builder.WriteRune] builds from the runes [rs]. *)
Definition encodeRunes (rs : list rune) : gostring := concat (map encodeRune rs).

(** [r] is read back from its encoding, which is one ASCII byte or at
    least two bytes that are not ASCII. *)
Definition roundTrip (r : rune) : bool :=
  let e := encodeRune r in
  match decodeRune e with
  | (r', w) => (r' =? r)%N && (w =? length e)
  end
  && (if (r <? 128)%N then (length e =? 1)
      else (2 <=? length e) && forallb (fun b => (128 <=? byteval b)%N) e).

(** *** The fragments the depth-2 parser hands to itself *)

(** The messages of the errors the depth-2 [parse] returns. *)
Definition depth2Errors : list error :=
  [Depth2.errNestedParenthesis; errBrokenParenthesis; errAlternating;
   errMultipleOperators; errMissingOperator].

Definition notParen (r : rune) : bool :=
  negb (r =? rLParen)%N && negb (r =? rRParen)%N.

(** No text written from a proper prefix of [rs] ends with a logical
    operator: the loop of the depth-2 [safeParse], which looks at its
    buffer before it writes a rune, finds no operator on [rs]. *)
Definition quietPrefixes (rs : list rune) : Prop :=
  forall i, i < length rs ->
    hasSuffixLogicalOp (encodeRunes (firstn i rs)) = None.

(** A text written from runes that are not parentheses, and such a text
    on which the loop finds no operator. *)
Definition written (x : gostring) : Prop :=
  exists rs, x = encodeRunes rs /\ forallb notParen rs = true.

Definition calm (x : gostring) : Prop :=
  exists rs, x = encodeRunes rs /\ forallb notParen rs = true /\
             quietPrefixes rs.

(** What every tree built by the depth-2 parser satisfies: the same
    as [parsedShape] for comparisons; a group carries [&&], [||] or no
    operator and has at least one child. *)
Fixpoint depth2Shape (e : expression) : bool :=
  match e with
  | Simple s =>
      existsb (streq (operator s)) listComparisonOperator
      && trimmed (left s) && trimmed (right s)
  | Complex op children =>
      (streq op [] || existsb (streq op) listLogicalOperators)
      && (1 <=? length children)
      && forallb depth2Shape children
  end.

(** The variables of the depth-2 [safeParse] hold an operator of the
    list, or none yet, and trees of the expected shape. *)
Definition scanShape2 (st : Depth2.scanState) : Prop :=
  (Depth2.logicalOp st = [] \/ In (Depth2.logicalOp st) listLogicalOperators) /\
  forallb depth2Shape (Depth2.expressions st) = true.

(** ** The first program: [cleanExpression] *)

(** [strings.ReplaceAll] with a non-empty [old]: the occurrences of
    [old] are replaced by [new] from the left, without overlap.  [skip]
    counts the bytes of the occurrence being replaced that are still
    ahead. *)
Fixpoint replaceFrom (old new : gostring) (skip : nat) (s : gostring) : gostring :=
  match s with
  | [] => []
  | c :: tl =>
      match skip with
      | S k => replaceFrom old new k tl
      | O =>
          if hasPrefix s old then new ++ replaceFrom old new (pred (length old)) tl
          else c :: replaceFrom old new 0 tl
      end
  end.

Definition replaceAll (s old new : gostring) : gostring := replaceFrom old new 0 s.

(** The literal [= "__NOT_EXISTS__"] of the source. *)
Definition notExistsLiteral : gostring :=
  str "= " ++ dquote :: str "__NOT_EXISTS__" ++ [dquote].

Definition cleanExpression (exp : gostring) : gostring :=
  let exp := replaceAll exp "$" [] in
  let exp := replaceAll exp "." [] in
  let exp := replaceAll exp "{" [] in
  let exp := replaceAll exp "}" [] in
  let exp := replaceAll exp "NOT EXISTS" notExistsLiteral in
  trimSpace exp.

(** The characters [cleanExpression] removes. *)
Definition removedCharacters : list ascii := ["$"; "."; "{"; "}"]%char.

(** An operand of a comparison as it is written: a quiet text without
    comparison operator that starts with neither a space nor a
    parenthesis. *)
Definition comparisonOperand (a : gostring) : Prop :=
  quiet a = true /\ noOperator a /\ a <> [] /\ skipLeading a = a.

(** An operand written without parentheses that stands for the
    comparison [e]: a quiet text, not blank, with nothing but spaces
    around its trimmed form, for which [parseSimpleStatement] returns
    [e]. *)
Definition flatOperand (x : gostring) (e : expression) : Prop :=
  quiet x = true /\ trimSpace x <> [] /\
  (exists pad1 pad2, spaces pad1 = true /\ spaces pad2 = true /\
                     x = pad1 ++ trimSpace x ++ pad2) /\
  parseSimpleStatement (trimSpace x) = Ok e.

(** ** The loop of [safeParse] on operands, operators and white space *)

(** *** What the loop of [safeParse] does on a text *)

(** A text that holds no parenthesis and none of the characters of the
    logical operators, and a text that does not end with one of these
    characters. *)
Definition bare (x : gostring) : bool :=
  (count x "(" =? 0) && (count x ")" =? 0)
  && (count x "&" =? 0) && (count x "|" =? 0).

Definition calmEnd (b : gostring) : Prop :=
  forall a, a = "&"%char \/ a = "|"%char -> hasPrefix (rev b) [a] = false.

(** The loop of [safeParse] started on [x] with the variables [st] stops
    with the error, or goes on with the variables, that [r] gives, whatever
    follows [x]. *)
Definition runs (sub : gostring -> result expression) (x : gostring)
    (st : scanState) (r : result scanState) : Prop :=
  forall m R,
    scanPrefix sub (length x + m) 0 (x ++ R) st =
    match r with
    | Ok st' => scanPrefix sub m 0 R st'
    | Err e => Err e
    end.

(** What the loop does at the last byte of the logical operator [op]
    when the buffer holds [text] before the operator. *)
Definition closeOperand (op : logicalOperator) (text : gostring)
    (st : scanState) : result scanState :=
  let logicalOp' := if streq (logicalOp st) [] then op else logicalOp st in
  if negb (streq logicalOp' op) then Err errAlternating
  else
    let expStr := trimSpace text in
    if 0 <? length expStr then
      match parseSimpleStatement expStr with
      | Err e => Err e
      | Ok exp => Ok {| logicalOp := logicalOp';
                        expressions := expressions st ++ [exp];
                        buf := [] |}
      end
    else Ok {| logicalOp := logicalOp'; expressions := expressions st; buf := [] |}.

(** The loop of [safeParse] on all of [s] and what [safeParse] does
    after it. *)
Definition scanAll (sub : gostring -> result expression) (s : gostring)
    (st : scanState) : result expression :=
  match scan sub 0 s st with
  | Err e => Err e
  | Ok st' => finish st'
  end.

(** *** Operands joined by two different operators *)

(** The operands written one after the other, each followed by [op]. *)
Definition followedBy (op : logicalOperator) (os : list operand) : gostring :=
  concat (map (fun o => operandText o ++ op) os).

(** The operand read last before the second operator: a parenthesised
    text that [sub] accepts, or any bare text. *)
Definition lastOperand (sub : gostring -> result expression) (o : operand) : Prop :=
  match o with
  | Group _ _ _ => exists e, operandParses sub o e
  | Leaf text => bare text = true
  end.

(** The text [s], parsed with [budget] levels left, joins operands by one
    logical operator and then by the other: operands that parse, each
    followed by [op1], a last operand, and [op2], whatever follows; or
    the same inside a parenthesised text with matched parentheses that
    stands, after spaces, at the start of [s] or behind operands that
    parse, each followed by one operator. *)
Inductive mixes : nat -> gostring -> Prop :=
| mixes_here b (op1 op2 : logicalOperator) os es o (rest : gostring) :
    In op1 listLogicalOperators -> In op2 listLogicalOperators -> op1 <> op2 ->
    os <> [] ->
    Forall2 (operandParses (safeParseFrom b)) os es ->
    lastOperand (safeParseFrom b) o ->
    mixes (S b) (followedBy op1 os ++ operandText o ++ op2 ++ rest)
| mixes_inside b (op : logicalOperator) os es (before inner rest : gostring) :
    In op listLogicalOperators ->
    Forall2 (operandParses (safeParseFrom b)) os es ->
    spaces before = true -> wellNested inner = true ->
    mixes b inner ->
    mixes (S b) (followedBy op os ++ before ++ wrap inner ++ rest).

(** *** White space around operators and parentheses *)

(** The ASCII white space: tab, line feed, vertical tab, form feed,
    carriage return and space. *)
Definition asciiSpace (c : ascii) : bool :=
  (((9 <=? byteval c) && (byteval c <=? 13)) || (byteval c =? 32))%N.

Definition blank (p : gostring) : bool := forallb asciiSpace p.

(** An encoding of one byte, or one that starts with a byte outside
    ASCII. *)
Definition singleOrHigh (e : gostring) : bool :=
  match e with
  | b :: _ :: _ => (128 <=? byteval b)%N
  | _ => true
  end.

(** An operand of a comparison as it is written: a quiet text without
    comparison operator and without white space at either end. *)
Definition word (x : gostring) : bool :=
  quiet x && negb (contains x coEqual) && negb (contains x coNotExists)
  && trimmed x.

(** ASCII text that holds no parenthesis, no logical operator and no
    comparison operator. *)
Definition opaque (x : gostring) : bool :=
  isASCII x && (count x "(" =? 0) && (count x ")" =? 0)
  && negb (contains x loAnd) && negb (contains x loOr)
  && negb (contains x coEqual) && negb (contains x coNotExists).

(** The texts [texts] written one after the other with [op] in between. *)
Fixpoint joinTexts (op : logicalOperator) (texts : list gostring) : gostring :=
  match texts with
  | [] => []
  | x :: tl =>
      match tl with
      | [] => x
      | _ :: _ => x ++ op ++ joinTexts op tl
      end
  end.

(** An expression as it is written, with the white space around its
    parts: a bare text; a comparison of two words; expressions joined
    by a logical operator, between parentheses. *)
Inductive phrase :=
| Words (pad0 text pad1 : gostring)
| Comparison (pad0 L pad1 : gostring) (op : comparisonOperator)
    (pad2 R pad3 : gostring)
| Parens (pad0 : gostring) (op : logicalOperator) (items : list phrase)
    (pad1 : gostring).

Fixpoint phraseText (t : phrase) : gostring :=
  match t with
  | Words pad0 text pad1 => pad0 ++ text ++ pad1
  | Comparison pad0 L pad1 op pad2 R pad3 =>
      pad0 ++ L ++ pad1 ++ op ++ pad2 ++ R ++ pad3
  | Parens pad0 op items pad1 =>
      pad0 ++ wrap (joinTexts op (map phraseText items)) ++ pad1
  end.

(** The same expression written without the white space around its parts. *)
Fixpoint tight (t : phrase) : phrase :=
  match t with
  | Words _ text _ => Words [] text []
  | Comparison _ L _ op _ R _ => Comparison [] L [] op [] R []
  | Parens _ op items _ => Parens [] op (map tight items) []
  end.

(** The parts are what they are said to be: the white space is ASCII
    white space, the operators are operators of the lists, the operands
    of a comparison are words, the left one not empty and, before [=],
    not ending with [!]. *)
Fixpoint wellSpaced (t : phrase) : bool :=
  match t with
  | Words pad0 text pad1 => blank pad0 && blank pad1 && bare text
  | Comparison pad0 L pad1 op pad2 R pad3 =>
      blank pad0 && blank pad1 && blank pad2 && blank pad3
      && existsb (streq op) listComparisonOperator
      && word L && negb (length L =? 0) && word R
      && negb (streq op coEqual && hasSuffix L (str "!"))
  | Parens pad0 op items pad1 =>
      blank pad0 && blank pad1 && existsb (streq op) listLogicalOperators
      && forallb wellSpaced items
  end.


(** * Theorems *)

(** ** The tests of the repository, run on the embedding *)

(** Every case of [TestParse] holds of the depth-2 parser the test file
    was written for. *)
Lemma TestParse_depth2 :
  Forall (fun t => Depth2.parse (fst t) = snd t) testParse.
Proof. repeat constructor. Qed.

(** The depth-5 parser agrees on every case but the last, whose four
    levels of parentheses it accepts. *)
Lemma TestParse_depth5 :
  Forall (fun t => parse (fst t) = snd t) (removelast testParse).
Proof. repeat constructor. Qed.

Lemma TestIsEquivalent :
  Forall (fun t => isEquivalent (fst (fst t)) (snd (fst t)) = snd t /\
                   isEquivalent (snd (fst t)) (fst (fst t)) = snd t)
         testIsEquivalent.
Proof. repeat constructor. Qed.

(** ** Strings *)

Lemma streq_true (a b : gostring) : streq a b = true <-> a = b.
Proof.
  unfold streq. destruct (list_eq_dec ascii_dec a b); split; congruence.
Qed.

Lemma streq_refl (a : gostring) : streq a a = true.
Proof. now apply streq_true. Qed.

Lemma streq_sym (a b : gostring) : streq a b = streq b a.
Proof.
  unfold streq.
  destruct (list_eq_dec ascii_dec a b), (list_eq_dec ascii_dec b a); congruence.
Qed.

(** ** Equivalence of trees *)

Lemma isEquivalent_complex (op opOther : logicalOperator)
    (exprs exprsOther : list expression) :
  isEquivalent (Complex op exprs) (Complex opOther exprsOther) =
  if negb (streq opOther op) then false
  else if negb (length exprs =? length exprsOther) then false
  else matchChildren isEquivalent exprs exprsOther.
Proof. reflexivity. Qed.

Lemma expression_induction (P : expression -> Prop) :
  (forall s, P (Simple s)) ->
  (forall op es, Forall P es -> P (Complex op es)) ->
  forall e, P e.
Proof.
  intros Hs Hc. fix IH 1. intros [s|op es].
  - apply Hs.
  - apply Hc. induction es as [|e es IHes]; constructor; [apply IH|exact IHes].
Qed.

Lemma simpleEquivalent_spec (s o : simpleExpression) :
  simpleEquivalent s o = true <->
  operator o = operator s /\
  ((left o = left s /\ right o = right s) \/
   (left o = right s /\ right o = left s)).
Proof.
  unfold simpleEquivalent.
  destruct (streq (operator o) (operator s)) eqn:Hop; cbn [negb].
  - apply streq_true in Hop.
    destruct (streq (left o) (left s) && streq (right o) (right s)) eqn:H1.
    + apply andb_prop in H1 as [?%streq_true ?%streq_true]. tauto.
    + destruct (streq (left o) (right s) && streq (right o) (left s)) eqn:H2.
      * apply andb_prop in H2 as [?%streq_true ?%streq_true]. tauto.
      * split; [discriminate|]. intros [_ [[A B]|[A B]]].
        -- rewrite A, B, !streq_refl in H1. discriminate.
        -- rewrite A, B, !streq_refl in H2. discriminate.
  - split; [discriminate|]. intros [A _]. rewrite A, streq_refl in Hop. discriminate.
Qed.

Lemma simpleEquivalent_refl s : simpleEquivalent s s = true.
Proof. apply simpleEquivalent_spec. tauto. Qed.

Lemma simpleEquivalent_sym s o :
  simpleEquivalent s o = true -> simpleEquivalent o s = true.
Proof.
  rewrite !simpleEquivalent_spec. intros [A [[B C]|[B C]]]; split; auto.
Qed.

Lemma simpleEquivalent_trans s o u :
  simpleEquivalent s o = true -> simpleEquivalent o u = true ->
  simpleEquivalent s u = true.
Proof.
  rewrite !simpleEquivalent_spec.
  intros [A [[B C]|[B C]]] [A' [[B' C']|[B' C']]]; split;
    try congruence; [left|right|right|left]; split; congruence.
Qed.

Lemma equiv_refl a : equiv a a.
Proof.
  induction a as [s|op es IH] using expression_induction.
  - constructor. apply simpleEquivalent_refl.
  - apply equiv_complex with (l' := es); [reflexivity|].
    induction IH; constructor; assumption.
Qed.

Lemma Forall2_pointwise (R R' : expression -> expression -> Prop) es l :
  Forall (fun x => forall y, R x y -> R' x y) es ->
  Forall2 R es l -> Forall2 R' es l.
Proof.
  intros HF H2. induction H2; inversion HF; subst; constructor; auto.
Qed.

Lemma equiv_sym a : forall b, equiv a b -> equiv b a.
Proof.
  induction a as [s|op es IH] using expression_induction; intros b Hab;
    inversion Hab; subst.
  - constructor. now apply simpleEquivalent_sym.
  - assert (Hflip : Forall2 equiv l' es).
    { apply Forall2_flip.
      eapply Forall2_pointwise with (R := equiv); [|eassumption].
      exact IH. }
    destruct (Permutation_Forall2 (Permutation_sym H1) Hflip) as (l2 & Hp & Hf).
    now apply equiv_complex with (l' := l2).
Qed.

Lemma Forall2_chain es : forall l l3,
  Forall (fun x => forall y z, equiv x y -> equiv y z -> equiv x z) es ->
  Forall2 equiv es l -> Forall2 equiv l l3 -> Forall2 equiv es l3.
Proof.
  induction es as [|x es IHes]; intros l l3 HF H1 H2;
    inversion H1; subst; inversion H2; subst; constructor; inversion HF; subst.
  - eauto.
  - eapply IHes; eauto.
Qed.

Lemma equiv_trans a : forall b c, equiv a b -> equiv b c -> equiv a c.
Proof.
  induction a as [s|op es IH] using expression_induction; intros b c Hab Hbc;
    inversion Hab; subst; inversion Hbc; subst.
  - constructor. eapply simpleEquivalent_trans; eassumption.
  - rename l' into l1, l'0 into l2, es'0 into es''.
    destruct (Permutation_Forall2 H1 H5) as (l3 & Hp & Hf).
    apply equiv_complex with (l' := l3).
    + now transitivity l2.
    + eapply Forall2_chain; eassumption.
Qed.

(** *** The pool of unmatched children *)

Lemma swapRemove_perm l : forall idx y,
  nth_error l idx = Some y -> Permutation l (y :: swapRemove idx l).
Proof.
  induction l as [|x l IH] using rev_ind; intros idx y Hnth.
  - destruct idx; discriminate.
  - unfold swapRemove. rewrite rev_app_distr. cbn [rev app].
    assert (Hlt : idx < length (l ++ [x])).
    { apply nth_error_Some. congruence. }
    rewrite length_app in Hlt. cbn in Hlt.
    destruct (Nat.eq_dec idx (length l)) as [->|Hne].
    + rewrite nth_error_app2 in Hnth by lia.
      rewrite Nat.sub_diag in Hnth. injection Hnth as <-.
      unfold replaceAt. rewrite firstn_app, Nat.sub_diag, firstn_all.
      cbn [firstn]. rewrite app_nil_r.
      rewrite skipn_all2 by (rewrite length_app; cbn; lia).
      rewrite removelast_last.
      rewrite Permutation_app_comm. reflexivity.
    + assert (Hlt' : idx < length l) by lia.
      rewrite nth_error_app1 in Hnth by lia.
      destruct (nth_error_split _ _ Hnth) as (l1 & l2 & -> & Hlen).
      unfold replaceAt.
      rewrite <- app_assoc. cbn [app].
      rewrite firstn_app, <- Hlen, Nat.sub_diag, firstn_all. cbn [firstn].
      rewrite app_nil_r.
      replace (skipn (S (length l1)) (l1 ++ y :: l2 ++ [x])) with (l2 ++ [x]).
      2:{ replace (S (length l1)) with (length (l1 ++ [y]))
            by (rewrite length_app; cbn; lia).
          replace (l1 ++ y :: l2 ++ [x]) with ((l1 ++ [y]) ++ l2 ++ [x])
            by (rewrite <- app_assoc; reflexivity).
          rewrite skipn_app, skipn_all, Nat.sub_diag. reflexivity. }
      replace (l1 ++ x :: l2 ++ [x]) with ((l1 ++ x :: l2) ++ [x])
        by (rewrite <- app_assoc; reflexivity).
      rewrite removelast_last.
      rewrite <- Permutation_middle. apply perm_skip.
      replace (l1 ++ l2 ++ [x]) with ((l1 ++ l2) ++ [x])
        by (rewrite <- app_assoc; reflexivity).
      rewrite <- Permutation_cons_append.
      apply Permutation_middle.
Qed.

Lemma findEquivalentPos_Some f l idx :
  findEquivalentPos f l = Some idx ->
  exists y, nth_error l idx = Some y /\ f y = true.
Proof.
  revert idx. induction l as [|x l IH]; intros idx H; cbn in H; [discriminate|].
  destruct (f x) eqn:Hfx.
  - injection H as <-. exists x. auto.
  - destruct (findEquivalentPos f l) as [i|]; [|discriminate].
    injection H as <-. destruct (IH i eq_refl) as (y & ? & ?). exists y. auto.
Qed.

Lemma findEquivalentPos_None f l :
  findEquivalentPos f l = None -> forall y, In y l -> f y = false.
Proof.
  induction l as [|x l IH]; intros H y Hin; cbn in H; [destruct Hin|].
  destruct (f x) eqn:Hfx; [discriminate|].
  destruct (findEquivalentPos f l); [discriminate|].
  destruct Hin as [<-|Hin]; auto.
Qed.

Lemma perm_cons_cases (z y : expression) (S L : list expression) :
  Permutation (z :: S) (y :: L) ->
  Permutation S L /\ z = y \/
  exists L', Permutation S (y :: L') /\ Permutation L (z :: L').
Proof.
  intros HP.
  assert (Hin : In z (y :: L)).
  { eapply Permutation_in; [exact HP|]. now left. }
  destruct Hin as [->|Hin].
  - left. split; [|reflexivity]. eapply Permutation_cons_inv. exact HP.
  - right. destruct (in_split _ _ Hin) as (a & b & ->).
    exists (a ++ b). split.
    + apply Permutation_cons_inv with (a := z).
      rewrite HP. rewrite perm_swap. apply perm_skip.
      symmetry. apply Permutation_middle.
    + symmetry. apply Permutation_middle.
Qed.

Section Greedy.

Variable R : expression -> expression -> Prop.
Hypothesis R_sym : forall a b, R a b -> R b a.
Hypothesis R_trans : forall a b c, R a b -> R b c -> R a c.
Variable f : expression -> expression -> bool.

Lemma pairing_exchange e z rest S :
  R e z -> pairing R (e :: rest) (z :: S) -> pairing R rest S.
Proof.
  intros Hez (l' & HP & HF).
  inversion HF as [|? y ? l'' Hey HF']; subst.
  destruct (perm_cons_cases _ _ _ _ HP) as [[HS _]|(L' & HS & HL)].
  - exists l''. auto.
  - destruct (Permutation_Forall2 HL (Forall2_flip HF')) as (rest' & Hr & Hf').
    inversion Hf' as [|? x ? rest'' Hzx Hf'']; subst.
    assert (Hxy : R x y).
    { cbn in Hzx. eapply R_trans; [exact Hzx|].
      eapply R_trans; [apply R_sym; exact Hez|exact Hey]. }
    assert (HF2 : Forall2 R (x :: rest'') (y :: L')).
    { constructor; [exact Hxy|].
      apply Forall2_flip in Hf''. exact Hf''. }
    destruct (Permutation_Forall2 (Permutation_sym Hr) HF2) as (l3 & Hp3 & Hf3).
    exists l3. split; [|exact Hf3]. now transitivity (y :: L').
Qed.

(** The greedy loop succeeds exactly when a perfect pairing exists. *)
Lemma matchChildren_spec es :
  Forall (fun x => forall y, f x y = true <-> R x y) es ->
  forall others, length es = length others ->
    (matchChildren f es others = true <-> pairing R es others).
Proof.
  induction es as [|e rest IH]; intros Hdec others Hlen; cbn [matchChildren].
  - destruct others; [|discriminate].
    split; [intros _; exists []; split; constructor|reflexivity].
  - inversion Hdec as [|? ? He Hrest]; subst.
    destruct (findEquivalentPos (f e) others) as [idx|] eqn:Hfind.
    + destruct (findEquivalentPos_Some _ _ _ Hfind) as (z & Hnth & Hfz).
      pose proof (swapRemove_perm _ _ _ Hnth) as Hperm.
      assert (Hlen' : length rest = length (swapRemove idx others)).
      { apply Permutation_length in Hperm. cbn in Hperm, Hlen. lia. }
      rewrite (IH Hrest _ Hlen').
      apply He in Hfz. split.
      * intros (l' & Hp & Hf). exists (z :: l'). split.
        -- rewrite Hperm. now apply perm_skip.
        -- now constructor.
      * intros (l' & Hp & Hf). apply pairing_exchange with (e := e) (z := z).
        -- exact Hfz.
        -- exists l'. split; [|exact Hf]. now rewrite <- Hperm.
    + split; [discriminate|].
      intros (l' & Hp & Hf). exfalso.
      inversion Hf as [|? y ? l'' Hey Hf']; subst.
      assert (Hin : In y others).
      { eapply Permutation_in; [symmetry; exact Hp|]. now left. }
      apply (findEquivalentPos_None _ _ Hfind) in Hin.
      apply He in Hey. congruence.
Qed.

End Greedy.

Lemma isEquivalent_equiv a : forall b, isEquivalent a b = true <-> equiv a b.
Proof.
  induction a as [s|op es IH] using expression_induction; intros [o|op' es'].
  - cbn. split; [now constructor|]. intros H. now inversion H.
  - cbn. split; [discriminate|]. intros H. inversion H.
  - cbn. split; [discriminate|]. intros H. inversion H.
  - rewrite isEquivalent_complex.
    destruct (streq op' op) eqn:Hop; cbn [negb].
    2:{ split; [discriminate|]. intros H. inversion H; subst.
        rewrite streq_refl in Hop. discriminate. }
    apply streq_true in Hop. subst op'.
    destruct (length es =? length es') eqn:Hlen; cbn [negb].
    2:{ split; [discriminate|]. intros H. inversion H; subst.
        apply Nat.eqb_neq in Hlen. exfalso. apply Hlen.
        erewrite Forall2_length by eassumption.
        symmetry. now apply Permutation_length. }
    apply Nat.eqb_eq in Hlen.
    rewrite (matchChildren_spec equiv equiv_sym equiv_trans isEquivalent es IH _ Hlen).
    split.
    + intros (l' & Hp & Hf). now apply equiv_complex with (l' := l').
    + intros H. inversion H; subst. exists l'. auto.
Qed.

Lemma Forall2_isEquivalent_equiv es l :
  Forall2 (fun x y => isEquivalent x y = true) es l <-> Forall2 equiv es l.
Proof.
  split; apply Forall2_impl; intros a b; apply isEquivalent_equiv.
Qed.

(** C2: two comparisons are equivalent exactly when their operators are
    identical and their operands agree either in order or swapped; a
    comparison is never equivalent to a group; [se(L, op, R)] is always
    equivalent to [se(R, op, L)]; and [=], [!=] and [NOT EXISTS] are not
    identified with one another. *)
Theorem simple_isEquivalent_spec :
  (forall a b : simpleExpression,
      isEquivalent (Simple a) (Simple b) = true <->
      operator a = operator b /\
      ((left a = left b /\ right a = right b) \/
       (left a = right b /\ right a = left b))) /\
  (forall (a : simpleExpression) op es,
      isEquivalent (Simple a) (Complex op es) = false) /\
  (forall (L : gostring) (op : comparisonOperator) (R : gostring),
      isEquivalent (se L op R) (se R op L) = true) /\
  (forall L R : gostring,
      isEquivalent (se L coEqual R) (se L coNotEqual R) = false /\
      isEquivalent (se L coEqual R) (se L coNotExists R) = false /\
      isEquivalent (se L coNotEqual R) (se L coNotExists R) = false).
Proof.
  split; [|split; [|split]]; [| | |intros L R; repeat split; reflexivity].
  - intros a b. cbn [isEquivalent]. rewrite simpleEquivalent_spec.
    split; intros [A [[B C]|[B C]]]; auto.
  - reflexivity.
  - intros L op R. unfold se. cbn [isEquivalent].
    apply simpleEquivalent_spec. cbn. auto.
Qed.

(** C1: a group is equivalent to nothing but a group with the same
    operator and as many children; for such a group the greedy
    first-match-and-remove loop answers true exactly when the children of
    the two sides can be paired one to one so that each pair is
    equivalent. *)
Theorem complex_isEquivalent_multiset (op : logicalOperator) (es : list expression) :
  (forall s, isEquivalent (Complex op es) (Simple s) = false) /\
  (forall op' es', op' <> op ->
      isEquivalent (Complex op es) (Complex op' es') = false) /\
  (forall es', isEquivalent (Complex loAnd es) (Complex loOr es') = false) /\
  (forall op' es', length es <> length es' ->
      isEquivalent (Complex op es) (Complex op' es') = false) /\
  (forall es', length es = length es' ->
      (isEquivalent (Complex op es) (Complex op es') = true <->
       pairing (fun x y => isEquivalent x y = true) es es')).
Proof.
  assert (Hop : forall o o' es', o' <> o ->
             isEquivalent (Complex o es) (Complex o' es') = false).
  { intros o o' es' Hne. rewrite isEquivalent_complex.
    destruct (streq o' o) eqn:E; [|reflexivity].
    apply streq_true in E. contradiction. }
  split; [reflexivity|]. split; [apply Hop|].
  split; [intros es'; apply Hop; discriminate|].
  split; [|intros es' Hlen; split].
  - intros op' es' Hne. rewrite isEquivalent_complex.
    destruct (negb (streq op' op)); [reflexivity|].
    apply Nat.eqb_neq in Hne. now rewrite Hne.
  - intros H. apply isEquivalent_equiv in H. inversion H; subst.
    exists l'. split; [assumption|]. now apply Forall2_isEquivalent_equiv.
  - intros (l' & Hp & Hf). apply isEquivalent_equiv.
    apply equiv_complex with (l' := l'); [assumption|].
    now apply Forall2_isEquivalent_equiv.
Qed.

(** C3: reordering the children of a group gives an equivalent group. *)
Theorem group_order_independence (op : logicalOperator)
    (children permuted : list expression) :
  Permutation children permuted ->
  isEquivalent (Complex op children) (Complex op permuted) = true.
Proof.
  intros Hp. apply isEquivalent_equiv.
  apply equiv_complex with (l' := children); [now symmetry|].
  clear Hp. induction children; constructor; auto using equiv_refl.
Qed.

Lemma group_order_independence_witness :
  Permutation [se "a" coEqual "b"; se "c" coEqual "d"]
              [se "c" coEqual "d"; se "a" coEqual "b"] /\
  isEquivalent (Complex loAnd [se "a" coEqual "b"; se "c" coEqual "d"])
               (Complex loAnd [se "c" coEqual "d"; se "a" coEqual "b"]) = true.
Proof.
  split; [apply perm_swap|].
  apply group_order_independence. apply perm_swap.
Defined.

(** ** Prefixes, trimming and white space *)

Lemma hasPrefix_spec (s p : gostring) :
  hasPrefix s p = true <-> exists t, s = p ++ t.
Proof.
  revert s. induction p as [|a p IH]; intros s; cbn.
  - split; [intros _; now exists s|reflexivity].
  - destruct s as [|b s].
    + split; [discriminate|]. intros (t & H). discriminate.
    + rewrite andb_true_iff, Ascii.eqb_eq, IH. split.
      * intros [-> (t & ->)]. now exists t.
      * intros (t & H). injection H as -> ->. split; [reflexivity|now exists t].
Qed.

Lemma hasPrefix_app (p t : gostring) : hasPrefix (p ++ t) p = true.
Proof. apply hasPrefix_spec. now exists t. Qed.

Lemma hasSuffix_spec (s p : gostring) :
  hasSuffix s p = true <-> exists t, s = t ++ p.
Proof.
  unfold hasSuffix. rewrite hasPrefix_spec. split; intros (t & H).
  - exists (rev t). apply (f_equal (@rev ascii)) in H.
    rewrite rev_involutive, rev_app_distr, rev_involutive in H. exact H.
  - exists (rev t). subst s. apply rev_app_distr.
Qed.

Lemma app_prefix_cases (a b c d : gostring) :
  a ++ b = c ++ d ->
  (exists r, c = a ++ r /\ b = r ++ d) \/ (exists r, a = c ++ r /\ d = r ++ b).
Proof.
  revert c. induction a as [|x a IH]; intros c H; cbn in H.
  - left. exists c. auto.
  - destruct c as [|y c]; cbn in H.
    + right. exists (x :: a). auto.
    + injection H as -> H. destruct (IH _ H) as [(r & -> & ->)|(r & -> & ->)].
      * left. exists r. auto.
      * right. exists r. auto.
Qed.

Section Strip.

Variable encs : list gostring.

(** No encoding is empty, and none is a prefix of another. *)
Hypothesis encs_nonempty : forall e, In e encs -> e <> [].
Hypothesis encs_prefix_free :
  forall e e', In e encs -> In e' encs -> hasPrefix e e' = true -> e = e'.

Let front := encodingPrefix encs.
Let strip := stripSpace front 0.

Lemma encodingPrefix_Some s w :
  front s = Some w -> exists e t, In e encs /\ s = e ++ t /\ w = length e.
Proof.
  unfold front, encodingPrefix. destruct (find (hasPrefix s) encs) as [e|] eqn:F;
    [|discriminate].
  intros [= <-]. apply find_some in F as [Hin Hp].
  apply hasPrefix_spec in Hp as (t & ->). now exists e, t.
Qed.

Lemma encodingPrefix_None s :
  front s = None <-> forall e t, In e encs -> s <> e ++ t.
Proof.
  unfold front, encodingPrefix. destruct (find (hasPrefix s) encs) as [e|] eqn:F.
  - split; [discriminate|]. intros H. exfalso.
    apply find_some in F as [Hin Hp].
    apply hasPrefix_spec in Hp as (t & ->). now apply (H e t).
  - split; [|reflexivity]. intros _ e t Hin ->.
    pose proof (find_none _ _ F e Hin) as Hn.
    now rewrite hasPrefix_app in Hn.
Qed.

Lemma encodingPrefix_app e t : In e encs -> front (e ++ t) = Some (length e).
Proof.
  intros Hin. destruct (front (e ++ t)) as [w|] eqn:F.
  - apply encodingPrefix_Some in F as (e' & t' & Hin' & Heq & ->).
    destruct (app_prefix_cases _ _ _ _ Heq) as [(r & -> & _)|(r & -> & _)].
    + f_equal. f_equal. apply encs_prefix_free; auto using hasPrefix_app.
    + f_equal. f_equal. symmetry. apply encs_prefix_free; auto using hasPrefix_app.
  - exfalso. now apply (proj1 (encodingPrefix_None _) F e t).
Qed.

Lemma stripSpace_skip k : forall s,
  stripSpace front k s = strip (skipn k s).
Proof.
  induction k as [|k IH]; intros s; [reflexivity|].
  destruct s as [|c tl]; [reflexivity|]. cbn [stripSpace skipn]. apply IH.
Qed.

Lemma strip_None s : front s = None -> strip s = s.
Proof.
  intros H. unfold strip. destruct s as [|c tl]; [reflexivity|].
  cbn [stripSpace]. now rewrite H.
Qed.

Lemma strip_encoding e t : In e encs -> strip (e ++ t) = strip t.
Proof.
  intros Hin. pose proof (encodingPrefix_app e t Hin) as F.
  pose proof (encs_nonempty e Hin) as Hne.
  destruct e as [|c e']; [congruence|].
  unfold strip at 1. cbn [app stripSpace]. cbn [app] in F. rewrite F.
  cbn [length pred]. rewrite stripSpace_skip.
  now rewrite skipn_app, skipn_all, Nat.sub_diag.
Qed.

Lemma strip_concat w t : concatOf encs w -> strip (w ++ t) = strip t.
Proof.
  induction 1 as [|e w' Hin Hw IH]; [reflexivity|].
  rewrite <- app_assoc, strip_encoding by assumption. exact IH.
Qed.

Lemma strip_decompose s :
  exists pre, s = pre ++ strip s /\ concatOf encs pre /\ front (strip s) = None.
Proof.
  remember (length s) as n eqn:Hn. revert s Hn.
  induction n as [n IH] using lt_wf_ind. intros s ->.
  destruct (front s) as [w|] eqn:F.
  - apply encodingPrefix_Some in F as (e & t & Hin & -> & ->).
    pose proof (encs_nonempty e Hin) as Hne.
    destruct (IH (length t)) with (s := t) as (pre & Heq & Hc & Hf); [|reflexivity|].
    { rewrite length_app. destruct e; [congruence|cbn; lia]. }
    exists (e ++ pre). rewrite strip_encoding by assumption.
    rewrite <- app_assoc, <- Heq. split; [reflexivity|].
    split; [now constructor|assumption].
  - exists []. rewrite strip_None by assumption. split; [reflexivity|].
    split; [constructor|assumption].
Qed.

Lemma front_prefix_None a b : front (a ++ b) = None -> front a = None.
Proof.
  rewrite !encodingPrefix_None. intros H e t Hin ->.
  apply (H e (t ++ b) Hin). now rewrite app_assoc.
Qed.

End Strip.

(** *** The white-space encodings *)


Lemma nonemptyb_sound encs :
  nonemptyb encs = true -> forall e, In e encs -> e <> [].
Proof.
  unfold nonemptyb. rewrite forallb_forall. intros H e Hin ->.
  specialize (H _ Hin). discriminate.
Qed.

Lemma prefixFreeb_sound encs :
  prefixFreeb encs = true ->
  forall e e', In e encs -> In e' encs -> hasPrefix e e' = true -> e = e'.
Proof.
  unfold prefixFreeb. rewrite forallb_forall. intros H e e' Hin Hin' Hp.
  specialize (H _ Hin). rewrite forallb_forall in H. specialize (H _ Hin').
  rewrite Hp in H. now apply streq_true.
Qed.

Lemma selfSyncb_sound encs :
  selfSyncb encs = true ->
  forall e e2 c, In e encs -> In e2 encs -> In c (tl e) -> hasPrefix e2 [c] = false.
Proof.
  unfold selfSyncb. rewrite forallb_forall. intros H e e2 c Hin Hin2 Hc.
  specialize (H _ Hin). rewrite forallb_forall in H. specialize (H _ Hin2).
  rewrite forallb_forall in H. specialize (H _ Hc).
  now apply negb_true_iff in H.
Qed.

Lemma space_nonempty : forall e, In e spaceEncodings -> e <> [].
Proof. exact (nonemptyb_sound spaceEncodings eq_refl). Qed.

Lemma space_prefix_free :
  forall e e', In e spaceEncodings -> In e' spaceEncodings ->
               hasPrefix e e' = true -> e = e'.
Proof. exact (prefixFreeb_sound spaceEncodings eq_refl). Qed.

Lemma space_self_sync :
  forall e e2 c, In e spaceEncodings -> In e2 spaceEncodings ->
                 In c (tl e) -> hasPrefix e2 [c] = false.
Proof. exact (selfSyncb_sound spaceEncodings eq_refl). Qed.

Lemma rev_nonempty : forall e, In e revEncodings -> e <> [].
Proof. exact (nonemptyb_sound revEncodings eq_refl). Qed.

Lemma rev_prefix_free :
  forall e e', In e revEncodings -> In e' revEncodings ->
               hasPrefix e e' = true -> e = e'.
Proof. exact (prefixFreeb_sound revEncodings eq_refl). Qed.

Lemma trimSpace_unfold s : trimSpace s = rev (stripRightRev (rev (stripLeft s))).
Proof. reflexivity. Qed.

Lemma concatOf_app encs w1 w2 :
  concatOf encs w1 -> concatOf encs w2 -> concatOf encs (w1 ++ w2).
Proof.
  induction 1; intros H2; [exact H2|].
  rewrite <- app_assoc. constructor; auto.
Qed.

Lemma concatOf_one encs e : In e encs -> concatOf encs e.
Proof.
  intros H. rewrite <- (app_nil_r e). constructor; [exact H|constructor].
Qed.

Lemma whiteSpace_rev w : whiteSpace w -> concatOf revEncodings (rev w).
Proof.
  induction 1 as [|e t Hin Ht IH]; [constructor|].
  rewrite rev_app_distr. apply concatOf_app; [exact IH|].
  apply concatOf_one. unfold revEncodings. now apply in_map.
Qed.

Lemma revEncodings_rev q : concatOf revEncodings q -> whiteSpace (rev q).
Proof.
  induction 1 as [|e t Hin Ht IH]; [constructor|].
  rewrite rev_app_distr. apply concatOf_app; [exact IH|].
  apply concatOf_one. unfold revEncodings in Hin.
  apply in_map_iff in Hin as (e0 & <- & Hin). now rewrite rev_involutive.
Qed.

Lemma stripLeft_decompose s :
  exists pre, s = pre ++ stripLeft s /\ whiteSpace pre /\
              spacePrefix (stripLeft s) = None.
Proof. exact (strip_decompose spaceEncodings space_nonempty space_prefix_free s). Qed.

Lemma stripRightRev_decompose r :
  exists q, r = q ++ stripRightRev r /\ concatOf revEncodings q /\
            spaceSuffixRev (stripRightRev r) = None.
Proof. exact (strip_decompose revEncodings rev_nonempty rev_prefix_free r). Qed.

Lemma stripLeft_whiteSpace w t : whiteSpace w -> stripLeft (w ++ t) = stripLeft t.
Proof. exact (strip_concat spaceEncodings space_nonempty space_prefix_free w t). Qed.

Lemma stripRightRev_concat q t :
  concatOf revEncodings q -> stripRightRev (q ++ t) = stripRightRev t.
Proof. exact (strip_concat revEncodings rev_nonempty rev_prefix_free q t). Qed.

Lemma stripLeft_None s : spacePrefix s = None -> stripLeft s = s.
Proof. exact (strip_None spaceEncodings s). Qed.

Lemma stripRightRev_None r : spaceSuffixRev r = None -> stripRightRev r = r.
Proof. exact (strip_None revEncodings r). Qed.

Lemma spacePrefix_prefix a b : spacePrefix (a ++ b) = None -> spacePrefix a = None.
Proof. exact (front_prefix_None spaceEncodings a b). Qed.

Lemma spacePrefix_None s :
  spacePrefix s = None <-> forall e t, In e spaceEncodings -> s <> e ++ t.
Proof. exact (encodingPrefix_None spaceEncodings s). Qed.

(** [strings.TrimSpace] removes a white-space prefix and a white-space
    suffix and leaves a string that neither starts nor ends with white
    space. *)
Lemma trimSpace_decompose s :
  exists pre post,
    s = pre ++ trimSpace s ++ post /\ whiteSpace pre /\ whiteSpace post /\
    spacePrefix (trimSpace s) = None /\
    spaceSuffixRev (rev (trimSpace s)) = None.
Proof.
  rewrite trimSpace_unfold.
  destruct (stripLeft_decompose s) as (pre & Hs & Hpre & Hf).
  destruct (stripRightRev_decompose (rev (stripLeft s))) as (q & Hr & Hq & Hfr).
  remember (stripRightRev (rev (stripLeft s))) as t eqn:Ht. clear Ht.
  assert (Hs1 : stripLeft s = rev t ++ rev q).
  { rewrite <- rev_app_distr, <- Hr. now rewrite rev_involutive. }
  exists pre, (rev q). repeat split.
  - now rewrite <- Hs1.
  - exact Hpre.
  - now apply revEncodings_rev.
  - rewrite Hs1 in Hf. eapply spacePrefix_prefix. exact Hf.
  - now rewrite rev_involutive.
Qed.

Lemma trimSpace_fixed x :
  spacePrefix x = None -> spaceSuffixRev (rev x) = None -> trimSpace x = x.
Proof.
  intros Hp Hs. rewrite trimSpace_unfold.
  rewrite (stripLeft_None _ Hp), (stripRightRev_None _ Hs). apply rev_involutive.
Qed.

Lemma trimSpace_idempotent s : trimSpace (trimSpace s) = trimSpace s.
Proof.
  destruct (trimSpace_decompose s) as (_ & _ & _ & _ & _ & Hp & Hs).
  now apply trimSpace_fixed.
Qed.

Lemma spacePrefix_app_whiteSpace s w :
  s <> [] -> spacePrefix s = None -> whiteSpace w -> spacePrefix (s ++ w) = None.
Proof.
  intros Hne Hs Hw. apply spacePrefix_None. intros e t Hin Heq.
  pose proof (proj1 (spacePrefix_None _) Hs) as Hnone.
  destruct (app_prefix_cases _ _ _ _ Heq) as [(r & -> & Hw2)|(r & -> & _)].
  - destruct r as [|c r'].
    + apply (Hnone (s ++ []) []); [exact Hin|now rewrite !app_nil_r].
    + destruct Hw as [|e2 t2 Hin2 Ht2]; [discriminate|].
      pose proof (space_nonempty _ Hin2) as Hne2.
      destruct e2 as [|c2 e2']; [congruence|]. cbn in Hw2. injection Hw2 as -> _.
      assert (Hc : In c (tl (s ++ c :: r'))).
      { destruct s as [|x s']; [congruence|]. cbn. apply in_or_app. right. now left. }
      pose proof (space_self_sync _ _ _ Hin Hin2 Hc) as Hno.
      cbn in Hno. now rewrite Ascii.eqb_refl in Hno.
  - now apply (Hnone e r).
Qed.

(** White space around a string does not change what [strings.TrimSpace]
    returns. *)
Lemma trimSpace_surrounded w1 s w2 :
  whiteSpace w1 -> whiteSpace w2 -> trimSpace (w1 ++ s ++ w2) = trimSpace s.
Proof.
  intros H1 H2. rewrite !trimSpace_unfold. f_equal.
  rewrite (stripLeft_whiteSpace _ _ H1).
  destruct (stripLeft_decompose s) as (pre & Hs & Hpre & Hf).
  rewrite Hs at 1. rewrite <- app_assoc.
  rewrite (stripLeft_whiteSpace _ _ Hpre).
  destruct (stripLeft s) as [|c s1] eqn:E.
  - cbn [app]. rewrite <- (app_nil_r w2).
    now rewrite (stripLeft_whiteSpace _ _ H2).
  - rewrite (stripLeft_None _ (spacePrefix_app_whiteSpace (c :: s1) w2
                                 ltac:(discriminate) Hf H2)).
    rewrite rev_app_distr. apply stripRightRev_concat. now apply whiteSpace_rev.
Qed.

(** *** Parentheses survive the cleaning of the input *)

Lemma count_app s t c : count (s ++ t) c = count s c + count t c.
Proof. apply count_occ_app. Qed.

Lemma whiteSpace_count w c :
  forallb (fun e => count e c =? 0) spaceEncodings = true ->
  whiteSpace w -> count w c = 0.
Proof.
  rewrite forallb_forall. intros Hc.
  induction 1 as [|e t Hin Ht IH]; [reflexivity|].
  rewrite count_app, IH. specialize (Hc _ Hin). apply Nat.eqb_eq in Hc. lia.
Qed.

Lemma dropWhile_decompose p s :
  exists pre, s = pre ++ dropWhile p s /\ Forall (fun c => p c = true) pre.
Proof.
  induction s as [|c s (pre & IH & HF)]; cbn.
  - now exists [].
  - destruct (p c) eqn:E.
    + exists (c :: pre). split; [cbn; now f_equal|now constructor].
    + now exists [].
Qed.

Lemma trimLeft_decompose s cut :
  exists pre, s = pre ++ trimLeft s cut /\ Forall (eq cut) pre.
Proof.
  destruct (dropWhile_decompose (Ascii.eqb cut) s) as (pre & H & HF).
  exists pre. split; [exact H|].
  eapply Forall_impl; [|exact HF]. intros c. apply Ascii.eqb_eq.
Qed.

Lemma trimRight_decompose s cut :
  exists post, s = trimRight s cut ++ post /\ Forall (eq cut) post.
Proof.
  destruct (dropWhile_decompose (Ascii.eqb cut) (rev s)) as (pre & H & HF).
  exists (rev pre). split.
  - unfold trimRight. rewrite <- rev_app_distr, <- H. now rewrite rev_involutive.
  - apply Forall_rev. eapply Forall_impl; [|exact HF]. intros c. apply Ascii.eqb_eq.
Qed.

Lemma count_repeat_other pre cut c :
  cut <> c -> Forall (eq cut) pre -> count pre c = 0.
Proof.
  intros Hne. induction 1 as [|x pre <- _ IH]; [reflexivity|].
  unfold count in *. cbn. destruct (ascii_dec cut c); [contradiction|exact IH].
Qed.

Lemma cleanInput_decompose s :
  exists pre post,
    s = pre ++ cleanInput s ++ post /\
    (forall c, c = "("%char \/ c = ")"%char -> count pre c = 0 /\ count post c = 0).
Proof.
  unfold cleanInput.
  destruct (trimSpace_decompose s) as (p1 & q1 & H1 & Hp1 & Hq1 & _).
  destruct (trimLeft_decompose (trimSpace s) "{") as (p2 & H2 & Hp2).
  destruct (trimRight_decompose (trimLeft (trimSpace s) "{") "}") as (q3 & H3 & Hq3).
  destruct (trimSpace_decompose (trimRight (trimLeft (trimSpace s) "{") "}"))
    as (p4 & q4 & H4 & Hp4 & Hq4 & _).
  remember (trimSpace (trimRight (trimLeft (trimSpace s) "{") "}")) as x eqn:Hx.
  clear Hx.
  exists (p1 ++ p2 ++ p4), (q4 ++ q3 ++ q1). split.
  - rewrite H1 at 1. rewrite H2 at 1. rewrite H3 at 1. rewrite H4 at 1.
    now rewrite <- !app_assoc.
  - intros c Hc. rewrite !count_app.
    assert (Hw : forall w, whiteSpace w -> count w c = 0).
    { intros w. apply whiteSpace_count. destruct Hc as [-> | ->]; reflexivity. }
    rewrite (Hw _ Hp1), (Hw _ Hq1), (Hw _ Hp4), (Hw _ Hq4).
    rewrite (count_repeat_other p2 "{" c), (count_repeat_other q3 "}" c); auto;
      destruct Hc as [-> | ->]; discriminate.
Qed.

Lemma cleanInput_count s c :
  c = "("%char \/ c = ")"%char -> count (cleanInput s) c = count s c.
Proof.
  intros Hc. destruct (cleanInput_decompose s) as (pre & post & Hs & Hz).
  destruct (Hz c Hc) as [Hpre Hpost].
  rewrite Hs at 2. rewrite !count_app. lia.
Qed.

(** ** The parser *)

Lemma safeParse_unfold (s : gostring) (depth : nat) :
  safeParse s depth =
  if maxDepth <? depth then Err errMaxDepth
  else match scan (fun subS => safeParse subS (depth + 1)) 0 s scanInit with
       | Err e => Err e
       | Ok st => finish st
       end.
Proof.
  unfold safeParse. destruct (maxDepth <? depth) eqn:E.
  - apply Nat.ltb_lt in E. replace (S maxDepth - depth) with 0 by lia. reflexivity.
  - apply Nat.ltb_ge in E.
    replace (S maxDepth - depth) with (S (maxDepth - depth)) by lia.
    cbn [safeParseFrom].
    replace (S maxDepth - (depth + 1)) with (maxDepth - depth) by lia.
    reflexivity.
Qed.

Lemma parse_parseWithin s : parse s = parseWithin maxDepth s.
Proof. reflexivity. Qed.

Lemma rangeFrom_index s : forall i skip p r,
  In (p, r) (rangeFrom i skip s) -> i <= p < i + length s.
Proof.
  induction s as [|c tl IH]; intros i skip p r H; [destruct H|].
  cbn [rangeFrom] in H. destruct skip as [|k].
  - destruct (decodeRune (c :: tl)) as [r0 w]. destruct H as [H|H].
    + injection H as <- _. cbn. lia.
    + apply IH in H. cbn. lia.
  - apply IH in H. cbn. lia.
Qed.

Lemma matchingLoop_In rs : forall stack pos,
  matchingLoop rs stack = Some pos -> exists r, In (pos, r) rs.
Proof.
  induction rs as [|[i r] tl IH]; intros stack pos H; [discriminate|].
  cbn [matchingLoop] in H.
  destruct (_ =? 0)%Z.
  - injection H as <-. exists r. now left.
  - apply IH in H as (r' & H). exists r'. now right.
Qed.

(** The slice [s[i+1 : pos+i]] of [safeParse] is within bounds: the
    position found for an opening parenthesis lies after it. *)
Lemma matchingParenthesisPos_bounds c tl pos :
  (byteval c =? rLParen)%N = true ->
  matchingParenthesisPos (c :: tl) = Some pos ->
  1 <= pos <= length tl.
Proof.
  intros Hc H. apply N.eqb_eq in Hc.
  unfold matchingParenthesisPos, rangeString in H. cbn [rangeFrom] in H.
  assert (Hd : decodeRune (c :: tl) = (byteval c, 1)).
  { unfold decodeRune. now rewrite Hc. }
  rewrite Hd in H. cbn [matchingLoop pred] in H. rewrite Hc in H.
  cbn in H. apply matchingLoop_In in H as (r & H).
  apply rangeFrom_index in H. lia.
Qed.

Lemma scanPrefix_Ok sub n : forall skip rest st k rest' st',
  scanPrefix sub n skip rest st = Ok (k, rest', st') ->
  scan sub skip rest st = scan sub k rest' st'.
Proof.
  induction n as [|n IH]; intros skip rest st k rest' st' H.
  - cbn in H. now injection H as -> -> ->.
  - destruct rest as [|c tl]; cbn [scanPrefix] in H.
    + now injection H as -> <- ->.
    + cbn [scan]. destruct (scanStep sub skip c tl st) as [[skip1 st1]|e];
        [|discriminate].
      now apply IH.
Qed.

Lemma scanPrefix_Err sub n : forall skip rest st e,
  scanPrefix sub n skip rest st = Err e -> scan sub skip rest st = Err e.
Proof.
  induction n as [|n IH]; intros skip rest st e H; [discriminate|].
  destruct rest as [|c tl]; cbn [scanPrefix] in H; [discriminate|].
  cbn [scan]. destruct (scanStep sub skip c tl st) as [[skip1 st1]|e1].
  - now apply IH.
  - congruence.
Qed.

(** C8: unequal numbers of opening and closing parentheses in the
    brace-stripped input make [parse] fail with the broken-parenthesis
    error, whatever else the input holds; the count the code takes on the
    raw input is the count of the stripped one. *)
Theorem parse_unbalanced_parenthesis (s : gostring) :
  count (cleanInput s) "(" <> count (cleanInput s) ")" ->
  count s "(" <> count s ")" /\ parse s = Err errBrokenParenthesis.
Proof.
  rewrite !cleanInput_count by auto.
  intros H. split; [exact H|]. unfold parse.
  apply Nat.eqb_neq in H. now rewrite H.
Qed.

Lemma parse_unbalanced_parenthesis_witness :
  parse "{   (   $.eventName  =   DeleteGroupPolicy ))   }"
  = Err errBrokenParenthesis.
Proof.
  apply (parse_unbalanced_parenthesis
           "{   (   $.eventName  =   DeleteGroupPolicy ))   }").
  vm_compute. discriminate.
Defined.

Lemma leafLoop_app rs1 : forall rs2 st,
  leafLoop (rs1 ++ rs2) st =
  match leafLoop rs1 st with
  | Err e => Err e
  | Ok st' => leafLoop rs2 st'
  end.
Proof.
  induction rs1 as [|r rs1 IH]; intros rs2 st; [reflexivity|].
  cbn [app leafLoop]. destruct (leafStep r st); [apply IH|reflexivity].
Qed.

Lemma leafStep_second_operator r st :
  foundOp st = true -> operatorMatched r st = true ->
  leafStep r st = Err errMultipleOperators.
Proof.
  unfold operatorMatched, leafStep. intros Hf Hm.
  apply andb_prop in Hm as [Hskip Hop]. apply negb_true_iff in Hskip.
  rewrite Hskip.
  destruct (hasSuffixComparisonOp (lbuf st ++ encodeRune r)); [|discriminate].
  now rewrite Hf.
Qed.

Lemma parseSimpleStatement_second_operator (s : gostring) rs1 r rs2 st :
  runes s = rs1 ++ r :: rs2 ->
  leafLoop rs1 leafInit = Ok st ->
  foundOp st = true ->
  operatorMatched r st = true ->
  parseSimpleStatement s = Err errMultipleOperators.
Proof.
  intros Hs Hpre Hf Hm. unfold parseSimpleStatement.
  rewrite Hs, leafLoop_app, Hpre. cbn [leafLoop].
  now rewrite (leafStep_second_operator _ _ Hf Hm).
Qed.

(** C4, at the inputs on which the code breaks it: [parse("{}")] succeeds
    and returns a group with the empty operator and no child, where the
    depth-2 version reports a missing operator; and [parse("(a=b)(c=d)")]
    returns a group with the empty operator. *)
Theorem parse_empty_group :
  parse "{}" = Ok (Complex [] []) /\
  wellFormed (Complex [] []) = false /\
  Depth2.parse "{}" = Err errMissingOperator /\
  parse "(a=b)(c=d)" = Ok (Complex [] [se "a" coEqual "b"; se "c" coEqual "d"]) /\
  wellFormed (Complex [] [se "a" coEqual "b"; se "c" coEqual "d"]) = false.
Proof. repeat split; vm_compute; reflexivity. Qed.

(** ** The depth limit *)

Lemma leafLoop_errors rs : forall st e,
  leafLoop rs st = Err e -> e = errMultipleOperators.
Proof.
  induction rs as [|r rs IH]; intros st e H; cbn [leafLoop] in H; [discriminate|].
  destruct (leafStep r st) as [st'|e'] eqn:E; [now apply IH in H|].
  injection H as <-. unfold leafStep in E.
  destruct (_ && _); [discriminate|].
  destruct (hasSuffixComparisonOp _); [|discriminate].
  destruct (foundOp st); [|discriminate]. now injection E.
Qed.

Lemma parseSimpleStatement_errors s e :
  parseSimpleStatement s = Err e ->
  e = errMultipleOperators \/ e = errMissingOperator.
Proof.
  unfold parseSimpleStatement.
  destruct (leafLoop (runes s) leafInit) as [st|e'] eqn:E.
  - destruct (negb (foundOp st)); [|discriminate]. intros [= <-]. now right.
  - intros [= <-]. left. eapply leafLoop_errors. exact E.
Qed.

Lemma parseSimpleStatement_not_maxDepth s :
  parseSimpleStatement s <> Err errMaxDepth.
Proof.
  intros H. apply parseSimpleStatement_errors in H as [H|H]; discriminate.
Qed.

Lemma scanByte_not_maxDepth c st : scanByte c st <> Err errMaxDepth.
Proof.
  unfold scanByte. destruct (hasSuffixLogicalOp _); [|discriminate].
  destruct (negb _); [discriminate|].
  destruct (0 <? _); [|discriminate].
  destruct (parseSimpleStatement _) eqn:E; [discriminate|].
  intros [= ->]. now apply parseSimpleStatement_not_maxDepth in E.
Qed.

Lemma finish_not_maxDepth st : finish st <> Err errMaxDepth.
Proof.
  unfold finish. destruct (0 <? _).
  - destruct (parseSimpleStatement _) eqn:E.
    + destruct (expressions st ++ [a]) as [|x [|y l]]; discriminate.
    + intros [= ->]. now apply parseSimpleStatement_not_maxDepth in E.
  - destruct (expressions st) as [|x [|y l]]; discriminate.
Qed.

Section Lockstep.

Variables sub1 sub2 : gostring -> result expression.
Variables fit1 fit2 : gostring -> bool.

Hypothesis agree : forall x, fit1 x = true -> fit2 x = true -> sub1 x = sub2 x.
Hypothesis success_fits : forall x e, sub2 x = Ok e -> fit2 x = true.
Hypothesis overflow :
  forall x e, fit1 x = false -> sub2 x = Ok e -> sub1 x = Err errMaxDepth.
Hypothesis no_overflow : forall x, fit1 x = true -> sub1 x <> Err errMaxDepth.

Lemma scan_agree rest : forall skip st,
  groupsFit fit1 skip rest = true -> groupsFit fit2 skip rest = true ->
  scan sub1 skip rest st = scan sub2 skip rest st.
Proof using agree.
  induction rest as [|c tl IH]; intros skip st H1 H2; [reflexivity|].
  destruct skip as [|k]; cbn [scan scanStep groupsFit] in *; [|now apply IH].
  destruct (byteval c =? rLParen)%N.
  - destruct (matchingParenthesisPos (c :: tl)) as [pos|]; [|reflexivity].
    apply andb_prop in H1 as [Hx1 Hr1]. apply andb_prop in H2 as [Hx2 Hr2].
    rewrite (agree _ Hx1 Hx2).
    destruct (sub2 (firstn (pos - 1) tl)); [now apply IH|reflexivity].
  - destruct (scanByte c st); [now apply IH|reflexivity].
Qed.

Lemma scan_success_fits rest : forall skip st st',
  scan sub2 skip rest st = Ok st' -> groupsFit fit2 skip rest = true.
Proof using success_fits.
  induction rest as [|c tl IH]; intros skip st st' H; [reflexivity|].
  destruct skip as [|k]; cbn [scan scanStep groupsFit] in *; [|now apply IH in H].
  destruct (byteval c =? rLParen)%N.
  - destruct (matchingParenthesisPos (c :: tl)) as [pos|]; [|reflexivity].
    destruct (sub2 (firstn (pos - 1) tl)) as [e|] eqn:E; [|discriminate].
    rewrite (success_fits _ _ E). now apply IH in H.
  - destruct (scanByte c st); [now apply IH in H|discriminate].
Qed.

Lemma scan_overflow rest : forall skip st st',
  groupsFit fit1 skip rest = false ->
  scan sub2 skip rest st = Ok st' ->
  scan sub1 skip rest st = Err errMaxDepth.
Proof using agree success_fits overflow.
  induction rest as [|c tl IH]; intros skip st st' H1 H2; [discriminate|].
  destruct skip as [|k]; cbn [scan scanStep groupsFit] in *; [|now apply IH with st'].
  destruct (byteval c =? rLParen)%N.
  - destruct (matchingParenthesisPos (c :: tl)) as [pos|]; [|discriminate].
    destruct (sub2 (firstn (pos - 1) tl)) as [e|] eqn:E; [|discriminate].
    destruct (fit1 (firstn (pos - 1) tl)) eqn:F.
    + rewrite (agree _ F (success_fits _ _ E)), E.
      cbn [andb] in H1. now apply IH with st'.
    + now rewrite (overflow _ _ F E).
  - destruct (scanByte c st); [now apply IH with st'|discriminate].
Qed.

Lemma scan_no_overflow rest : forall skip st,
  groupsFit fit1 skip rest = true ->
  scan sub1 skip rest st <> Err errMaxDepth.
Proof using no_overflow.
  induction rest as [|c tl IH]; intros skip st H; [discriminate|].
  destruct skip as [|k]; cbn [scan scanStep groupsFit] in *; [|now apply IH].
  destruct (byteval c =? rLParen)%N.
  - destruct (matchingParenthesisPos (c :: tl)) as [pos|]; [|discriminate].
    apply andb_prop in H as [Hx Hr].
    destruct (sub1 (firstn (pos - 1) tl)) as [e|e] eqn:E; [now apply IH|].
    intros [= ->]. now apply (no_overflow _ Hx).
  - destruct (scanByte c st) eqn:E; [now apply IH|].
    intros [= ->]. now apply scanByte_not_maxDepth in E.
Qed.

End Lockstep.

Lemma groupsFit_mono (fit1 fit2 : gostring -> bool) rest :
  (forall x, fit1 x = true -> fit2 x = true) ->
  forall skip, groupsFit fit1 skip rest = true -> groupsFit fit2 skip rest = true.
Proof.
  intros Hm. induction rest as [|c tl IH]; intros skip H; [reflexivity|].
  destruct skip as [|k]; cbn [groupsFit] in *; [|now apply IH].
  destruct (byteval c =? rLParen)%N; [|now apply IH].
  destruct (matchingParenthesisPos (c :: tl)) as [pos|]; [|reflexivity].
  apply andb_prop in H as [Hx Hr]. rewrite (Hm _ Hx). now apply IH.
Qed.

Lemma fitsBudget_mono b : forall s,
  fitsBudget b s = true -> fitsBudget (S b) s = true.
Proof.
  induction b as [|b IH]; intros s H; [discriminate|].
  cbn [fitsBudget] in *. eapply groupsFit_mono; [|exact H]. exact IH.
Qed.

Lemma fitsBudget_le b b' s :
  b <= b' -> fitsBudget b s = true -> fitsBudget b' s = true.
Proof.
  induction 1 as [|m Hle IH]; [auto|]. intros Hb. apply fitsBudget_mono. auto.
Qed.

Lemma success_fitsBudget b : forall s t,
  safeParseFrom b s = Ok t -> fitsBudget b s = true.
Proof.
  induction b as [|b IH]; intros s t H; [discriminate|].
  cbn [safeParseFrom fitsBudget] in *.
  destruct (scan (safeParseFrom b) 0 s scanInit) as [st|] eqn:E; [|discriminate].
  eapply scan_success_fits; [|exact E]. exact IH.
Qed.

Lemma safeParseFrom_agree b : forall b' s,
  fitsBudget b s = true -> fitsBudget b' s = true ->
  safeParseFrom b s = safeParseFrom b' s.
Proof.
  induction b as [|b IH]; intros b' s H1 H2; [discriminate|].
  destruct b' as [|b']; [discriminate|]. cbn [safeParseFrom fitsBudget] in *.
  rewrite (scan_agree (safeParseFrom b) (safeParseFrom b')
             (fitsBudget b) (fitsBudget b') (IH b') s 0 scanInit H1 H2).
  reflexivity.
Qed.

Lemma safeParseFrom_overflow b : forall b' s t,
  fitsBudget b s = false -> safeParseFrom b' s = Ok t ->
  safeParseFrom b s = Err errMaxDepth.
Proof.
  induction b as [|b IH]; intros b' s t H1 H2; [reflexivity|].
  destruct b' as [|b']; [discriminate|]. cbn [safeParseFrom fitsBudget] in *.
  destruct (scan (safeParseFrom b') 0 s scanInit) as [st|] eqn:E; [|discriminate].
  rewrite (scan_overflow (safeParseFrom b) (safeParseFrom b')
             (fitsBudget b) (fitsBudget b')
             (safeParseFrom_agree b b') (success_fitsBudget b') (IH b')
             s 0 scanInit st H1 E).
  reflexivity.
Qed.

Lemma safeParseFrom_no_overflow b : forall s,
  fitsBudget b s = true -> safeParseFrom b s <> Err errMaxDepth.
Proof.
  induction b as [|b IH]; intros s H; [discriminate|].
  cbn [safeParseFrom fitsBudget] in *.
  destruct (scan (safeParseFrom b) 0 s scanInit) as [st|e] eqn:E.
  - apply finish_not_maxDepth.
  - intros [= ->]. revert E.
    apply (scan_no_overflow (safeParseFrom b) (fitsBudget b) IH s 0 scanInit H).
Qed.


(** ** The two versions of the parser *)

Lemma byteval_inj c c' : byteval c = byteval c' -> c = c'.
Proof.
  unfold byteval. intros H. apply (f_equal ascii_of_N) in H.
  now rewrite !ascii_N_embedding in H.
Qed.

Lemma encodeRune_ascii c :
  (byteval c <? 128)%N = true -> encodeRune (byteval c) = [c].
Proof.
  intros H. apply N.ltb_lt in H. unfold encodeRune.
  replace (byteval c <=? 127)%N with true by (symmetry; apply N.leb_le; lia).
  unfold byte_of, byteval. now rewrite ascii_N_embedding.
Qed.

Lemma decodeRune_ascii c tl :
  (byteval c <? 128)%N = true -> decodeRune (c :: tl) = (byteval c, 1).
Proof. intros H. unfold decodeRune. now rewrite H. Qed.

Lemma rangeFrom_ascii s : forall i,
  isASCII s = true -> map snd (rangeFrom i 0 s) = map byteval s.
Proof.
  induction s as [|c tl IH]; intros i H; [reflexivity|].
  cbn [isASCII forallb] in H. apply andb_prop in H as [Hc Htl].
  cbn [rangeFrom]. rewrite (decodeRune_ascii _ _ Hc). cbn [map snd pred].
  f_equal. now apply IH.
Qed.

Lemma runes_ascii s : isASCII s = true -> runes s = map byteval s.
Proof. apply rangeFrom_ascii. Qed.

Lemma contains_false s substr :
  contains s substr = false -> forall pre post, s <> pre ++ substr ++ post.
Proof.
  induction s as [|c tl IH]; intros H pre post Heq.
  - cbn in H. apply orb_false_elim in H as [H _].
    destruct pre; [|discriminate]. cbn in Heq.
    rewrite Heq, hasPrefix_app in H. discriminate.
  - cbn [contains] in H. apply orb_false_elim in H as [Hp Htl].
    destruct pre as [|x pre].
    + cbn in Heq. rewrite Heq, hasPrefix_app in Hp. discriminate.
    + injection Heq as -> Heq. now apply (IH Htl pre post).
Qed.

Lemma isASCII_app a b : isASCII (a ++ b) = isASCII a && isASCII b.
Proof. apply forallb_app. Qed.

Lemma plain_substring pre x post : plain (pre ++ x ++ post) -> plain x.
Proof.
  intros [Ha Ho Hc Hops]. split.
  - rewrite !isASCII_app in Ha.
    apply andb_prop in Ha as [_ Ha]. now apply andb_prop in Ha as [Ha _].
  - intros H. apply Ho. apply in_or_app. right. apply in_or_app. now left.
  - intros H. apply Hc. apply in_or_app. right. apply in_or_app. now left.
  - intros op p q Hin ->. apply (Hops op (pre ++ p) (q ++ post) Hin).
    now rewrite <- !app_assoc.
Qed.

Lemma count_zero_not_in s c : count s c = 0 -> ~ In c s.
Proof. unfold count. apply count_occ_not_In. Qed.

Lemma plain_intro (s : gostring) :
  isASCII s = true -> count s "(" = 0 -> count s ")" = 0 ->
  contains s loAnd = false -> contains s loOr = false -> plain s.
Proof.
  intros Ha Ho Hc Hand Hor. split; auto using count_zero_not_in.
  intros op pre post [<-|[<-|[]]]; now apply contains_false.
Qed.

Lemma plain_no_suffix x p q :
  plain x -> x = p ++ q -> hasSuffixLogicalOp p = None.
Proof.
  intros Hx ->. unfold hasSuffixLogicalOp.
  destruct (find (hasSuffix p) listLogicalOperators) as [op|] eqn:F; [|reflexivity].
  apply find_some in F as [Hin Hs]. apply hasSuffix_spec in Hs as (t & ->).
  exfalso. apply (plain_ops _ Hx op t q Hin). now rewrite <- app_assoc.
Qed.

Lemma plain_head c x :
  plain (c :: x) ->
  (byteval c <? 128)%N = true /\ (byteval c =? rLParen)%N = false /\
  (byteval c =? rRParen)%N = false.
Proof.
  intros [Ha Ho Hc _]. cbn [isASCII forallb] in Ha.
  apply andb_prop in Ha as [Ha _]. split; [exact Ha|].
  split; apply N.eqb_neq; intros H.
  - apply Ho. left. symmetry. now apply byteval_inj.
  - apply Hc. left. symmetry. now apply byteval_inj.
Qed.

(** On a plain string the depth-5 loop only fills its buffer. *)
Lemma scan_plain sub x : forall pre st,
  plain (pre ++ x) -> buf st = pre ->
  scan sub 0 x st =
  Ok {| logicalOp := logicalOp st; expressions := expressions st;
        buf := pre ++ x |}.
Proof.
  induction x as [|c x IH]; intros pre st Hp Hb.
  - cbn. rewrite app_nil_r, <- Hb. now destruct st.
  - pose proof (plain_substring pre (c :: x) [] ) as Hsub.
    rewrite app_nil_r in Hsub. specialize (Hsub Hp).
    destruct (plain_head _ _ Hsub) as (Ha & Ho & _).
    cbn [scan scanStep]. rewrite Ho. unfold scanByte.
    rewrite (encodeRune_ascii _ Ha), Hb.
    rewrite (plain_no_suffix (pre ++ c :: x) (pre ++ [c]) x Hp)
      by (now rewrite <- app_assoc).
    rewrite (IH (pre ++ [c])); cbn [logicalOp expressions buf].
    + now rewrite <- app_assoc.
    + now rewrite <- app_assoc.
    + reflexivity.
Qed.

(** And so does the depth-2 loop. *)
Lemma scanLoop_plain sub x : forall pre st,
  plain (pre ++ x) -> Depth2.buf st = pre ->
  Depth2.isInsideSubExp st = false ->
  Depth2.scanLoop sub (map byteval x) st =
  Ok {| Depth2.buf := pre ++ x;
        Depth2.parenthesisAcc := Depth2.parenthesisAcc st;
        Depth2.logicalOp := Depth2.logicalOp st;
        Depth2.expressions := Depth2.expressions st;
        Depth2.isInsideSubExp := false |}.
Proof.
  induction x as [|c x IH]; intros pre st Hp Hb Hi.
  - cbn. rewrite app_nil_r, <- Hb, <- Hi. now destruct st.
  - pose proof (plain_substring pre (c :: x) [] ) as Hsub.
    rewrite app_nil_r in Hsub. specialize (Hsub Hp).
    destruct (plain_head _ _ Hsub) as (Ha & Ho & Hc).
    cbn [map Depth2.scanLoop]. unfold Depth2.scanStep.
    rewrite Ho, Hc, Hi, Hb.
    rewrite (plain_no_suffix (pre ++ c :: x) pre (c :: x) Hp) by reflexivity.
    rewrite (encodeRune_ascii _ Ha).
    rewrite (IH (pre ++ [c])); cbn [Depth2.buf Depth2.parenthesisAcc
      Depth2.logicalOp Depth2.expressions Depth2.isInsideSubExp].
    + now rewrite <- app_assoc.
    + now rewrite <- app_assoc.
    + reflexivity.
    + reflexivity.
Qed.

Lemma cleanInput_trimmed s : trimSpace (cleanInput s) = cleanInput s.
Proof. apply trimSpace_idempotent. Qed.

(** C10: on an input of ASCII characters with no parenthesis and no
    [&&] or [||], whose cleaned form is not empty, the depth-2 and the
    depth-5 version of [parse] return the same result, which is the
    result of [parseSimpleStatement] on the cleaned input: the same
    comparison on success, the same error otherwise. *)
Theorem versions_agree_on_leaves (s : gostring) :
  isASCII s = true ->
  count s "(" = 0 -> count s ")" = 0 ->
  contains s loAnd = false -> contains s loOr = false ->
  cleanInput s <> [] ->
  Depth2.parse s = parse s /\ parse s = parseSimpleStatement (cleanInput s).
Proof.
  intros Ha Ho Hc Hand Hor Hne.
  pose proof (plain_intro s Ha Ho Hc Hand Hor) as Hs.
  destruct (cleanInput_decompose s) as (pre & post & Hdec & _).
  assert (Hx : plain (cleanInput s)).
  { apply (plain_substring pre _ post). now rewrite <- Hdec. }
  assert (Hnew : parse s = parseSimpleStatement (cleanInput s)).
  { unfold parse. rewrite Ho, Hc. cbn [Nat.eqb negb].
    unfold safeParse. cbn [maxDepth Nat.sub safeParseFrom].
    rewrite (scan_plain _ (cleanInput s) [] scanInit Hx eq_refl).
    unfold finish. cbn [buf expressions logicalOp scanInit app].
    rewrite cleanInput_trimmed.
    destruct (cleanInput s) as [|c x] eqn:E; [congruence|].
    cbn [length Nat.ltb Nat.leb].
    now destruct (parseSimpleStatement (c :: x)). }
  split; [|exact Hnew]. rewrite Hnew.
  unfold Depth2.parse. fold (cleanInput s).
  unfold Depth2.safeParse. cbn [Nat.sub Depth2.safeParseFrom].
  rewrite (runes_ascii _ (plain_ascii _ Hx)).
  rewrite (scanLoop_plain _ (cleanInput s) [] Depth2.scanInit Hx eq_refl eq_refl).
  reflexivity.
Qed.

Lemma versions_agree_on_leaves_witness :
  Depth2.parse "{$.eventName=DeleteGroupPolicy}"
  = parse "{$.eventName=DeleteGroupPolicy}" /\
  parse "{$.eventName=DeleteGroupPolicy}"
  = parseSimpleStatement (cleanInput "{$.eventName=DeleteGroupPolicy}").
Proof.
  apply (versions_agree_on_leaves "{$.eventName=DeleteGroupPolicy}");
    try reflexivity.
  vm_compute. discriminate.
Defined.

(** ** Texts between pairs of parentheses *)

Lemma rangeFrom_ascii_cons c tl i :
  (byteval c <? 128)%N = true ->
  rangeFrom i 0 (c :: tl) = (i, byteval c) :: rangeFrom (S i) 0 tl.
Proof.
  intros Hc. cbn [rangeFrom]. now rewrite (decodeRune_ascii _ _ Hc).
Qed.

Lemma matchingLoop_plain x : forall i rest stack,
  isASCII x = true -> count x "(" = 0 -> count x ")" = 0 ->
  (1 <= stack)%Z ->
  matchingLoop (rangeFrom i 0 (x ++ rest)) stack =
  matchingLoop (rangeFrom (i + length x) 0 rest) stack.
Proof.
  induction x as [|c x IH]; intros i rest stack Ha Ho Hc Hs.
  - cbn. now rewrite Nat.add_0_r.
  - cbn [isASCII forallb] in Ha. apply andb_prop in Ha as [Hca Hx].
    unfold count in Ho, Hc. cbn [count_occ] in Ho, Hc.
    destruct (ascii_dec c "(") as [->|Hno]; [discriminate|].
    destruct (ascii_dec c ")") as [->|Hnc]; [discriminate|].
    cbn [app]. rewrite (rangeFrom_ascii_cons _ _ _ Hca). cbn [matchingLoop].
    replace (byteval c =? rLParen)%N with false
      by (symmetry; apply N.eqb_neq; intros H; apply Hno; now apply byteval_inj).
    replace (byteval c =? rRParen)%N with false
      by (symmetry; apply N.eqb_neq; intros H; apply Hnc; now apply byteval_inj).
    replace (stack =? 0)%Z with false by (symmetry; apply Z.eqb_neq; lia).
    rewrite (IH (S i) rest stack Hx Ho Hc Hs). cbn [length]. f_equal. f_equal. lia.
Qed.

(** Across a closed text the count of open parentheses stays positive and
    comes back to where it was. *)
Lemma matchingLoop_closed s : closedText s ->
  forall i rest stack, (1 <= stack)%Z ->
  matchingLoop (rangeFrom i 0 (s ++ rest)) stack =
  matchingLoop (rangeFrom (i + length s) 0 rest) stack.
Proof.
  induction 1 as [x Ha Ho Hc|s Hs IH]; intros i rest stack Hst.
  - now apply matchingLoop_plain.
  - unfold wrap. cbn [app]. rewrite rangeFrom_ascii_cons by reflexivity.
    cbn [matchingLoop].
    change (byteval "(" =? rLParen)%N with true.
    change (byteval "(" =? rRParen)%N with false. cbn iota.
    replace (stack + 1 =? 0)%Z with false by (symmetry; apply Z.eqb_neq; lia).
    rewrite <- app_assoc. rewrite IH by lia. cbn [app].
    rewrite rangeFrom_ascii_cons by reflexivity. cbn [matchingLoop].
    change (byteval ")" =? rLParen)%N with false.
    change (byteval ")" =? rRParen)%N with true. cbn iota.
    replace (stack + 1 - 1 =? 0)%Z with false by (symmetry; apply Z.eqb_neq; lia).
    replace (stack + 1 - 1)%Z with stack by lia.
    f_equal. f_equal. cbn [length]. rewrite length_app. cbn [length]. lia.
Qed.

(** The parenthesis that opens a wrapped closed text is matched by the
    one that closes it. *)
Lemma matchingParenthesisPos_wrap s rest :
  closedText s -> matchingParenthesisPos (wrap s ++ rest) = Some (S (length s)).
Proof.
  intros Hs. unfold matchingParenthesisPos, rangeString, wrap. cbn [app].
  rewrite rangeFrom_ascii_cons by reflexivity. cbn [matchingLoop].
  change (byteval "(" =? rLParen)%N with true.
  change (byteval "(" =? rRParen)%N with false. cbn iota.
  change (0 + 1 =? 0)%Z with false. cbn iota.
  rewrite <- app_assoc. rewrite (matchingLoop_closed s Hs) by reflexivity.
  cbn [app]. rewrite rangeFrom_ascii_cons by reflexivity. cbn [matchingLoop].
  reflexivity.
Qed.

Lemma scan_skip_all sub l : forall k st,
  length l <= k -> scan sub k l st = Ok st.
Proof.
  induction l as [|c l IH]; intros k st H; [reflexivity|].
  cbn [length] in H. destruct k as [|k]; [lia|].
  cbn [scan scanStep]. apply IH. lia.
Qed.

Lemma groupsFit_skip_all fits l : forall k,
  length l <= k -> groupsFit fits k l = true.
Proof.
  induction l as [|c l IH]; intros k H; [reflexivity|].
  cbn [length] in H. destruct k as [|k]; [lia|].
  cbn [groupsFit]. apply IH. lia.
Qed.

Lemma firstn_wrapped (s : gostring) :
  firstn (S (length s) - 1) (s ++ [")"%char]) = s.
Proof.
  cbn [Nat.sub]. rewrite Nat.sub_0_r.
  now rewrite firstn_app, Nat.sub_diag, firstn_all, app_nil_r.
Qed.

(** A pair of parentheses around a closed text costs one level of the
    budget and nothing else. *)
Lemma safeParseFrom_wrap b s :
  closedText s -> safeParseFrom (S b) (wrap s) = safeParseFrom b s.
Proof.
  intros Hs. cbn [safeParseFrom]. unfold wrap at 1. cbn [scan scanStep].
  change (byteval "(" =? rLParen)%N with true. cbn iota.
  pose proof (matchingParenthesisPos_wrap s [] Hs) as Hm.
  rewrite app_nil_r in Hm. unfold wrap in Hm. rewrite Hm.
  rewrite firstn_wrapped.
  destruct (safeParseFrom b s) as [exp|e]; [|reflexivity].
  rewrite scan_skip_all by (rewrite length_app; cbn; lia).
  reflexivity.
Qed.

Lemma fitsBudget_wrap b s :
  closedText s -> fitsBudget (S b) (wrap s) = fitsBudget b s.
Proof.
  intros Hs. cbn [fitsBudget]. unfold wrap at 1. cbn [groupsFit].
  change (byteval "(" =? rLParen)%N with true. cbn iota.
  pose proof (matchingParenthesisPos_wrap s [] Hs) as Hm.
  rewrite app_nil_r in Hm. unfold wrap in Hm. rewrite Hm.
  rewrite firstn_wrapped.
  rewrite groupsFit_skip_all by (rewrite length_app; cbn; lia).
  apply andb_true_r.
Qed.

Lemma groupsFit_no_parenthesis fits x :
  count x "(" = 0 -> groupsFit fits 0 x = true.
Proof.
  induction x as [|c x IH]; intros Ho; [reflexivity|].
  unfold count in Ho. cbn [count_occ] in Ho.
  destruct (ascii_dec c "(") as [->|Hno]; [discriminate|].
  cbn [groupsFit].
  replace (byteval c =? rLParen)%N with false
    by (symmetry; apply N.eqb_neq; intros H; apply Hno; now apply byteval_inj).
  now apply IH.
Qed.

Lemma closedText_wrapN n y : closedText y -> closedText (wrapN n y).
Proof.
  intros Hy. induction n as [|n IH]; cbn [wrapN]; [exact Hy|now constructor 2].
Qed.

(** [n] pairs of parentheses around a text without parentheses nest
    exactly [n] deep. *)
Lemma nestedWithin_wrapN n x d :
  isASCII x = true -> count x "(" = 0 -> count x ")" = 0 ->
  nestedWithin d (wrapN n x) = (n <=? d).
Proof.
  intros Ha Ho Hc. unfold nestedWithin. revert d.
  induction n as [|n IH]; intros d; cbn [wrapN].
  - cbn [fitsBudget Nat.leb]. now apply groupsFit_no_parenthesis.
  - rewrite fitsBudget_wrap by (apply closedText_wrapN; now constructor).
    destruct d as [|d]; [reflexivity|]. apply IH.
Qed.

Lemma safeParseFrom_wrapN n y b :
  closedText y -> safeParseFrom (n + b) (wrapN n y) = safeParseFrom b y.
Proof.
  intros Hy. induction n as [|n IH]; cbn [wrapN Nat.add]; [reflexivity|].
  rewrite safeParseFrom_wrap by now apply closedText_wrapN. exact IH.
Qed.

Lemma wrapN_add a b x : wrapN (a + b) x = wrapN a (wrapN b x).
Proof. induction a as [|a IH]; cbn [wrapN Nat.add]; [reflexivity|now rewrite IH]. Qed.

Lemma count_wrap s c :
  count (wrap s) c =
  (if ascii_dec "(" c then 1 else 0) + count s c + (if ascii_dec ")" c then 1 else 0).
Proof.
  unfold wrap, count. cbn [count_occ]. rewrite count_occ_app. cbn [count_occ].
  destruct (ascii_dec "(" c), (ascii_dec ")" c); lia.
Qed.

Lemma count_wrapN n x :
  count (wrapN n x) "(" = n + count x "(" /\
  count (wrapN n x) ")" = n + count x ")".
Proof.
  induction n as [|n [IH1 IH2]]; cbn [wrapN]; [split; reflexivity|].
  rewrite !count_wrap, IH1, IH2.
  destruct (ascii_dec "(" "(") as [_|F]; [|congruence].
  destruct (ascii_dec ")" ")") as [_|F]; [|congruence].
  destruct (ascii_dec "(" ")") as [F|_]; [discriminate|].
  destruct (ascii_dec ")" "(") as [F|_]; [discriminate|].
  split; lia.
Qed.

Lemma cleanInput_wrap s : cleanInput (wrap s) = wrap s.
Proof.
  assert (Hfix : trimSpace (wrap s) = wrap s).
  { apply trimSpace_fixed; [reflexivity|].
    unfold wrap. cbn [rev]. rewrite rev_app_distr. reflexivity. }
  unfold cleanInput. rewrite Hfix.
  assert (Hl : trimLeft (wrap s) "{" = wrap s) by reflexivity.
  rewrite Hl.
  assert (Hr : trimRight (wrap s) "}" = wrap s).
  { unfold trimRight, wrap. cbn [rev]. rewrite rev_app_distr.
    cbn [rev app dropWhile]. cbn.
    rewrite rev_app_distr, rev_involutive. reflexivity. }
  now rewrite Hr.
Qed.

Lemma parse_wrapN n x :
  isASCII x = true -> count x "(" = 0 -> count x ")" = 0 ->
  1 <= n -> parse (wrapN n x) = safeParseFrom (S maxDepth) (wrapN n x).
Proof.
  intros Ha Ho Hc Hn. unfold parse.
  destruct (count_wrapN n x) as [H1 H2]. rewrite H1, H2, Ho, Hc, Nat.eqb_refl.
  cbn [negb]. destruct n as [|n]; [lia|]. cbn [wrapN].
  now rewrite cleanInput_wrap.
Qed.

(** ** Operands of a comparison *)

Lemma trimSuffix_app t op : trimSuffix (t ++ op) op = t.
Proof.
  unfold trimSuffix.
  rewrite (proj2 (hasSuffix_spec (t ++ op) op)) by (now exists t).
  rewrite length_app, Nat.add_sub.
  now rewrite firstn_app, Nat.sub_diag, firstn_all, app_nil_r.
Qed.

Lemma noOperator_prefix x p q :
  noOperator x -> x = p ++ q -> hasSuffixComparisonOp p = None.
Proof.
  intros [Heq Hne] ->. unfold hasSuffixComparisonOp.
  destruct (find (hasSuffix p) listComparisonOperator) as [op|] eqn:F; [|reflexivity].
  apply find_some in F as [Hin Hs]. apply hasSuffix_spec in Hs as (t & ->).
  exfalso. destruct Hin as [<-|[<-|[<-|[]]]].
  - apply (contains_false _ _ Hne t q). now rewrite <- app_assoc.
  - apply (contains_false _ _ Heq (t ++ str "!") q). now rewrite <- !app_assoc.
  - apply (contains_false _ _ Heq t q). now rewrite <- app_assoc.
Qed.

(** With a non-empty buffer and no operator in sight, the loop of
    [parseSimpleStatement] only fills its buffer. *)
Lemma leafLoop_fill x : forall pre st,
  lbuf st = pre -> pre <> [] -> isASCII x = true -> noOperator (pre ++ x) ->
  leafLoop (map byteval x) st =
  Ok {| lbuf := pre ++ x; lleft := lleft st; loperator := loperator st;
        foundOp := foundOp st |}.
Proof.
  induction x as [|c x IH]; intros pre st Hb Hne Ha Hno.
  - cbn. rewrite app_nil_r, <- Hb. now destruct st.
  - cbn [isASCII forallb] in Ha. apply andb_prop in Ha as [Hc Hx].
    cbn [map leafLoop]. unfold leafStep. rewrite Hb.
    destruct pre as [|p0 pre']; [congruence|]. cbn [length Nat.eqb andb].
    rewrite (encodeRune_ascii _ Hc).
    rewrite (noOperator_prefix _ ((p0 :: pre') ++ [c]) x Hno)
      by (now rewrite <- app_assoc).
    rewrite (IH ((p0 :: pre') ++ [c]));
      cbn [lbuf lleft loperator foundOp]; try reflexivity.
    + now rewrite <- app_assoc.
    + discriminate.
    + exact Hx.
    + now rewrite <- app_assoc.
Qed.

(** An operand that does not start with a space or a parenthesis, read
    with an empty buffer, ends up in the buffer as it is. *)
Lemma leafLoop_operand c x st :
  lbuf st = [] -> c <> " "%char -> c <> "("%char ->
  isASCII (c :: x) = true -> noOperator (c :: x) ->
  leafLoop (map byteval (c :: x)) st =
  Ok {| lbuf := c :: x; lleft := lleft st; loperator := loperator st;
        foundOp := foundOp st |}.
Proof.
  intros Hb Hsp Hpar Ha Hno.
  cbn [isASCII forallb] in Ha. apply andb_prop in Ha as [Hc Hx].
  cbn [map leafLoop]. unfold leafStep. rewrite Hb. cbn [length Nat.eqb andb app].
  assert (Hs : (byteval c =? rSpace)%N = false).
  { apply N.eqb_neq. intros H. apply Hsp. now apply byteval_inj. }
  assert (Hp : (byteval c =? rLParen)%N = false).
  { apply N.eqb_neq. intros H. apply Hpar. now apply byteval_inj. }
  rewrite Hs, Hp. cbn [orb]. rewrite (encodeRune_ascii _ Hc).
  rewrite (noOperator_prefix _ [c] x Hno) by reflexivity.
  rewrite (leafLoop_fill x [c]); cbn [lbuf lleft loperator foundOp];
    try reflexivity; try assumption. discriminate.
Qed.

Lemma whiteSpace_space : whiteSpace (str " ").
Proof.
  apply (concat_cons spaceEncodings (str " ") []); [|constructor].
  vm_compute. tauto.
Qed.

(** ** A second comparison operator *)

Lemma rangeFrom_shift s : forall i j k,
  map snd (rangeFrom i k s) = map snd (rangeFrom j k s).
Proof.
  induction s as [|c tl IH]; intros i j k; [reflexivity|].
  cbn [rangeFrom]. destruct k as [|k]; [|apply IH].
  destruct (decodeRune (c :: tl)) as [r w]. cbn [map snd]. f_equal. apply IH.
Qed.

(** The runes of a string that starts with ASCII characters. *)
Lemma runes_app_ascii x rest :
  isASCII x = true -> runes (x ++ rest) = map byteval x ++ runes rest.
Proof.
  unfold runes, rangeString. generalize 0 at 1.
  induction x as [|c x IH]; intros i Ha; cbn [app map].
  - apply rangeFrom_shift.
  - cbn [isASCII forallb] in Ha. apply andb_prop in Ha as [Hc Hx].
    rewrite (rangeFrom_ascii_cons _ _ _ Hc). cbn [map snd]. f_equal.
    now apply IH.
Qed.

Lemma hasSuffixComparisonOp_equals t :
  exists op, hasSuffixComparisonOp (t ++ str "=") = Some op.
Proof.
  unfold hasSuffixComparisonOp.
  destruct (find (hasSuffix (t ++ str "=")) listComparisonOperator) as [op|] eqn:F.
  - now exists op.
  - exfalso. pose proof (find_none _ _ F coEqual) as H.
    rewrite (proj2 (hasSuffix_spec _ _)) in H by (now exists t).
    discriminate H. right. right. now left.
Qed.

(** A left operand without operator followed by [==]. *)
Lemma parseSimpleStatement_doubled_equals c L R :
  c <> " "%char -> c <> "("%char ->
  isASCII (c :: L) = true -> noOperator (c :: L) ->
  parseSimpleStatement ((c :: L) ++ str "==" ++ R) = Err errMultipleOperators.
Proof.
  intros Hsp Hpar Ha Hno.
  destruct (hasSuffixComparisonOp_equals (c :: L)) as (op & Hop).
  apply (parseSimpleStatement_second_operator _
           (map byteval (c :: L) ++ [61%N]) 61%N (runes R)
           {| lbuf := []; lleft := trimSpace (trimSuffix ((c :: L) ++ str "=") op);
              loperator := op; foundOp := true |}).
  - rewrite runes_app_ascii by exact Ha.
    change (str "==" ++ R) with (str "=" ++ (str "=" ++ R)).
    rewrite (runes_app_ascii (str "=")) by reflexivity.
    rewrite (runes_app_ascii (str "=")) by reflexivity.
    now rewrite <- app_assoc.
  - rewrite leafLoop_app.
    rewrite (leafLoop_operand c L leafInit eq_refl Hsp Hpar Ha Hno).
    cbn [leafLoop]. unfold leafStep. cbn [lbuf length Nat.eqb andb].
    change (encodeRune 61%N) with (str "="). rewrite Hop. reflexivity.
  - reflexivity.
  - reflexivity.
Qed.

(** C9: once the loop of [parseSimpleStatement] has recorded an operator,
    an iteration that finds an operator at the end of the buffer again
    makes it fail with the multiple-operators error, as on every
    fragment [L==R] whose left operand holds no operator; so does
    [parse("{   $.eventName == a }")], whose second [=] is such an
    iteration. *)
Theorem second_operator_rejected :
  (forall (s : gostring) rs1 r rs2 st,
      runes s = rs1 ++ r :: rs2 ->
      leafLoop rs1 leafInit = Ok st ->
      foundOp st = true ->
      operatorMatched r st = true ->
      parseSimpleStatement s = Err errMultipleOperators) /\
  (forall (c : ascii) (L R : gostring),
      c <> " "%char -> c <> "("%char ->
      isASCII (c :: L) = true -> noOperator (c :: L) ->
      parseSimpleStatement ((c :: L) ++ str "==" ++ R)
      = Err errMultipleOperators) /\
  (exists st,
      runes "$.eventName == a" = runes "$.eventName =" ++ 61%N :: runes " a" /\
      leafLoop (runes "$.eventName =") leafInit = Ok st /\
      foundOp st = true /\ operatorMatched 61%N st = true) /\
  listComparisonOperator = [coNotExists; coNotEqual; coEqual] /\
  hasSuffixComparisonOp "a !=" = Some coNotEqual /\
  cleanInput "{   $.eventName == a }" = "$.eventName == a" /\
  parse "{   $.eventName == a }" = Err errMultipleOperators.
Proof.
  split; [exact parseSimpleStatement_second_operator|].
  split; [exact parseSimpleStatement_doubled_equals|].
  split; [|split; [reflexivity|split; [reflexivity|split]]].
  - eexists. split; [reflexivity|]. split; [vm_compute; reflexivity|].
    split; reflexivity.
  - vm_compute. reflexivity.
  - vm_compute. reflexivity.
Qed.


(** ** The depth limit, stated *)

(** C7: an input that parses under some larger limit, and whose nesting
    depth (in parenthesis-induced recursive descents) exceeds [maxDepth],
    fails with the max-depth error, in particular when it is nested three
    or more levels beyond [maxDepth]; an input nested within [maxDepth]
    never receives that error.  A text without parentheses between [n]
    pairs of parentheses is nested [n] deep: with more than [maxDepth]
    pairs [parse] fails with the max-depth error, with fewer it parses
    the text with the levels that are left. *)
Theorem depth_limit :
  maxDepth = 5 /\
  (forall (s : gostring) limit t,
      parseWithin limit s = Ok t ->
      nestedWithin maxDepth (cleanInput s) = false ->
      parse s = Err errMaxDepth) /\
  (forall (s : gostring) limit t,
      parseWithin limit s = Ok t ->
      nestedWithin (maxDepth + 2) (cleanInput s) = false ->
      parse s = Err errMaxDepth) /\
  (forall s : gostring,
      nestedWithin maxDepth (cleanInput s) = true ->
      parse s <> Err errMaxDepth) /\
  (forall (n : nat) (x : gostring),
      isASCII x = true -> count x "(" = 0 -> count x ")" = 0 ->
      nestedWithin maxDepth (wrapN n x) = (n <=? maxDepth) /\
      (maxDepth < n -> parse (wrapN n x) = Err errMaxDepth) /\
      (1 <= n <= maxDepth ->
       parse (wrapN n x) = safeParseFrom (S maxDepth - n) x)) /\
  nestedWithin maxDepth "((((((a=b))))))" = false /\
  parseWithin 6 "((((((a=b))))))" = Ok (se "a" coEqual "b") /\
  parse "((((((a=b))))))" = Err errMaxDepth /\
  nestedWithin maxDepth "(((((a=b)))))" = true /\
  parse "(((((a=b)))))" = Ok (se "a" coEqual "b").
Proof.
  assert (Hover : forall (s : gostring) limit t,
             parseWithin limit s = Ok t ->
             nestedWithin maxDepth (cleanInput s) = false ->
             parse s = Err errMaxDepth).
  { intros s limit t Hp Hn. unfold parse, parseWithin in *.
    destruct (negb (count s "(" =? count s ")")); [discriminate|].
    eapply safeParseFrom_overflow; eassumption. }
  split; [reflexivity|]. split; [exact Hover|]. split; [|split].
  - intros s limit t Hp Hn. apply (Hover s limit t Hp).
    destruct (nestedWithin maxDepth (cleanInput s)) eqn:E; [|reflexivity].
    rewrite <- Hn. symmetry. unfold nestedWithin in *.
    eapply fitsBudget_le; [|exact E]. lia.
  - intros s Hn. unfold parse.
    destruct (negb (count s "(" =? count s ")")); [discriminate|].
    now apply safeParseFrom_no_overflow.
  - split; [|repeat split; vm_compute; reflexivity].
    intros n x Ha Ho Hc. split; [now apply nestedWithin_wrapN|].
    assert (Hx : closedText x) by now constructor.
    split; intros Hn.
    + rewrite parse_wrapN by (try assumption; lia).
      replace n with (S maxDepth + (n - S maxDepth)) by lia.
      rewrite wrapN_add.
      replace (S maxDepth) with (S maxDepth + 0) at 1 by lia.
      now rewrite safeParseFrom_wrapN by now apply closedText_wrapN.
    + rewrite parse_wrapN by (try assumption; lia).
      replace (S maxDepth) with (n + (S maxDepth - n)) at 1 by lia.
      now apply safeParseFrom_wrapN.
Qed.

(** ** Iterations of the loop of [safeParse] *)

Lemma scanPrefix_skip sub l : forall k m R st,
  length l = k -> scanPrefix sub (k + m) k (l ++ R) st = scanPrefix sub m 0 R st.
Proof.
  induction l as [|c l IH]; intros k m R st H; cbn [length] in H; subst k.
  - reflexivity.
  - cbn [Nat.add app scanPrefix scanStep]. now apply IH.
Qed.

Lemma scanPrefix_byte sub c R st m :
  (byteval c =? rLParen)%N = false ->
  scanPrefix sub (S m) 0 (c :: R) st =
  match scanByte c st with
  | Err e => Err e
  | Ok st' => scanPrefix sub m 0 R st'
  end.
Proof.
  intros Hc. cbn [scanPrefix scanStep]. rewrite Hc.
  now destruct (scanByte c st).
Qed.

(** ** White space around an input, spaces before a fragment *)

Lemma cleanInput_surrounded w1 s w2 :
  whiteSpace w1 -> whiteSpace w2 -> cleanInput (w1 ++ s ++ w2) = cleanInput s.
Proof.
  intros H1 H2. unfold cleanInput. now rewrite trimSpace_surrounded.
Qed.

Lemma count_surrounded w1 s w2 c :
  c = "("%char \/ c = ")"%char ->
  whiteSpace w1 -> whiteSpace w2 -> count (w1 ++ s ++ w2) c = count s c.
Proof.
  intros Hc H1 H2. rewrite !count_app.
  assert (Hw : forall w, whiteSpace w -> count w c = 0).
  { intros w. apply whiteSpace_count. destruct Hc as [-> | ->]; reflexivity. }
  rewrite (Hw _ H1), (Hw _ H2). lia.
Qed.

Lemma leafStep_left_trimmed r st st' :
  trimSpace (lleft st) = lleft st -> leafStep r st = Ok st' ->
  trimSpace (lleft st') = lleft st'.
Proof.
  intros Hinv. unfold leafStep.
  destruct (_ && _); [now intros [= <-]|].
  destruct (hasSuffixComparisonOp _).
  - destruct (foundOp st); [discriminate|]. intros [= <-]. cbn [lleft].
    apply trimSpace_idempotent.
  - now intros [= <-].
Qed.

Lemma leafLoop_left_trimmed rs : forall st st',
  trimSpace (lleft st) = lleft st -> leafLoop rs st = Ok st' ->
  trimSpace (lleft st') = lleft st'.
Proof.
  induction rs as [|r rs IH]; intros st st' Hinv H; cbn [leafLoop] in H.
  - now injection H as <-.
  - destruct (leafStep r st) as [st1|] eqn:E; [|discriminate].
    eapply IH; [|exact H]. eapply leafStep_left_trimmed; eassumption.
Qed.

(** * Further properties of the code *)

(** ** The equivalence checker *)

Lemma isEquivalent_refl_true a : isEquivalent a a = true.
Proof. apply isEquivalent_equiv, equiv_refl. Qed.

Lemma isEquivalent_sym_true a b :
  isEquivalent a b = true -> isEquivalent b a = true.
Proof. rewrite !isEquivalent_equiv. apply equiv_sym. Qed.

Lemma isEquivalent_trans_true a b c :
  isEquivalent a b = true -> isEquivalent b c = true -> isEquivalent a c = true.
Proof. rewrite !isEquivalent_equiv. apply equiv_trans. Qed.

Lemma isEquivalent_sym_eq a b : isEquivalent a b = isEquivalent b a.
Proof.
  destruct (isEquivalent a b) eqn:E1, (isEquivalent b a) eqn:E2; try reflexivity.
  - apply isEquivalent_sym_true in E1. congruence.
  - apply isEquivalent_sym_true in E2. congruence.
Qed.

(** Equivalent expressions are equivalent to the same expressions. *)
Lemma isEquivalent_same_class x y z :
  isEquivalent x y = true -> isEquivalent z x = isEquivalent z y.
Proof.
  intros Hxy.
  destruct (isEquivalent z x) eqn:E1, (isEquivalent z y) eqn:E2; try reflexivity.
  - rewrite (isEquivalent_trans_true z x y E1 Hxy) in E2. discriminate.
  - apply isEquivalent_sym_true in Hxy.
    rewrite (isEquivalent_trans_true z y x E2 Hxy) in E1. discriminate.
Qed.

(** X1: every expression is equivalent to itself, and [isEquivalent]
    gives the same answer whichever side is the receiver. *)
Theorem isEquivalent_reflexive_symmetric :
  (forall a, isEquivalent a a = true) /\
  (forall a b, isEquivalent a b = isEquivalent b a).
Proof. split; [exact isEquivalent_refl_true|exact isEquivalent_sym_eq]. Qed.

(** X2: [isEquivalent] is transitive. *)
Theorem isEquivalent_transitive a b c :
  isEquivalent a b = true -> isEquivalent b c = true -> isEquivalent a c = true.
Proof. apply isEquivalent_trans_true. Qed.

Lemma isEquivalent_transitive_witness :
  isEquivalent (ce loOr [se "a" coEqual "b"; se "c" coNotEqual "d"])
               (ce loOr [se "b" coEqual "a"; se "c" coNotEqual "d"]) = true.
Proof.
  apply (isEquivalent_transitive _
           (ce loOr [se "d" coNotEqual "c"; se "a" coEqual "b"])); reflexivity.
Defined.

Lemma findEquivalentPos_least f l : forall idx,
  findEquivalentPos f l = Some idx ->
  forall j e, j < idx -> nth_error l j = Some e -> f e = false.
Proof.
  induction l as [|x l IH]; intros idx H j e Hj Hn; cbn in H; [discriminate|].
  destruct (f x) eqn:Hfx.
  - injection H as <-. lia.
  - destruct (findEquivalentPos f l) as [i|] eqn:E; [|discriminate].
    injection H as <-. destruct j as [|j]; cbn in Hn.
    + now injection Hn as <-.
    + apply (IH i eq_refl j e); [lia|exact Hn].
Qed.

(** X3: [findEquivalentPos] returns the least index of the pool whose
    element the expression is equivalent to, and reports failure only
    when the pool holds no such element. *)
Theorem findEquivalentPos_first (exp : expression) (others : list expression) :
  match findEquivalentPos (isEquivalent exp) others with
  | Some idx =>
      (exists e, nth_error others idx = Some e /\ isEquivalent exp e = true) /\
      (forall j e, j < idx -> nth_error others j = Some e ->
                   isEquivalent exp e = false)
  | None => forall e, In e others -> isEquivalent exp e = false
  end.
Proof.
  destruct (findEquivalentPos (isEquivalent exp) others) as [idx|] eqn:E.
  - split.
    + apply (findEquivalentPos_Some _ _ _ E).
    + apply (findEquivalentPos_least _ _ _ E).
  - apply (findEquivalentPos_None _ _ E).
Qed.

Lemma countEquivalent_perm z l l' :
  Permutation l l' -> countEquivalent z l = countEquivalent z l'.
Proof.
  intros H. unfold countEquivalent. apply Permutation_length.
  induction H; cbn.
  - constructor.
  - destruct (isEquivalent z x); [now constructor|assumption].
  - destruct (isEquivalent z x), (isEquivalent z y);
      try reflexivity; apply perm_swap.
  - etransitivity; eassumption.
Qed.

Lemma countEquivalent_Forall2 z es l :
  Forall2 (fun x y => isEquivalent x y = true) es l ->
  countEquivalent z es = countEquivalent z l.
Proof.
  unfold countEquivalent. induction 1 as [|x y es l Hxy _ IH]; [reflexivity|].
  cbn [filter]. rewrite (isEquivalent_same_class x y z Hxy).
  destruct (isEquivalent z y); cbn [length]; congruence.
Qed.

Lemma countEquivalent_app z a b :
  countEquivalent z (a ++ b) = countEquivalent z a + countEquivalent z b.
Proof. unfold countEquivalent. now rewrite filter_app, length_app. Qed.

Lemma countEquivalent_cons z x l :
  countEquivalent z (x :: l) =
  (if isEquivalent z x then 1 else 0) + countEquivalent z l.
Proof. unfold countEquivalent. cbn [filter]. now destruct (isEquivalent z x). Qed.

Lemma countEquivalent_positive z l :
  0 < countEquivalent z l -> exists a y b, l = a ++ y :: b /\ isEquivalent z y = true.
Proof.
  induction l as [|x l IH]; [cbn; lia|].
  rewrite countEquivalent_cons. destruct (isEquivalent z x) eqn:E.
  - intros _. now exists [], x, l.
  - intros H. destruct (IH H) as (a & y & b & -> & Hy).
    now exists (x :: a), y, b.
Qed.

Lemma pairing_of_counts es : forall es',
  length es = length es' ->
  (forall z, countEquivalent z es = countEquivalent z es') ->
  pairing (fun x y => isEquivalent x y = true) es es'.
Proof.
  induction es as [|x r IH]; intros es' Hlen Hcount.
  - destruct es'; [|discriminate]. exists []. split; constructor.
  - assert (Hpos : 0 < countEquivalent x es').
    { rewrite <- Hcount, countEquivalent_cons, isEquivalent_refl_true. lia. }
    destruct (countEquivalent_positive _ _ Hpos) as (a & y & b & -> & Hxy).
    destruct (IH (a ++ b)) as (l' & Hp & Hf).
    + rewrite length_app in *. cbn [length] in *. lia.
    + intros z. specialize (Hcount z).
      rewrite countEquivalent_cons, !countEquivalent_app, countEquivalent_cons in *.
      rewrite (isEquivalent_same_class x y z Hxy) in Hcount. lia.
    + exists (y :: l'). split; [|now constructor].
      rewrite <- Hp. symmetry. apply Permutation_middle.
Qed.

(** X4: two groups are equivalent exactly when their operators are
    equal, they have as many children, and every expression is
    equivalent to as many children of the one as of the other: a child of
    one side is never matched with two children of the other. *)
Theorem complex_isEquivalent_counts (op op' : logicalOperator)
    (es es' : list expression) :
  isEquivalent (Complex op es) (Complex op' es') = true <->
  op = op' /\ length es = length es' /\
  forall z, countEquivalent z es = countEquivalent z es'.
Proof.
  split.
  - intros H. apply isEquivalent_equiv in H. inversion H; subst.
    apply Forall2_isEquivalent_equiv in H5.
    repeat split.
    + erewrite Forall2_length by eassumption.
      symmetry. now apply Permutation_length.
    + intros z. rewrite (countEquivalent_Forall2 z _ _ H5).
      symmetry. now apply countEquivalent_perm.
  - intros (-> & Hlen & Hcount).
    destruct (pairing_of_counts es es' Hlen Hcount) as (l' & Hp & Hf).
    apply isEquivalent_equiv. apply equiv_complex with (l' := l'); [exact Hp|].
    now apply Forall2_isEquivalent_equiv.
Qed.

(** ** The entry point *)

(** X5: the verdict of [areCloudWatchExpressionsEquivalent] does not
    depend on the order of its two arguments. *)
Theorem areCloudWatchExpressionsEquivalent_symmetric (a b : gostring) :
  fst (areCloudWatchExpressionsEquivalent a b) =
  fst (areCloudWatchExpressionsEquivalent b a).
Proof.
  unfold areCloudWatchExpressionsEquivalent.
  destruct (parse a), (parse b); cbn; try reflexivity.
  apply isEquivalent_sym_eq.
Qed.

(** X6: compared with itself, an input is equivalent when it parses,
    and gives the error of [parse] when it does not. *)
Theorem areCloudWatchExpressionsEquivalent_reflexive (a : gostring) :
  areCloudWatchExpressionsEquivalent a a =
  match parse a with
  | Ok _ => (true, None)
  | Err e => (false, Some e)
  end.
Proof.
  unfold areCloudWatchExpressionsEquivalent.
  destruct (parse a); [|reflexivity].
  now rewrite isEquivalent_refl_true.
Qed.

(** X7: a positive answer without error is transitive. *)
Theorem areCloudWatchExpressionsEquivalent_transitive (a b c : gostring) :
  areCloudWatchExpressionsEquivalent a b = (true, None) ->
  areCloudWatchExpressionsEquivalent b c = (true, None) ->
  areCloudWatchExpressionsEquivalent a c = (true, None).
Proof.
  unfold areCloudWatchExpressionsEquivalent.
  destruct (parse a) as [ea|], (parse b) as [eb|], (parse c) as [ec|];
    try discriminate.
  intros H1 H2. injection H1 as H1. injection H2 as H2.
  now rewrite (isEquivalent_trans_true ea eb ec H1 H2).
Qed.

Lemma areCloudWatchExpressionsEquivalent_transitive_witness :
  areCloudWatchExpressionsEquivalent "a = b && c != d" "(d != c) && (a = b)"
  = (true, None).
Proof.
  apply (areCloudWatchExpressionsEquivalent_transitive _ "{ c != d && b = a }");
    vm_compute; reflexivity.
Defined.

(** ** The errors and the results of the depth-5 parser *)

Lemma parseSimpleStatement_parseErrors s e :
  parseSimpleStatement s = Err e -> In e parseErrors.
Proof.
  intros H. apply parseSimpleStatement_errors in H as [-> | ->]; cbn; tauto.
Qed.

Lemma scanByte_parseErrors c st e : scanByte c st = Err e -> In e parseErrors.
Proof.
  unfold scanByte. destruct (hasSuffixLogicalOp _); [|discriminate].
  destruct (negb _); [intros [= <-]; cbn; tauto|].
  destruct (0 <? _); [|discriminate].
  destruct (parseSimpleStatement _) eqn:E; [discriminate|].
  intros [= <-]. now apply parseSimpleStatement_parseErrors in E.
Qed.

Lemma finish_parseErrors st e : finish st = Err e -> In e parseErrors.
Proof.
  unfold finish. destruct (0 <? _).
  - destruct (parseSimpleStatement _) eqn:E.
    + destruct (expressions st ++ [a]) as [|x [|y l]]; discriminate.
    + intros [= <-]. now apply parseSimpleStatement_parseErrors in E.
  - destruct (expressions st) as [|x [|y l]]; discriminate.
Qed.

Lemma scan_parseErrors sub :
  (forall x e, sub x = Err e -> In e parseErrors) ->
  forall rest skip st e, scan sub skip rest st = Err e -> In e parseErrors.
Proof.
  intros Hsub. induction rest as [|c tl IH]; intros skip st e H;
    cbn [scan] in H; [discriminate|].
  destruct (scanStep sub skip c tl st) as [[k st']|e'] eqn:E;
    [now apply IH in H|].
  injection H as <-. unfold scanStep in E.
  destruct skip; [|discriminate].
  destruct (byteval c =? rLParen)%N.
  - destruct (matchingParenthesisPos _); [|injection E as <-; cbn; tauto].
    destruct (sub _) eqn:Es; [discriminate|].
    injection E as <-. now apply Hsub in Es.
  - destruct (scanByte c st) eqn:Eb; [discriminate|].
    injection E as <-. now apply scanByte_parseErrors in Eb.
Qed.

Lemma safeParseFrom_parseErrors b : forall s e,
  safeParseFrom b s = Err e -> In e parseErrors.
Proof.
  induction b as [|b IH]; intros s e H; cbn [safeParseFrom] in H.
  - injection H as <-. cbn. tauto.
  - destruct (scan (safeParseFrom b) 0 s scanInit) as [st|e'] eqn:E.
    + now apply finish_parseErrors in H.
    + injection H as <-. now apply (scan_parseErrors _ IH) in E.
Qed.

(** X8: the errors of the depth-5 [parse] are the five messages the
    package creates, and each of the five is returned for some input. *)
Theorem parse_error_messages :
  (forall s e, parse s = Err e -> In e parseErrors) /\
  (forall e, In e parseErrors -> exists s : gostring, parse s = Err e).
Proof.
  split.
  - intros s e. unfold parse.
    destruct (negb _); [intros [= <-]; cbn; tauto|].
    apply safeParseFrom_parseErrors.
  - intros e He. cbn in He.
    destruct He as [<-|[<-|[<-|[<-|[<-|[]]]]]].
    + now exists (str "(a = b").
    + now exists (str "((((((a = b))))))").
    + now exists (str "a = b && c = d || e = f").
    + now exists (str "a = b = c").
    + now exists (str "a").
Qed.

(** *** The shape of the trees *)

Lemma streq_self a : streq a a = true.
Proof. now apply streq_true. Qed.

Lemma existsb_streq_In x l : In x l -> existsb (streq x) l = true.
Proof.
  intros H. apply existsb_exists. exists x. split; [exact H|apply streq_self].
Qed.

Lemma hasSuffixComparisonOp_In t op :
  hasSuffixComparisonOp t = Some op -> In op listComparisonOperator.
Proof. intros H. now apply find_some in H. Qed.

Lemma hasSuffixLogicalOp_In t op :
  hasSuffixLogicalOp t = Some op -> In op listLogicalOperators.
Proof. intros H. now apply find_some in H. Qed.

Lemma leafLoop_operator rs : forall st st',
  (foundOp st = true -> In (loperator st) listComparisonOperator) ->
  leafLoop rs st = Ok st' ->
  foundOp st' = true -> In (loperator st') listComparisonOperator.
Proof.
  induction rs as [|r rs IH]; intros st st' Hst H; cbn [leafLoop] in H.
  - now injection H as <-.
  - destruct (leafStep r st) as [st1|] eqn:E; [|discriminate].
    apply (IH st1 st'); [|exact H].
    unfold leafStep in E. destruct (_ && _); [now injection E as <-|].
    destruct (hasSuffixComparisonOp _) as [op|] eqn:Eop.
    + destruct (foundOp st); [discriminate|]. injection E as <-. cbn.
      intros _. now apply hasSuffixComparisonOp_In in Eop.
    + injection E as <-. exact Hst.
Qed.

Lemma parseSimpleStatement_shape s e :
  parseSimpleStatement s = Ok e -> parsedShape e = true.
Proof.
  unfold parseSimpleStatement.
  destruct (leafLoop (runes s) leafInit) as [st|] eqn:E; [|discriminate].
  destruct (foundOp st) eqn:Ef; cbn [negb]; [|discriminate].
  intros [= <-]. cbn [parsedShape left right operator].
  rewrite existsb_streq_In.
  - unfold trimmed.
    rewrite (leafLoop_left_trimmed (runes s) leafInit st eq_refl E),
      trimSpace_idempotent.
    now rewrite !streq_self.
  - apply (leafLoop_operator (runes s) leafInit st); [discriminate|exact E|exact Ef].
Qed.

Lemma scanByte_shape c st st' :
  scanShape st -> scanByte c st = Ok st' -> scanShape st'.
Proof.
  intros [Hop Hes]. unfold scanByte.
  destruct (hasSuffixLogicalOp _) as [op|] eqn:Eop.
  - apply hasSuffixLogicalOp_In in Eop.
    assert (Hop' : In (if streq (logicalOp st) [] then op else logicalOp st)
                      listLogicalOperators).
    { destruct (streq (logicalOp st) []) eqn:Es; [exact Eop|].
      destruct Hop as [Hop|Hop]; [|exact Hop].
      rewrite Hop in Es. now rewrite streq_self in Es. }
    destruct (negb _); [discriminate|].
    destruct (0 <? _).
    + destruct (parseSimpleStatement _) as [exp|] eqn:Ep; [|discriminate].
      intros [= <-]. split; cbn; [now right|].
      rewrite forallb_app, Hes. cbn.
      now rewrite (parseSimpleStatement_shape _ _ Ep).
    + intros [= <-]. split; cbn; [now right|exact Hes].
  - intros [= <-]. split; [exact Hop|exact Hes].
Qed.

Lemma scan_shape sub :
  (forall x e, sub x = Ok e -> parsedShape e = true) ->
  forall rest skip st st',
    scanShape st -> scan sub skip rest st = Ok st' -> scanShape st'.
Proof.
  intros Hsub. induction rest as [|c tl IH]; intros skip st st' Hst H;
    cbn [scan] in H; [now injection H as <-|].
  destruct (scanStep sub skip c tl st) as [[k st1]|] eqn:E; [|discriminate].
  apply (IH k st1 st'); [|exact H].
  unfold scanStep in E. destruct skip; [|now injection E as _ <-].
  destruct (byteval c =? rLParen)%N.
  - destruct (matchingParenthesisPos _); [|discriminate].
    destruct (sub _) as [exp|] eqn:Es; [|discriminate].
    injection E as _ <-. destruct Hst as [Hop Hes]. split; cbn; [exact Hop|].
    rewrite forallb_app, Hes. cbn. now rewrite (Hsub _ _ Es).
  - destruct (scanByte c st) as [st2|] eqn:Eb; [|discriminate].
    injection E as _ <-. now apply (scanByte_shape c st).
Qed.

Lemma finish_shape st e :
  scanShape st -> finish st = Ok e -> parsedShape e = true.
Proof.
  intros [Hop Hes]. unfold finish.
  assert (Hgroup : forall l, forallb parsedShape l = true ->
            match l with
            | [exp] => Ok exp
            | _ => Ok (Complex (logicalOp st) l)
            end = Ok e -> parsedShape e = true).
  { intros l Hl Hr.
    assert (Hs : streq (logicalOp st) []
                 || existsb (streq (logicalOp st)) listLogicalOperators = true).
    { destruct Hop as [-> | Hop]; [reflexivity|].
      rewrite (existsb_streq_In _ _ Hop). apply orb_true_r. }
    destruct l as [|x [|y l]]; injection Hr as <-.
    - cbn [parsedShape length Nat.eqb negb forallb]. now rewrite Hs.
    - cbn [forallb] in Hl. now rewrite andb_true_r in Hl.
    - cbn [parsedShape]. rewrite Hs, Hl. reflexivity. }
  destruct (0 <? _).
  - destruct (parseSimpleStatement _) as [exp|] eqn:Ep; [|discriminate].
    apply Hgroup. rewrite forallb_app, Hes. cbn.
    now rewrite (parseSimpleStatement_shape _ _ Ep).
  - now apply Hgroup.
Qed.

Lemma safeParseFrom_shape b : forall s e,
  safeParseFrom b s = Ok e -> parsedShape e = true.
Proof.
  induction b as [|b IH]; intros s e H; cbn [safeParseFrom] in H; [discriminate|].
  destruct (scan (safeParseFrom b) 0 s scanInit) as [st|] eqn:E; [|discriminate].
  apply (finish_shape st); [|exact H].
  apply (scan_shape _ IH s 0 scanInit st); [|exact E].
  split; [now left|reflexivity].
Qed.

(** X9: every tree the depth-5 [parse] returns has the shape
    [parsedShape]: comparisons carry [=], [!=] or [NOT EXISTS] and
    operands free of outer white space, groups carry [&&], [||] or the
    empty operator and never exactly one child. *)
Theorem parse_result_shape (s : gostring) (e : expression) :
  parse s = Ok e -> parsedShape e = true.
Proof.
  unfold parse. destruct (negb _); [discriminate|].
  apply safeParseFrom_shape.
Qed.

Lemma parse_result_shape_witness :
  parsedShape (ce loOr [se "a" coEqual "b";
                        ce loAnd [se "c" coNotEqual "d"; se "e" coNotExists ""]])
  = true.
Proof.
  apply (parse_result_shape "{ a = b || (c != d && e NOT EXISTS) }").
  vm_compute. reflexivity.
Defined.

(** ** Runes and bytes *)

Lemma N_le_lor_l (a b : N) : (a <= N.lor a b)%N.
Proof.
  apply N.ldiff_le. apply N.bits_inj. intros n.
  rewrite N.ldiff_spec, N.lor_spec, N.bits_0. now destruct (N.testbit a n).
Qed.

Lemma N_le_lor_r (a b : N) : (b <= N.lor a b)%N.
Proof. rewrite N.lor_comm. apply N_le_lor_l. Qed.

Lemma N_land_low (a : N) (k : N) :
  N.land a (N.ones k) = (a mod 2 ^ k)%N.
Proof. apply N.land_ones. Qed.

Ltac euclid a m :=
  pose proof (N.div_mod a m ltac:(discriminate));
  pose proof (N.mod_lt a m ltac:(discriminate));
  generalize dependent (N.modulo a m); generalize dependent (N.div a m); intros.

(** The payload of a leading byte and of a continuation byte, shifted
    to its place, by the range of the byte. *)
Lemma payload_lead (s0 mask lo k : N) (m sh : N) :
  mask = N.ones k -> m = (2 ^ k)%N ->
  (lo <= s0 mod m)%N ->
  (lo * 2 ^ sh <= N.shiftl (N.land s0 mask) sh)%N.
Proof.
  intros -> -> H. rewrite N.land_ones, N.shiftl_mul_pow2.
  now apply N.mul_le_mono_r.
Qed.

Lemma leadInfo_cases b sz lo hi :
  leadInfo b = Some (sz, (lo, hi)) ->
  (128 <= lo /\ hi <= 191)%N /\
  ((sz = 2 /\ (194 <= b <= 223)%N) \/
   (sz = 3 /\ (224 <= b <= 239)%N /\ (b = 224%N -> (160 <= lo)%N)) \/
   (sz = 4 /\ (240 <= b <= 244)%N /\ (b = 240%N -> (144 <= lo)%N))).
Proof.
  unfold leadInfo.
  repeat match goal with
         | |- context [if (?x <? ?y)%N then _ else _] =>
             destruct (N.ltb_spec x y)
         | |- context [if (?x <=? ?y)%N then _ else _] =>
             destruct (N.leb_spec x y)
         | |- context [if (?x =? ?y)%N then _ else _] =>
             destruct (N.eqb_spec x y)
         end; intros [= <- <- <-] || discriminate; split; try lia.
  all: first [left; split; [reflexivity|lia]
             |right; left; split; [reflexivity|split; [lia|intros; lia]]
             |right; right; split; [reflexivity|split; [lia|intros; lia]]].
Qed.

Ltac payload mask k m p :=
  change mask with (N.ones k); rewrite N.land_ones, N.shiftl_mul_pow2;
  change (2 ^ k)%N with m; change (2 ^ _)%N with p;
  match goal with |- context [N.modulo ?a m] => euclid a m end; lia.

Lemma lead2_payload s0 :
  (194 <= s0 <= 223)%N -> (128 <= N.shiftl (N.land s0 31) 6)%N.
Proof. intros H. payload 31%N 5%N 32%N 64%N. Qed.

Lemma lead3_payload s0 :
  (225 <= s0 <= 239)%N -> (128 <= N.shiftl (N.land s0 15) 12)%N.
Proof. intros H. payload 15%N 4%N 16%N 4096%N. Qed.

Lemma lead4_payload s0 :
  (241 <= s0 <= 244)%N -> (128 <= N.shiftl (N.land s0 7) 18)%N.
Proof. intros H. payload 7%N 3%N 8%N 262144%N. Qed.

Lemma second3_payload s1 :
  (160 <= s1 <= 191)%N -> (128 <= N.shiftl (N.land s1 63) 6)%N.
Proof. intros H. payload 63%N 6%N 64%N 64%N. Qed.

Lemma second4_payload s1 :
  (144 <= s1 <= 191)%N -> (128 <= N.shiftl (N.land s1 63) 12)%N.
Proof. intros H. payload 63%N 6%N 64%N 4096%N. Qed.

Lemma isCont_high b : isCont b = true -> (128 <= b)%N.
Proof.
  unfold isCont. intros H. apply andb_true_iff in H as [H _].
  now apply N.leb_le in H.
Qed.

Lemma byteAt_succ c tl i : byteAt (c :: tl) (S i) = byteAt tl i.
Proof. reflexivity. Qed.

Lemma byteAt_head c tl : byteAt (c :: tl) 0 = byteval c.
Proof. reflexivity. Qed.

(** What [decodeRune] returns by the first byte: an ASCII byte is its
    own rune, of width one; any other byte opens a rune that is not
    ASCII, and the bytes the rune covers beyond the first are not ASCII
    either. *)
Lemma decodeRune_lead c tl r w :
  decodeRune (c :: tl) = (r, w) ->
  ((byteval c <? 128)%N = true /\ r = byteval c /\ w = 1) \/
  ((byteval c <? 128)%N = false /\ (128 <= r)%N /\ 1 <= w /\
   pred w <= length tl /\
   Forall (fun b => (128 <= byteval b)%N) (firstn (pred w) tl)).
Proof.
  unfold decodeRune.
  destruct (byteval c <? 128)%N eqn:E0; [intros [= <- <-]; now left|].
  intros H. right. split; [reflexivity|]. revert H.
  assert (Herr : (RuneError, 1) = (r, w) ->
            (128 <= r)%N /\ 1 <= w /\ pred w <= length tl /\
            Forall (fun b => (128 <= byteval b)%N) (firstn (pred w) tl)).
  { intros [= <- <-]. cbn [pred firstn].
    split; [unfold RuneError; lia|]. split; [lia|]. split; [lia|constructor]. }
  destruct (leadInfo (byteval c)) as [[sz [lo hi]]|] eqn:El; [|exact Herr].
  apply leadInfo_cases in El as [[Hlo Hhi] Hsz].
  destruct (length (c :: tl) <? sz) eqn:Elen; [exact Herr|].
  apply Nat.ltb_ge in Elen. cbn [length] in Elen.
  destruct tl as [|c1 tl]; [cbn in Elen; lia|].
  rewrite byteAt_succ, byteAt_head.
  destruct ((byteval c1 <? lo) || (hi <? byteval c1))%N eqn:E1; [exact Herr|].
  apply orb_false_iff in E1 as [E1a E1b].
  apply N.ltb_ge in E1a, E1b.
  assert (H1 : (128 <= byteval c1)%N) by lia.
  destruct Hsz as [[-> Hb]|[[-> [Hb Hb0]]|[-> [Hb Hb0]]]].
  - cbn [Nat.leb]. intros [= <- <-]. cbn [pred firstn length].
    split; [|split; [lia|split; [lia|now repeat constructor]]].
    etransitivity; [apply (lead2_payload _ Hb)|apply N_le_lor_l].
  - cbn [Nat.leb]. cbn [length] in Elen.
    destruct tl as [|c2 tl]; [cbn in Elen; lia|].
    rewrite !byteAt_succ, !byteAt_head.
    destruct (isCont (byteval c2)) eqn:E2; cbn [negb]; [|exact Herr].
    apply isCont_high in E2.
    intros [= <- <-]. cbn [pred firstn length].
    split; [|split; [lia|split; [lia|now repeat constructor]]].
    destruct (N.eq_dec (byteval c) 224) as [E|E].
    + etransitivity; [apply (second3_payload (byteval c1)); specialize (Hb0 E); lia|].
      etransitivity; [apply N_le_lor_l|apply N_le_lor_r].
    + etransitivity; [apply (lead3_payload (byteval c)); lia|apply N_le_lor_l].
  - cbn [Nat.leb]. cbn [length] in Elen.
    destruct tl as [|c2 tl]; [cbn in Elen; lia|].
    destruct tl as [|c3 tl]; [cbn in Elen; lia|].
    rewrite !byteAt_succ, !byteAt_head.
    destruct (isCont (byteval c2)) eqn:E2; cbn [negb]; [|exact Herr].
    destruct (isCont (byteval c3)) eqn:E3; cbn [negb]; [|exact Herr].
    apply isCont_high in E2, E3.
    intros [= <- <-]. cbn [pred firstn length].
    split; [|split; [lia|split; [lia|now repeat constructor]]].
    destruct (N.eq_dec (byteval c) 240) as [E|E].
    + etransitivity; [apply (second4_payload (byteval c1)); specialize (Hb0 E); lia|].
      etransitivity; [apply N_le_lor_l|apply N_le_lor_r].
    + etransitivity; [apply (lead4_payload (byteval c)); lia|apply N_le_lor_l].
Qed.

(** *** Encoding and decoding *)

Lemma lor_add (a b k : N) :
  (a mod 2 ^ k = 0)%N -> (b < 2 ^ k)%N -> N.lor a b = (a + b)%N.
Proof.
  intros Ha Hb.
  assert (Hland : N.land a b = 0%N).
  { apply N.bits_inj. intros m. rewrite N.land_spec, N.bits_0.
    destruct (N.lt_ge_cases m k) as [Hm|Hm].
    - rewrite <- (N.mod_pow2_bits_low a k m Hm), Ha, N.bits_0. reflexivity.
    - rewrite <- (N.mod_small b (2 ^ k) Hb), (N.mod_pow2_bits_high b k m Hm).
      apply andb_false_r. }
  now rewrite N.add_nocarry_lxor, N.lxor_lor.
Qed.

Lemma byteval_byte_of v : (v < 256)%N -> byteval (byte_of v) = v.
Proof. intros H. unfold byteval, byte_of. now apply N_ascii_embedding. Qed.

Lemma continuation_byte x : N.lor 0x80 (N.land x 0x3F) = (128 + x mod 64)%N.
Proof.
  change 0x3F%N with (N.ones 6). rewrite N.land_ones.
  apply (lor_add 128 _ 6); [reflexivity|]. now apply N.mod_lt.
Qed.

Lemma shiftr_div (r k : N) : N.shiftr r k = (r / 2 ^ k)%N.
Proof. apply N.shiftr_div_pow2. Qed.

Lemma div_4096 r : (r / 4096 = r / 64 / 64)%N.
Proof. now rewrite N.Div0.div_div. Qed.

Lemma div_262144 r : (r / 262144 = r / 64 / 64 / 64)%N.
Proof. now rewrite !N.Div0.div_div. Qed.

Ltac digits r :=
  let q1 := fresh "q" in let c1 := fresh "d" in
  let q2 := fresh "q" in let c2 := fresh "d" in
  let q3 := fresh "q" in let c3 := fresh "d" in
  pose proof (N.div_mod r 64 ltac:(discriminate));
  pose proof (N.mod_lt r 64 ltac:(discriminate));
  pose proof (N.div_mod (r / 64) 64 ltac:(discriminate));
  pose proof (N.mod_lt (r / 64) 64 ltac:(discriminate));
  pose proof (N.div_mod (r / 64 / 64) 64 ltac:(discriminate));
  pose proof (N.mod_lt (r / 64 / 64) 64 ltac:(discriminate));
  generalize dependent (N.modulo (r / 64 / 64) 64);
  generalize dependent (N.div (r / 64 / 64) 64);
  generalize dependent (N.modulo (r / 64) 64);
  generalize dependent (N.div (r / 64) 64);
  generalize dependent (N.modulo r 64);
  generalize dependent (N.div r 64); intros.

Lemma encodeRune_2 r :
  (128 <= r <= 0x7FF)%N ->
  encodeRune r = [byte_of (192 + r / 64); byte_of (128 + r mod 64)].
Proof.
  intros H. unfold encodeRune.
  destruct (N.leb_spec r 0x7F); [lia|].
  destruct (N.leb_spec r 0x7FF); [|lia].
  rewrite continuation_byte, shiftr_div. change (2 ^ 6)%N with 64%N.
  rewrite (lor_add 0xC0 (r / 64) 6); [reflexivity|reflexivity|].
  change (2 ^ 6)%N with 64%N. digits r. lia.
Qed.

Lemma encodeRune_3 r :
  (0x800 <= r <= 0xFFFF)%N -> ~ (0xD800 <= r <= 0xDFFF)%N ->
  encodeRune r =
  [byte_of (224 + r / 64 / 64); byte_of (128 + (r / 64) mod 64);
   byte_of (128 + r mod 64)].
Proof.
  intros H Hs. unfold encodeRune.
  destruct (N.leb_spec r 0x7F); [lia|].
  destruct (N.leb_spec r 0x7FF); [lia|].
  replace ((0x10FFFF <? r) || ((0xD800 <=? r) && (r <=? 0xDFFF)))%N with false.
  2:{ symmetry. apply orb_false_iff. split; [apply N.ltb_ge; lia|].
      apply andb_false_iff.
      destruct (N.leb_spec 0xD800 r); [right; apply N.leb_gt; lia|now left]. }
  destruct (N.leb_spec r 0xFFFF); [|lia].
  rewrite !continuation_byte, !shiftr_div.
  change (2 ^ 6)%N with 64%N. change (2 ^ 12)%N with 4096%N.
  rewrite div_4096.
  rewrite (lor_add 0xE0 (r / 64 / 64) 5); [reflexivity|reflexivity|].
  change (2 ^ 5)%N with 32%N. digits r. lia.
Qed.

Lemma encodeRune_4 r :
  (0x10000 <= r <= 0x10FFFF)%N ->
  encodeRune r =
  [byte_of (240 + r / 64 / 64 / 64); byte_of (128 + (r / 64 / 64) mod 64);
   byte_of (128 + (r / 64) mod 64); byte_of (128 + r mod 64)].
Proof.
  intros H. unfold encodeRune.
  destruct (N.leb_spec r 0x7F); [lia|].
  destruct (N.leb_spec r 0x7FF); [lia|].
  replace ((0x10FFFF <? r) || ((0xD800 <=? r) && (r <=? 0xDFFF)))%N with false.
  2:{ symmetry. apply orb_false_iff. split; [apply N.ltb_ge; lia|].
      apply andb_false_iff. right. apply N.leb_gt. lia. }
  destruct (N.leb_spec r 0xFFFF); [lia|].
  rewrite !continuation_byte, !shiftr_div.
  change (2 ^ 6)%N with 64%N. change (2 ^ 12)%N with 4096%N.
  change (2 ^ 18)%N with 262144%N.
  rewrite div_4096, div_262144.
  rewrite (lor_add 0xF0 (r / 64 / 64 / 64) 4); [reflexivity|reflexivity|].
  change (2 ^ 4)%N with 16%N. digits r. lia.
Qed.

Lemma leadInfo_2 s0 :
  (194 <= s0 <= 223)%N -> leadInfo s0 = Some (2, (0x80, 0xBF)%N).
Proof.
  intros H. unfold leadInfo.
  destruct (N.ltb_spec s0 0xC2); [lia|].
  destruct (N.leb_spec s0 0xDF); [reflexivity|lia].
Qed.

Lemma leadInfo_3 s0 :
  (224 <= s0 <= 239)%N ->
  leadInfo s0 =
  Some (3, ((if s0 =? 224 then 0xA0 else 0x80)%N,
            (if s0 =? 237 then 0x9F else 0xBF)%N)).
Proof.
  intros H. unfold leadInfo.
  destruct (N.ltb_spec s0 0xC2); [lia|].
  destruct (N.leb_spec s0 0xDF); [lia|].
  destruct (N.eqb_spec s0 0xE0) as [->|]; [reflexivity|].
  destruct (N.leb_spec s0 0xEC).
  { destruct (N.eqb_spec s0 224); [lia|]. destruct (N.eqb_spec s0 237); [lia|].
    reflexivity. }
  destruct (N.eqb_spec s0 0xED) as [->|]; [reflexivity|].
  destruct (N.leb_spec s0 0xEF); [|lia].
  destruct (N.eqb_spec s0 224); [lia|]. destruct (N.eqb_spec s0 237); [lia|].
  reflexivity.
Qed.

Lemma leadInfo_4 s0 :
  (240 <= s0 <= 244)%N ->
  leadInfo s0 =
  Some (4, ((if s0 =? 240 then 0x90 else 0x80)%N,
            (if s0 =? 244 then 0x8F else 0xBF)%N)).
Proof.
  intros H. unfold leadInfo.
  destruct (N.ltb_spec s0 0xC2); [lia|].
  destruct (N.leb_spec s0 0xDF); [lia|].
  destruct (N.eqb_spec s0 0xE0); [lia|].
  destruct (N.leb_spec s0 0xEC); [lia|].
  destruct (N.eqb_spec s0 0xED); [lia|].
  destruct (N.leb_spec s0 0xEF); [lia|].
  destruct (N.eqb_spec s0 0xF0) as [->|]; [reflexivity|].
  destruct (N.leb_spec s0 0xF3).
  { destruct (N.eqb_spec s0 240); [lia|]. destruct (N.eqb_spec s0 244); [lia|].
    reflexivity. }
  destruct (N.eqb_spec s0 0xF4) as [->|]; [reflexivity|lia].
Qed.

Lemma low_bits (s K m : N) k :
  m = (2 ^ k)%N -> (K mod m = 0)%N -> (K <= s < K + m)%N ->
  N.land s (N.ones k) = (s - K)%N.
Proof.
  intros -> HK Hs. rewrite N.land_ones.
  pose proof (N.div_mod K (2 ^ k) ltac:(apply N.pow_nonzero; discriminate)) as Hd.
  rewrite HK, N.add_0_r in Hd.
  symmetry. apply (N.mod_unique s (2 ^ k) (K / 2 ^ k)); lia.
Qed.

Lemma isCont_range s : (128 <= s <= 191)%N -> isCont s = true.
Proof.
  intros H. unfold isCont. apply andb_true_iff. split; apply N.leb_le; lia.
Qed.

Lemma continuation_payload s :
  (128 <= s <= 191)%N -> N.land s 0x3F = (s - 128)%N.
Proof.
  intros H. change 0x3F%N with (N.ones 6).
  apply (low_bits s 128 64 6); [reflexivity|reflexivity|lia].
Qed.

Lemma lor_shift (a b k : N) :
  (b < 2 ^ k)%N -> N.lor (N.shiftl a k) b = (a * 2 ^ k + b)%N.
Proof.
  intros H. rewrite N.shiftl_mul_pow2. apply (lor_add _ _ k); [|exact H].
  apply N.Div0.mod_mul.
Qed.

Lemma decodeRune_2 s0 s1 rest :
  (194 <= s0 <= 223)%N -> (128 <= s1 <= 191)%N ->
  decodeRune (byte_of s0 :: byte_of s1 :: rest) =
  (((s0 - 192) * 64 + (s1 - 128))%N, 2).
Proof.
  intros H0 H1. unfold decodeRune.
  rewrite byteAt_succ, byteAt_head, !byteval_byte_of by lia.
  destruct (N.ltb_spec s0 128); [lia|].
  rewrite (leadInfo_2 s0 H0). cbn [length Nat.ltb Nat.leb].
  replace ((s1 <? 0x80) || (0xBF <? s1))%N with false
    by (symmetry; apply orb_false_iff; split; apply N.ltb_ge; lia).
  rewrite (continuation_payload s1 H1).
  change 0x1F%N with (N.ones 5).
  rewrite (low_bits s0 192 32 5) by (reflexivity || lia).
  rewrite lor_shift by (change (2 ^ 6)%N with 64%N; lia).
  reflexivity.
Qed.

Lemma decodeRune_3 s0 s1 s2 rest :
  (224 <= s0 <= 239)%N -> (128 <= s1 <= 191)%N ->
  (s0 = 224%N -> (160 <= s1)%N) -> (s0 = 237%N -> (s1 <= 159)%N) ->
  (128 <= s2 <= 191)%N ->
  decodeRune (byte_of s0 :: byte_of s1 :: byte_of s2 :: rest) =
  (((s0 - 224) * 4096 + ((s1 - 128) * 64 + (s2 - 128)))%N, 3).
Proof.
  intros H0 H1 Hlo Hhi H2. unfold decodeRune.
  rewrite !byteAt_succ, !byteAt_head, !byteval_byte_of by lia.
  destruct (N.ltb_spec s0 128); [lia|].
  rewrite (leadInfo_3 s0 H0). cbn [length Nat.ltb Nat.leb].
  replace ((s1 <? (if (s0 =? 224)%N then 0xA0 else 0x80))
           || ((if (s0 =? 237)%N then 0x9F else 0xBF) <? s1))%N with false.
  2:{ symmetry. apply orb_false_iff. split; apply N.ltb_ge.
      - destruct (N.eqb_spec s0 224); [now apply Hlo|lia].
      - destruct (N.eqb_spec s0 237); [now apply Hhi|lia]. }
  rewrite (isCont_range s2 H2). cbn [negb].
  rewrite (continuation_payload s1 H1), (continuation_payload s2 H2).
  change 0x0F%N with (N.ones 4).
  rewrite (low_bits s0 224 16 4) by (reflexivity || lia).
  rewrite (lor_shift (s1 - 128) (s2 - 128) 6)
    by (change (2 ^ 6)%N with 64%N; lia).
  rewrite lor_shift by (change (2 ^ 6)%N with 64%N; change (2 ^ 12)%N with 4096%N; lia).
  reflexivity.
Qed.

Lemma decodeRune_4 s0 s1 s2 s3 rest :
  (240 <= s0 <= 244)%N -> (128 <= s1 <= 191)%N ->
  (s0 = 240%N -> (144 <= s1)%N) -> (s0 = 244%N -> (s1 <= 143)%N) ->
  (128 <= s2 <= 191)%N -> (128 <= s3 <= 191)%N ->
  decodeRune (byte_of s0 :: byte_of s1 :: byte_of s2 :: byte_of s3 :: rest) =
  (((s0 - 240) * 262144
    + ((s1 - 128) * 4096 + ((s2 - 128) * 64 + (s3 - 128))))%N, 4).
Proof.
  intros H0 H1 Hlo Hhi H2 H3. unfold decodeRune.
  rewrite !byteAt_succ, !byteAt_head, !byteval_byte_of by lia.
  destruct (N.ltb_spec s0 128); [lia|].
  rewrite (leadInfo_4 s0 H0). cbn [length Nat.ltb Nat.leb].
  replace ((s1 <? (if (s0 =? 240)%N then 0x90 else 0x80))
           || ((if (s0 =? 244)%N then 0x8F else 0xBF) <? s1))%N with false.
  2:{ symmetry. apply orb_false_iff. split; apply N.ltb_ge.
      - destruct (N.eqb_spec s0 240); [now apply Hlo|lia].
      - destruct (N.eqb_spec s0 244); [now apply Hhi|lia]. }
  rewrite (isCont_range s2 H2), (isCont_range s3 H3). cbn [negb].
  rewrite (continuation_payload s1 H1), (continuation_payload s2 H2),
          (continuation_payload s3 H3).
  change 0x07%N with (N.ones 3).
  rewrite (low_bits s0 240 8 3) by (reflexivity || lia).
  rewrite (lor_shift (s2 - 128) (s3 - 128) 6)
    by (change (2 ^ 6)%N with 64%N; lia).
  rewrite (lor_shift (s1 - 128) _ 12)
    by (change (2 ^ 6)%N with 64%N; change (2 ^ 12)%N with 4096%N; lia).
  rewrite lor_shift
    by (change (2 ^ 6)%N with 64%N; change (2 ^ 12)%N with 4096%N;
        change (2 ^ 18)%N with 262144%N; lia).
  reflexivity.
Qed.

Lemma leb_true (a b : N) : (a <= b)%N -> (a <=? b)%N = true.
Proof. apply N.leb_le. Qed.

Lemma validRune_range r :
  validRune r = true -> (r < 0xD800 \/ 0xE000 <= r <= 0x10FFFF)%N.
Proof.
  unfold validRune. intros Hv. apply orb_true_iff in Hv as [Hv|Hv].
  - left. now apply N.ltb_lt.
  - right. apply andb_true_iff in Hv as [H1 H2]. apply N.leb_le in H1, H2. lia.
Qed.

(** Every scalar value is read back from its encoding. *)
Lemma roundTrip_valid r : validRune r = true -> roundTrip r = true.
Proof.
  intros Hv. apply validRune_range in Hv. unfold roundTrip.
  destruct (N.ltb_spec r 128) as [Hlow|Hhigh].
  { assert (E : encodeRune r = [byte_of r]).
    { unfold encodeRune. destruct (N.leb_spec r 0x7F); [reflexivity|lia]. }
    rewrite E. unfold decodeRune. rewrite byteval_byte_of by lia.
    destruct (N.ltb_spec r 128); [|lia]. rewrite N.eqb_refl. reflexivity. }
  destruct (N.le_gt_cases r 0x7FF) as [H2|H2].
  { rewrite (encodeRune_2 r) by lia.
    assert (A0 : (194 <= 192 + r / 64 <= 223)%N) by (digits r; lia).
    assert (A1 : (128 <= 128 + r mod 64 <= 191)%N) by (digits r; lia).
    rewrite (decodeRune_2 _ _ [] A0 A1).
    cbn [length forallb Nat.leb Nat.eqb]. rewrite !byteval_byte_of by lia.
    rewrite !leb_true by lia.
    replace ((192 + r / 64 - 192) * 64 + (128 + r mod 64 - 128))%N with r
      by (digits r; lia).
    rewrite N.eqb_refl. reflexivity. }
  destruct (N.le_gt_cases r 0xFFFF) as [H3|H3].
  { rewrite (encodeRune_3 r) by lia.
    assert (A0 : (224 <= 224 + r / 64 / 64 <= 239)%N) by (digits r; lia).
    assert (A1 : (128 <= 128 + (r / 64) mod 64 <= 191)%N) by (digits r; lia).
    assert (A2 : (128 <= 128 + r mod 64 <= 191)%N) by (digits r; lia).
    assert (Alo : (224 + r / 64 / 64 = 224 -> 160 <= 128 + (r / 64) mod 64)%N)
      by (digits r; lia).
    assert (Ahi : (224 + r / 64 / 64 = 237 -> 128 + (r / 64) mod 64 <= 159)%N)
      by (digits r; lia).
    rewrite (decodeRune_3 _ _ _ [] A0 A1 Alo Ahi A2).
    cbn [length forallb Nat.leb Nat.eqb]. rewrite !byteval_byte_of by lia.
    rewrite !leb_true by lia.
    replace ((224 + r / 64 / 64 - 224) * 4096
             + ((128 + (r / 64) mod 64 - 128) * 64 + (128 + r mod 64 - 128)))%N
      with r by (digits r; lia).
    rewrite N.eqb_refl. reflexivity. }
  rewrite (encodeRune_4 r) by lia.
  assert (A0 : (240 <= 240 + r / 64 / 64 / 64 <= 244)%N) by (digits r; lia).
  assert (A1 : (128 <= 128 + (r / 64 / 64) mod 64 <= 191)%N) by (digits r; lia).
  assert (A2 : (128 <= 128 + (r / 64) mod 64 <= 191)%N) by (digits r; lia).
  assert (A3 : (128 <= 128 + r mod 64 <= 191)%N) by (digits r; lia).
  assert (Alo : (240 + r / 64 / 64 / 64 = 240
                 -> 144 <= 128 + (r / 64 / 64) mod 64)%N) by (digits r; lia).
  assert (Ahi : (240 + r / 64 / 64 / 64 = 244
                 -> 128 + (r / 64 / 64) mod 64 <= 143)%N) by (digits r; lia).
  rewrite (decodeRune_4 _ _ _ _ [] A0 A1 Alo Ahi A2 A3).
  cbn [length forallb Nat.leb Nat.eqb]. rewrite !byteval_byte_of by lia.
  rewrite !leb_true by lia.
  replace ((240 + r / 64 / 64 / 64 - 240) * 262144
           + ((128 + (r / 64 / 64) mod 64 - 128) * 4096
              + ((128 + (r / 64) mod 64 - 128) * 64 + (128 + r mod 64 - 128))))%N
    with r by (digits r; lia).
  rewrite N.eqb_refl. reflexivity.
Qed.

Lemma validRune_normalize r : validRune (normalize r) = true.
Proof. unfold normalize. destruct (validRune r) eqn:E; [exact E|reflexivity]. Qed.

Lemma encodeRune_normalize r : encodeRune (normalize r) = encodeRune r.
Proof.
  unfold normalize. destruct (validRune r) eqn:E; [reflexivity|].
  unfold validRune in E. apply orb_false_iff in E as [E1 E2].
  apply N.ltb_ge in E1. unfold encodeRune.
  destruct (N.leb_spec r 0x7F); [lia|].
  destruct (N.leb_spec r 0x7FF); [lia|].
  replace ((0x10FFFF <? r) || ((0xD800 <=? r) && (r <=? 0xDFFF)))%N with true;
    [reflexivity|].
  symmetry. apply andb_false_iff in E2 as [E2|E2].
  - apply N.leb_gt in E2.
    replace (0xD800 <=? r)%N with true by (symmetry; apply N.leb_le; lia).
    replace (r <=? 0xDFFF)%N with true by (symmetry; apply N.leb_le; lia).
    apply orb_true_r.
  - apply N.leb_gt in E2.
    replace (0x10FFFF <? r)%N with true by (symmetry; apply N.ltb_lt; lia).
    reflexivity.
Qed.

Lemma normalize_valid r : validRune r = true -> normalize r = r.
Proof. unfold normalize. now intros ->. Qed.

Lemma normalize_ascii r : (r <? 128)%N = true -> normalize r = r.
Proof.
  intros H. apply normalize_valid. unfold validRune.
  apply N.ltb_lt in H. apply orb_true_iff. left. apply N.ltb_lt. lia.
Qed.

Lemma normalize_high r : (128 <= r)%N -> (128 <= normalize r)%N.
Proof.
  unfold normalize. destruct (validRune r); [easy|]. unfold RuneError. lia.
Qed.

(** The encoding of a rune: one ASCII byte, or at least two bytes none
    of which is ASCII. *)
Lemma encodeRune_low r : (r <? 128)%N = true -> encodeRune r = [byte_of r].
Proof.
  intros H. apply N.ltb_lt in H. unfold encodeRune.
  now replace (r <=? 0x7F)%N with true by (symmetry; apply N.leb_le; lia).
Qed.

Lemma encodeRune_high r :
  (r <? 128)%N = false ->
  2 <= length (encodeRune r) /\
  Forall (fun b => (128 <= byteval b)%N) (encodeRune r).
Proof.
  intros H. rewrite <- encodeRune_normalize.
  pose proof (roundTrip_valid _ (validRune_normalize r)) as Hrt.
  unfold roundTrip in Hrt. apply andb_true_iff in Hrt as [_ Hrt].
  assert (Hn : (normalize r <? 128)%N = false).
  { apply N.ltb_ge in H. apply N.ltb_ge. now apply normalize_high. }
  rewrite Hn in Hrt. apply andb_true_iff in Hrt as [Hlen Hall].
  split; [now apply Nat.leb_le in Hlen|].
  apply Forall_forall. intros b Hb.
  rewrite forallb_forall in Hall. apply N.leb_le. now apply Hall.
Qed.

Lemma byteAt_app (x rest : gostring) i :
  i < length x -> byteAt (x ++ rest) i = byteAt x i.
Proof. intros H. unfold byteAt. now rewrite app_nth1. Qed.

(** A rune of several bytes is decoded from those bytes alone. *)
Lemma decodeRune_app x rest r w :
  decodeRune x = (r, w) -> 2 <= w -> decodeRune (x ++ rest) = (r, w).
Proof.
  destruct x as [|c0 x']; [intros [= <- <-]; lia|].
  cbn [app]. unfold decodeRune.
  destruct (byteval c0 <? 128)%N; [intros [= <- <-]; lia|].
  destruct (leadInfo (byteval c0)) as [[sz [lo hi]]|] eqn:El;
    [|intros [= <- <-]; lia].
  apply leadInfo_cases in El as [_ Hsz].
  destruct (length (c0 :: x') <? sz) eqn:Elen; [intros [= <- <-]; lia|].
  apply Nat.ltb_ge in Elen.
  replace (length (c0 :: x' ++ rest) <? sz) with false
    by (symmetry; apply Nat.ltb_ge; cbn [length] in *; rewrite length_app; lia).
  change (c0 :: x' ++ rest) with ((c0 :: x') ++ rest).
  destruct Hsz as [[-> _]|[[-> _]|[-> _]]]; cbn [Nat.leb].
  - rewrite (byteAt_app (c0 :: x') rest 1) by lia. auto.
  - rewrite (byteAt_app (c0 :: x') rest 1), (byteAt_app (c0 :: x') rest 2) by lia.
    auto.
  - rewrite (byteAt_app (c0 :: x') rest 1), (byteAt_app (c0 :: x') rest 2),
            (byteAt_app (c0 :: x') rest 3) by lia.
    auto.
Qed.

Lemma encodeRune_nonempty r : encodeRune r <> [].
Proof.
  destruct (r <? 128)%N eqn:E.
  - now rewrite (encodeRune_low r E).
  - destruct (encodeRune_high r E) as [H _]. intros E'. rewrite E' in H.
    cbn in H. lia.
Qed.

(** What is read back from the encoding of [r], whatever follows. *)
Lemma decodeRune_encodeRune r rest :
  decodeRune (encodeRune r ++ rest) = (normalize r, length (encodeRune r)).
Proof.
  rewrite <- (encodeRune_normalize r).
  pose proof (roundTrip_valid _ (validRune_normalize r)) as Hrt.
  unfold roundTrip in Hrt. apply andb_true_iff in Hrt as [Hd Hshape].
  destruct (decodeRune (encodeRune (normalize r))) as [r' w] eqn:Ed.
  apply andb_true_iff in Hd as [Hr Hw].
  apply N.eqb_eq in Hr. apply Nat.eqb_eq in Hw. subst r' w.
  destruct (normalize r <? 128)%N eqn:E.
  - rewrite (encodeRune_low _ E). cbn [app length].
    unfold decodeRune.
    assert (Hb : byteval (byte_of (normalize r)) = normalize r).
    { unfold byteval, byte_of. apply N_ascii_embedding.
      apply N.ltb_lt in E. lia. }
    now rewrite Hb, E.
  - apply decodeRune_app; [exact Ed|].
    now destruct (encodeRune_high _ E).
Qed.

Lemma rangeFrom_skip (x rest : gostring) : forall i,
  rangeFrom i (length x) (x ++ rest) = rangeFrom (i + length x) 0 rest.
Proof.
  induction x as [|c x IH]; intros i; cbn [length app].
  - now rewrite Nat.add_0_r; destruct rest.
  - cbn [rangeFrom]. rewrite IH. f_equal. lia.
Qed.

Lemma runes_encodeRune r rest :
  runes (encodeRune r ++ rest) = normalize r :: runes rest.
Proof.
  unfold runes, rangeString.
  pose proof (decodeRune_encodeRune r rest) as Hd.
  destruct (encodeRune r) as [|c e] eqn:Ee; [now apply encodeRune_nonempty in Ee|].
  cbn [app rangeFrom]. cbn [app] in Hd. rewrite Hd. cbn [length pred map snd].
  f_equal. rewrite rangeFrom_skip. apply rangeFrom_shift.
Qed.

Lemma encodeRunes_app a b : encodeRunes (a ++ b) = encodeRunes a ++ encodeRunes b.
Proof. unfold encodeRunes. now rewrite map_app, concat_app. Qed.

Lemma encodeRunes_cons r rs : encodeRunes (r :: rs) = encodeRune r ++ encodeRunes rs.
Proof. reflexivity. Qed.

(** The runes of a text built by [WriteRune] are the runes written,
    invalid ones having become U+FFFD. *)
Lemma runes_encodeRunes rs : runes (encodeRunes rs) = map normalize rs.
Proof.
  induction rs as [|r rs IH]; [reflexivity|].
  rewrite encodeRunes_cons, runes_encodeRune, IH. reflexivity.
Qed.

Lemma encodeRunes_normalize rs : encodeRunes (map normalize rs) = encodeRunes rs.
Proof.
  induction rs as [|r rs IH]; [reflexivity|].
  cbn [map]. now rewrite !encodeRunes_cons, encodeRune_normalize, IH.
Qed.

(** ** [matchingParenthesisPos] *)

Lemma byteval_paren c :
  ((byteval c =? rLParen)%N = true <-> c = "("%char) /\
  ((byteval c =? rRParen)%N = true <-> c = ")"%char).
Proof.
  split; (split; [intros H; apply N.eqb_eq in H; now apply byteval_inj|now intros ->]).
Qed.

Lemma high_not_paren n :
  (128 <= n)%N -> (n =? rLParen)%N = false /\ (n =? rRParen)%N = false.
Proof. unfold rLParen, rRParen. intros H. split; apply N.eqb_neq; lia. Qed.

(** The rune loop of [matchingParenthesisPos] and the byte loop
    [firstBalanced] stop at the same index: a rune of several bytes is no
    parenthesis, and neither is any of its bytes. *)
Lemma matchingLoop_bytes s : forall i skip stack,
  skip <= length s ->
  Forall (fun b => (128 <= byteval b)%N) (firstn skip s) ->
  (0 < skip -> stack <> 0%Z) ->
  matchingLoop (rangeFrom i skip s) stack = firstBalanced i stack s.
Proof.
  induction s as [|c tl IH]; intros i skip stack Hlen Hhigh Hstack;
    [reflexivity|].
  cbn [rangeFrom firstBalanced]. destruct skip as [|k].
  - destruct (decodeRune (c :: tl)) as [r w] eqn:Ed.
    cbn [matchingLoop].
    apply decodeRune_lead in Ed as [(E0 & -> & ->)|(E0 & Hr & Hw & Hwl & Hcov)].
    + destruct (_ =? 0)%Z; [reflexivity|].
      apply IH; [cbn; lia|constructor|lia].
    + apply N.ltb_ge in E0.
      destruct (high_not_paren _ Hr) as [-> ->].
      destruct (high_not_paren _ E0) as [-> ->].
      destruct (stack =? 0)%Z eqn:Es; [reflexivity|].
      apply IH; [exact Hwl|exact Hcov|].
      intros _. now apply Z.eqb_neq.
  - cbn [firstn length] in *. inversion Hhigh as [|? ? Hc Htl]; subst.
    destruct (high_not_paren _ Hc) as [-> ->].
    assert (Hs : stack <> 0%Z) by (apply Hstack; lia).
    apply Z.eqb_neq in Hs. rewrite Hs.
    apply IH; [lia|exact Htl|]. intros _. now apply Z.eqb_neq.
Qed.

Lemma matchingParenthesisPos_bytes s :
  matchingParenthesisPos s = firstBalanced 0 0 s.
Proof.
  apply matchingLoop_bytes; [lia|constructor|lia].
Qed.

Lemma balance_nil : balance [] = 0%Z.
Proof. reflexivity. Qed.

Lemma balance_cons c t :
  balance (c :: t) =
  ((if (byteval c =? rLParen)%N then 1
    else if (byteval c =? rRParen)%N then -1 else 0) + balance t)%Z.
Proof.
  unfold balance, count. cbn [count_occ].
  destruct (byteval_paren c) as [Ho Hc].
  destruct (ascii_dec c "(") as [E1|E1], (ascii_dec c ")") as [E2|E2];
    [congruence| | |].
  - apply Ho in E1. rewrite E1. lia.
  - destruct (byteval c =? rLParen)%N eqn:E3; [elim E1; now apply Ho|].
    apply Hc in E2. rewrite E2. lia.
  - destruct (byteval c =? rLParen)%N eqn:E3; [elim E1; now apply Ho|].
    destruct (byteval c =? rRParen)%N eqn:E4; [elim E2; now apply Hc|].
    lia.
Qed.

Lemma balance_app a b : balance (a ++ b) = (balance a + balance b)%Z.
Proof. unfold balance. rewrite !count_app. lia. Qed.

Lemma firstBalanced_spec s : forall i stack,
  match firstBalanced i stack s with
  | Some p =>
      exists pos, p = i + pos /\ pos < length s /\
        (stack + balance (firstn (S pos) s) = 0)%Z /\
        forall j, j < pos -> (stack + balance (firstn (S j) s) <> 0)%Z
  | None =>
      forall j, j < length s -> (stack + balance (firstn (S j) s) <> 0)%Z
  end.
Proof.
  induction s as [|c tl IH]; intros i stack; cbn [firstBalanced].
  - cbn. intros j Hj. lia.
  - set (d := (if (byteval c =? rLParen)%N then 1
               else if (byteval c =? rRParen)%N then -1 else 0)%Z).
    assert (Hstack :
      (if (byteval c =? rRParen)%N
       then (if (byteval c =? rLParen)%N then stack + 1 else stack) - 1
       else if (byteval c =? rLParen)%N then stack + 1 else stack)%Z
      = (stack + d)%Z).
    { subst d. destruct (byteval c =? rLParen)%N eqn:E1.
      - apply N.eqb_eq in E1. rewrite E1. cbn. lia.
      - destruct (byteval c =? rRParen)%N; lia. }
    rewrite Hstack.
    assert (Hpre : forall j, balance (firstn (S (S j)) (c :: tl))
                             = (d + balance (firstn (S j) tl))%Z).
    { intros j. cbn [firstn]. now rewrite balance_cons. }
    assert (Hone : balance (firstn 1 (c :: tl)) = d).
    { cbn [firstn]. rewrite balance_cons, balance_nil. subst d. lia. }
    destruct (stack + d =? 0)%Z eqn:E.
    + apply Z.eqb_eq in E. exists 0. rewrite Hone.
      repeat split; [lia|cbn; lia|exact E|intros j Hj; lia].
    + apply Z.eqb_neq in E. specialize (IH (S i) (stack + d)%Z).
      destruct (firstBalanced (S i) (stack + d) tl) as [p|].
      * destruct IH as (pos & -> & Hlt & Hzero & Hmin).
        exists (S pos). rewrite Hpre.
        repeat split; [lia|cbn; lia|lia|].
        intros [|j] Hj; [rewrite Hone; exact E|].
        rewrite Hpre. specialize (Hmin j ltac:(lia)). lia.
      * intros [|j] Hj; [rewrite Hone; exact E|].
        rewrite Hpre. cbn [length] in Hj. specialize (IH j ltac:(lia)). lia.
Qed.

Lemma matchingParenthesisPos_least (s : gostring) :
  match matchingParenthesisPos s with
  | Some pos =>
      pos < length s /\ balance (firstn (S pos) s) = 0%Z /\
      forall j, j < pos -> balance (firstn (S j) s) <> 0%Z
  | None => forall j, j < length s -> balance (firstn (S j) s) <> 0%Z
  end.
Proof.
  rewrite matchingParenthesisPos_bytes.
  pose proof (firstBalanced_spec s 0 0%Z) as H.
  destruct (firstBalanced 0 0 s) as [p|].
  - destruct H as (pos & -> & Hlt & Hzero & Hmin). cbn [Nat.add].
    repeat split; [exact Hlt|lia|].
    intros j Hj. specialize (Hmin j Hj). lia.
  - intros j Hj. specialize (H j Hj). lia.
Qed.

(** X10: for every string of bytes, well-formed UTF-8 or not,
    [matchingParenthesisPos] returns the least index [pos] such that the
    bytes up to and including [pos] hold as many [(] as [)], and -1 when
    no prefix does. *)
Theorem matchingParenthesisPos_spec (s : gostring) :
  match matchingParenthesisPos s with
  | Some pos =>
      pos < length s /\ balance (firstn (S pos) s) = 0%Z /\
      forall j, j < pos -> balance (firstn (S j) s) <> 0%Z
  | None => forall j, j < length s -> balance (firstn (S j) s) <> 0%Z
  end.
Proof. exact (matchingParenthesisPos_least s). Qed.

(** ** Inputs with matched parentheses *)

Lemma wellNestedFrom_balance s : forall k,
  wellNestedFrom k s = true ->
  (Z.of_nat k + balance s = 0)%Z /\
  forall j, (0 <= Z.of_nat k + balance (firstn j s))%Z.
Proof.
  induction s as [|c tl IH]; intros k H; cbn [wellNestedFrom] in H.
  - apply Nat.eqb_eq in H. subst k. split; [reflexivity|].
    intros j. rewrite firstn_nil, balance_nil. lia.
  - assert (Hcons : forall d : Z, forall k' : nat,
              (Z.of_nat k' = Z.of_nat k + d)%Z ->
              balance (c :: tl) = (d + balance tl)%Z ->
              wellNestedFrom k' tl = true ->
              (Z.of_nat k + balance (c :: tl) = 0)%Z /\
              forall j, (0 <= Z.of_nat k + balance (firstn j (c :: tl)))%Z).
    { intros d k' Hk Hb Hn. destruct (IH k' Hn) as [Hz Hp]. split; [lia|].
      intros [|j]; cbn [firstn]; [rewrite balance_nil; lia|].
      specialize (Hp j). rewrite balance_cons. rewrite balance_cons in Hb. lia. }
    pose proof (balance_cons c tl) as Hb.
    destruct (byteval c =? rLParen)%N.
    + apply (Hcons 1%Z (S k)); [lia|exact Hb|exact H].
    + destruct (byteval c =? rRParen)%N.
      * destruct k as [|k]; [discriminate|].
        apply (Hcons (-1)%Z k); [lia|exact Hb|exact H].
      * apply (Hcons 0%Z k); [lia|exact Hb|exact H].
Qed.

Lemma wellNested_nested s : wellNested s = true -> nested s.
Proof.
  intros H. destruct (wellNestedFrom_balance s 0 H) as [Hz Hp].
  split; [lia|]. intros j. specialize (Hp j). lia.
Qed.

Lemma firstn_length_all (s : gostring) : firstn (length s) s = s.
Proof. apply firstn_all. Qed.

Lemma firstn_plus (s : gostring) : forall n j,
  firstn (n + j) s = firstn n s ++ firstn j (skipn n s).
Proof.
  induction s as [|c tl IH]; intros n j.
  - now rewrite skipn_nil, !firstn_nil.
  - destruct n as [|n]; [reflexivity|]. cbn [Nat.add firstn skipn app].
    now rewrite IH.
Qed.

Lemma balance_firstn_skipn (s : gostring) n j :
  balance (firstn j (skipn n s)) =
  (balance (firstn (n + j) s) - balance (firstn n s))%Z.
Proof. rewrite firstn_plus, balance_app. lia. Qed.

Lemma balance_skipn (s : gostring) n :
  balance (skipn n s) = (balance s - balance (firstn n s))%Z.
Proof. rewrite <- (firstn_skipn n s) at 2. rewrite balance_app. lia. Qed.

Lemma balance_step (s : gostring) p :
  (balance (firstn p s) - 1 <= balance (firstn (S p) s))%Z.
Proof.
  replace (S p) with (p + 1) by lia. rewrite firstn_plus, balance_app.
  destruct (skipn p s) as [|x r]; cbn [firstn]; [rewrite balance_nil; lia|].
  rewrite balance_cons, balance_nil.
  destruct (byteval x =? rLParen)%N; [lia|].
  destruct (byteval x =? rRParen)%N; lia.
Qed.

Lemma balance_open c tl j :
  (byteval c =? rLParen)%N = true ->
  balance (firstn (S j) (c :: tl)) = (1 + balance (firstn j tl))%Z.
Proof. intros H. cbn [firstn]. now rewrite balance_cons, H. Qed.

(** Where a well-nested text opens a parenthesis, [matchingParenthesisPos]
    finds its closing one; the text between the two and the text after
    are well nested. *)
Lemma nested_group c tl :
  (byteval c =? rLParen)%N = true -> nested (c :: tl) ->
  exists pos,
    matchingParenthesisPos (c :: tl) = Some pos /\ 1 <= pos <= length tl /\
    nested (firstn (pos - 1) tl) /\ nested (skipn pos tl).
Proof.
  intros Hc [Hz Hp].
  pose proof (matchingParenthesisPos_least (c :: tl)) as Hspec.
  destruct (matchingParenthesisPos (c :: tl)) as [pos|].
  - destruct Hspec as (Hlt & Hzero & Hmin). exists pos.
    split; [reflexivity|].
    destruct pos as [|p].
    { rewrite (balance_open _ _ _ Hc) in Hzero. cbn [firstn] in Hzero.
      rewrite balance_nil in Hzero. lia. }
    cbn [length] in Hlt. split; [lia|].
    cbn [Nat.sub]. rewrite Nat.sub_0_r.
    rewrite (balance_open _ _ _ Hc) in Hzero.
    assert (Hpos : forall m, m <= p -> (0 <= balance (firstn m tl))%Z).
    { intros m Hm. specialize (Hmin m ltac:(lia)). specialize (Hp (S m)).
      rewrite (balance_open _ _ _ Hc) in Hmin, Hp. lia. }
    split.
    + split.
      * pose proof (balance_step tl p). specialize (Hpos p (le_n _)). lia.
      * intros j. rewrite firstn_firstn. apply Hpos. lia.
    + change (skipn (S p) tl) with (skipn (S (S p)) (c :: tl)). split.
      * rewrite balance_skipn, (balance_open _ _ _ Hc). lia.
      * intros j. rewrite balance_firstn_skipn, (balance_open _ _ _ Hc).
        specialize (Hp (S (S p) + j)). lia.
  - exfalso. apply (Hspec (length tl)); [cbn; lia|].
    rewrite (balance_open _ _ _ Hc), firstn_all.
    rewrite balance_cons, Hc in Hz. lia.
Qed.

Lemma nested_tail c tl :
  (byteval c =? rLParen)%N = false -> nested (c :: tl) -> nested tl.
Proof.
  intros Hc [Hz Hp].
  assert (Hr : (byteval c =? rRParen)%N = false).
  { destruct (byteval c =? rRParen)%N eqn:E; [|reflexivity].
    specialize (Hp 1). cbn [firstn] in Hp.
    rewrite balance_cons, Hc, E, balance_nil in Hp. lia. }
  split.
  - rewrite balance_cons, Hc, Hr in Hz. lia.
  - intros j. specialize (Hp (S j)). cbn [firstn] in Hp.
    rewrite balance_cons, Hc, Hr in Hp. lia.
Qed.

Lemma scanByte_not_broken c st : scanByte c st <> Err errBrokenParenthesis.
Proof.
  intros H. unfold scanByte in H.
  destruct (hasSuffixLogicalOp _); [|discriminate].
  destruct (negb _); [discriminate|].
  destruct (0 <? _); [|discriminate].
  destruct (parseSimpleStatement _) eqn:E; [discriminate|].
  injection H as ->. apply parseSimpleStatement_errors in E as [E|E]; discriminate.
Qed.

Lemma finish_not_broken st : finish st <> Err errBrokenParenthesis.
Proof.
  unfold finish. destruct (0 <? _).
  - destruct (parseSimpleStatement _) eqn:E.
    + destruct (expressions st ++ [a]) as [|x [|y l]]; discriminate.
    + intros [= ->]. apply parseSimpleStatement_errors in E as [E|E]; discriminate.
  - destruct (expressions st) as [|x [|y l]]; discriminate.
Qed.

Lemma scan_nested sub :
  (forall x, nested x -> sub x <> Err errBrokenParenthesis) ->
  forall rest skip st,
    skip <= length rest -> nested (skipn skip rest) ->
    scan sub skip rest st <> Err errBrokenParenthesis.
Proof.
  intros Hsub. induction rest as [|c tl IH]; intros skip st Hlen Hn;
    cbn [scan]; [discriminate|].
  destruct skip as [|k].
  - cbn [skipn] in Hn. cbn [scanStep].
    destruct (byteval c =? rLParen)%N eqn:Ec.
    + destruct (nested_group c tl Ec Hn) as (pos & -> & Hpos & Hin & Hout).
      destruct (sub (firstn (pos - 1) tl)) as [exp|e] eqn:Es.
      * apply IH; [lia|exact Hout].
      * intros [= ->]. now apply (Hsub _ Hin).
    + destruct (scanByte c st) as [st'|e] eqn:Eb.
      * apply IH; [lia|]. cbn [skipn]. now apply (nested_tail c).
      * intros [= ->]. now apply (scanByte_not_broken c st).
  - cbn [scanStep]. cbn [length] in Hlen. apply IH; [lia|exact Hn].
Qed.

Lemma safeParseFrom_nested b : forall s,
  nested s -> safeParseFrom b s <> Err errBrokenParenthesis.
Proof.
  induction b as [|b IH]; intros s Hs; cbn [safeParseFrom]; [discriminate|].
  destruct (scan (safeParseFrom b) 0 s scanInit) as [st|e] eqn:E.
  - apply finish_not_broken.
  - intros [= ->]. apply (scan_nested _ IH s 0 scanInit); [lia|exact Hs|exact E].
Qed.

Lemma cleanInput_nested s : nested s -> nested (cleanInput s).
Proof.
  intros [Hz Hp].
  destruct (cleanInput_decompose s) as (pre & post & Hdec & Hcount).
  remember (cleanInput s) as x eqn:Hx. clear Hx. subst s.
  assert (Hpre : balance pre = 0%Z).
  { unfold balance.
    rewrite (proj1 (Hcount "("%char (or_introl eq_refl))).
    now rewrite (proj1 (Hcount ")"%char (or_intror eq_refl))). }
  assert (Hpost : balance post = 0%Z).
  { unfold balance.
    rewrite (proj2 (Hcount "("%char (or_introl eq_refl))).
    now rewrite (proj2 (Hcount ")"%char (or_intror eq_refl))). }
  split.
  - rewrite !balance_app in Hz. lia.
  - intros j. specialize (Hp (length pre + j)).
    rewrite firstn_app, firstn_all2 in Hp by lia.
    replace (length pre + j - length pre) with j in Hp by lia.
    rewrite balance_app in Hp.
    destruct (Nat.le_ge_cases j (length x)) as [Hj|Hj].
    + rewrite firstn_app in Hp.
      replace (j - length x) with 0 in Hp by lia.
      cbn [firstn] in Hp. rewrite app_nil_r in Hp. lia.
    + rewrite firstn_all2 by lia.
      rewrite !balance_app in Hz. lia.
Qed.

(** X11: on an input whose parentheses are matched, the depth-5
    [parse] never reports a broken parenthesis. *)
Theorem parse_matched_parentheses (s : gostring) :
  wellNested s = true -> parse s <> Err errBrokenParenthesis.
Proof.
  intros H. apply wellNested_nested in H. unfold parse.
  destruct H as [Hz Hp]. unfold balance in Hz.
  replace (count s "(" =? count s ")") with true
    by (symmetry; apply Nat.eqb_eq; lia).
  cbn [negb]. apply safeParseFrom_nested, cleanInput_nested.
  split; [unfold balance; lia|exact Hp].
Qed.

Lemma parse_matched_parentheses_witness :
  parse "(a = b && (c = d || e != f)) && g NOT EXISTS"
  <> Err errBrokenParenthesis.
Proof.
  apply (parse_matched_parentheses
           "(a = b && (c = d || e != f)) && g NOT EXISTS").
  vm_compute. reflexivity.
Defined.

(** *** A pair of parentheses around a well-nested text *)

Lemma firstn_wrap_inner (s rest : gostring) j :
  j <= length s ->
  firstn (S j) (wrap s ++ rest) = "("%char :: firstn j s.
Proof.
  intros Hj. unfold wrap. cbn [app firstn]. f_equal.
  rewrite <- app_assoc, firstn_app.
  replace (j - length s) with 0 by lia. cbn [firstn]. apply app_nil_r.
Qed.

Lemma firstn_wrap_all (s rest : gostring) :
  firstn (S (S (length s))) (wrap s ++ rest) = wrap s.
Proof.
  replace (S (S (length s))) with (length (wrap s) + 0)
    by (unfold wrap; cbn [length]; rewrite length_app; cbn; lia).
  rewrite firstn_app_2. cbn [firstn]. apply app_nil_r.
Qed.

Lemma balance_wrap s : balance (wrap s) = balance s.
Proof.
  unfold wrap. rewrite balance_cons, balance_app, balance_cons, balance_nil.
  change (byteval "(" =? rLParen)%N with true.
  change (byteval ")" =? rLParen)%N with false.
  change (byteval ")" =? rRParen)%N with true. cbn iota. lia.
Qed.

Lemma matchingParenthesisPos_nested s rest :
  nested s -> matchingParenthesisPos (wrap s ++ rest) = Some (S (length s)).
Proof.
  intros [Hz Hp].
  assert (Hin : forall j, j <= length s ->
                  (1 <= balance (firstn (S j) (wrap s ++ rest)))%Z).
  { intros j Hj. rewrite firstn_wrap_inner by exact Hj.
    rewrite balance_cons. change (byteval "(" =? rLParen)%N with true.
    cbn iota. specialize (Hp j). lia. }
  assert (Hall : balance (firstn (S (S (length s))) (wrap s ++ rest)) = 0%Z).
  { now rewrite firstn_wrap_all, balance_wrap. }
  assert (Hlen : S (length s) < length (wrap s ++ rest)).
  { unfold wrap. cbn [app length]. rewrite !length_app. cbn [length]. lia. }
  pose proof (matchingParenthesisPos_least (wrap s ++ rest)) as H.
  destruct (matchingParenthesisPos (wrap s ++ rest)) as [pos|].
  - destruct H as (Hlt & Hzero & Hmin). f_equal.
    destruct (Nat.lt_trichotomy pos (S (length s))) as [Hc|[Hc|Hc]].
    + specialize (Hin pos ltac:(lia)). lia.
    + exact Hc.
    + now apply Hmin in Hc.
  - now apply H in Hlen.
Qed.

Lemma safeParseFrom_unwrap b s :
  nested s -> safeParseFrom (S b) (wrap s) = safeParseFrom b s.
Proof.
  intros Hs. cbn [safeParseFrom]. unfold wrap at 1. cbn [scan scanStep].
  change (byteval "(" =? rLParen)%N with true. cbn iota.
  pose proof (matchingParenthesisPos_nested s [] Hs) as Hm.
  rewrite app_nil_r in Hm. unfold wrap in Hm. rewrite Hm.
  rewrite firstn_wrapped.
  destruct (safeParseFrom b s) as [exp|e]; [|reflexivity].
  rewrite scan_skip_all by (rewrite length_app; cbn; lia).
  reflexivity.
Qed.

Lemma count_balance (s : gostring) :
  balance s = 0%Z -> (count s "(" =? count s ")") = true.
Proof. unfold balance. intros H. apply Nat.eqb_eq. lia. Qed.

(** X12: a pair of parentheses around a whole input changes nothing:
    when the input has matched parentheses, no outer white space or
    braces, and nests one level less than the limit, [parse] returns for
    the parenthesised input what it returns for the input. *)
Theorem parse_redundant_parentheses (s : gostring) :
  wellNested s = true -> cleanInput s = s ->
  nestedWithin (maxDepth - 1) s = true ->
  parse (wrap s) = parse s.
Proof.
  intros Hw Hclean Hfits. apply wellNested_nested in Hw.
  unfold parse. rewrite cleanInput_wrap, Hclean.
  rewrite (count_balance s (proj1 Hw)).
  rewrite (count_balance (wrap s)) by (rewrite balance_wrap; apply Hw).
  cbn [negb]. unfold safeParse. cbn [Nat.sub].
  rewrite (safeParseFrom_unwrap maxDepth s Hw).
  apply safeParseFrom_agree; [exact Hfits|].
  apply fitsBudget_mono. exact Hfits.
Qed.

Lemma parse_redundant_parentheses_witness :
  parse (wrap "a = b && (c = d || e = f)") = parse "a = b && (c = d || e = f)".
Proof.
  apply (parse_redundant_parentheses "a = b && (c = d || e = f)");
    vm_compute; reflexivity.
Defined.

(** ** [parseSimpleStatement] *)

Lemma leadingPad_rune c :
  leadingPad c = ((byteval c =? rSpace)%N || (byteval c =? rLParen)%N).
Proof.
  unfold leadingPad. f_equal.
  - destruct (Ascii.eqb_spec c " ") as [->|H]; [reflexivity|].
    symmetry. apply N.eqb_neq. intros E. apply H. now apply byteval_inj.
  - destruct (Ascii.eqb_spec c "(") as [->|H]; [reflexivity|].
    symmetry. apply N.eqb_neq. intros E. apply H. now apply byteval_inj.
Qed.

Lemma leadingPad_ascii c : leadingPad c = true -> (byteval c <? 128)%N = true.
Proof.
  unfold leadingPad. intros H. apply orb_true_iff in H as [H|H];
    apply Ascii.eqb_eq in H; now subst c.
Qed.

Lemma leafStep_pad c st :
  lbuf st = [] -> leadingPad c = true -> leafStep (byteval c) st = Ok st.
Proof.
  intros Hb Hp. unfold leafStep. rewrite Hb. cbn [length Nat.eqb andb].
  now rewrite <- leadingPad_rune, Hp.
Qed.

Lemma leafLoop_pad pad : forall st,
  lbuf st = [] -> forallb leadingPad pad = true ->
  leafLoop (map byteval pad) st = Ok st.
Proof.
  induction pad as [|c pad IH]; intros st Hb Hp; [reflexivity|].
  cbn [forallb] in Hp. apply andb_prop in Hp as [Hc Hp].
  cbn [map leafLoop]. rewrite (leafStep_pad c st Hb Hc). now apply IH.
Qed.

Lemma isASCII_pad pad : forallb leadingPad pad = true -> isASCII pad = true.
Proof.
  unfold isASCII. induction pad as [|c pad IH]; [reflexivity|].
  cbn [forallb]. intros H. apply andb_prop in H as [Hc Hp].
  now rewrite (leadingPad_ascii c Hc), IH.
Qed.

(** X13: spaces and opening parentheses before a fragment are
    ignored: [parseSimpleStatement] returns the same with and without
    them, whatever the fragment. *)
Theorem parseSimpleStatement_leading_pad (pad s : gostring) :
  forallb leadingPad pad = true ->
  parseSimpleStatement (pad ++ s) = parseSimpleStatement s.
Proof.
  intros Hp. unfold parseSimpleStatement.
  rewrite (runes_app_ascii pad s (isASCII_pad pad Hp)), leafLoop_app.
  now rewrite (leafLoop_pad pad leafInit eq_refl Hp).
Qed.

Lemma parseSimpleStatement_leading_pad_witness :
  parseSimpleStatement (str " (( " ++ str "a = b") = parseSimpleStatement "a = b".
Proof.
  apply (parseSimpleStatement_leading_pad " (( " "a = b"). reflexivity.
Defined.

Lemma contains_tail c s substr :
  contains (c :: s) substr = false -> contains s substr = false.
Proof. cbn [contains]. intros H. now apply orb_false_iff in H as [_ H]. Qed.

Lemma noOperator_tail c s : noOperator (c :: s) -> noOperator s.
Proof.
  intros [H1 H2]. split; eapply contains_tail; eassumption.
Qed.

Lemma isASCII_tail c s : isASCII (c :: s) = true -> isASCII s = true.
Proof. cbn [isASCII forallb]. intros H. now apply andb_prop in H as [_ H]. Qed.

Lemma leadingPad_false c :
  leadingPad c = false -> c <> " "%char /\ c <> "("%char.
Proof.
  unfold leadingPad. intros H. apply orb_false_iff in H as [H1 H2].
  split; intros ->; discriminate.
Qed.

(** A text without operator, read with an empty buffer: what is left in
    the buffer is the text without the spaces and parentheses it starts
    with. *)
Lemma leafLoop_skipLeading s : forall st,
  lbuf st = [] -> isASCII s = true -> noOperator s ->
  leafLoop (map byteval s) st =
  Ok {| lbuf := skipLeading s; lleft := lleft st; loperator := loperator st;
        foundOp := foundOp st |}.
Proof.
  induction s as [|c s IH]; intros st Hb Ha Hno.
  - cbn. rewrite <- Hb. now destruct st.
  - unfold skipLeading. cbn [dropWhile]. destruct (leadingPad c) eqn:Ec.
    + cbn [map leafLoop]. rewrite (leafStep_pad c st Hb Ec).
      apply IH; [exact Hb|now apply (isASCII_tail c)|now apply (noOperator_tail c)].
    + destruct (leadingPad_false c Ec) as [Hsp Hpar].
      now apply leafLoop_operand.
Qed.

(** X14: a fragment of ASCII characters that holds neither [=] nor
    [NOT EXISTS] is refused for its missing operator. *)
Theorem parseSimpleStatement_missing_operator (s : gostring) :
  isASCII s = true -> noOperator s ->
  parseSimpleStatement s = Err errMissingOperator.
Proof.
  intros Ha Hno. unfold parseSimpleStatement.
  rewrite (runes_ascii s Ha).
  now rewrite (leafLoop_skipLeading s leafInit eq_refl Ha Hno).
Qed.

Lemma parseSimpleStatement_missing_operator_witness :
  parseSimpleStatement " (userIdentity.type) " = Err errMissingOperator.
Proof.
  apply (parseSimpleStatement_missing_operator " (userIdentity.type) ");
    [reflexivity|split; reflexivity].
Defined.

Lemma leafStep_push st c :
  lbuf st <> [] -> (byteval c <? 128)%N = true ->
  hasSuffixComparisonOp (lbuf st ++ [c]) = None ->
  leafStep (byteval c) st =
  Ok {| lbuf := lbuf st ++ [c]; lleft := lleft st; loperator := loperator st;
        foundOp := foundOp st |}.
Proof.
  intros Hne Hc Hs. unfold leafStep.
  destruct (lbuf st) as [|b0 b] eqn:Eb; [congruence|].
  cbn [length Nat.eqb andb]. now rewrite (encodeRune_ascii _ Hc), Hs.
Qed.

Lemma leafStep_match st c op :
  lbuf st <> [] -> (byteval c <? 128)%N = true -> foundOp st = false ->
  hasSuffixComparisonOp (lbuf st ++ [c]) = Some op ->
  leafStep (byteval c) st =
  Ok {| lbuf := []; lleft := trimSpace (trimSuffix (lbuf st ++ [c]) op);
        loperator := op; foundOp := true |}.
Proof.
  intros Hne Hc Hf Hs. unfold leafStep.
  destruct (lbuf st) as [|b0 b] eqn:Eb; [congruence|].
  cbn [length Nat.eqb andb]. now rewrite (encodeRune_ascii _ Hc), Hs, Hf.
Qed.

(** The loop on the characters [p ++ [c]] of an operator, the buffer
    holding [x ++ p]: one more character without match. *)
Lemma leafLoop_operator_push x p c rest l o :
  x <> [] -> (byteval c <? 128)%N = true ->
  hasSuffixComparisonOp (x ++ p ++ [c]) = None ->
  leafLoop (byteval c :: rest)
    {| lbuf := x ++ p; lleft := l; loperator := o; foundOp := false |} =
  leafLoop rest
    {| lbuf := x ++ p ++ [c]; lleft := l; loperator := o; foundOp := false |}.
Proof.
  intros Hx Hc Hs. cbn [leafLoop]. rewrite leafStep_push; cbn [lbuf].
  - now rewrite <- app_assoc.
  - destruct x; [congruence|discriminate].
  - exact Hc.
  - now rewrite <- app_assoc.
Qed.

Lemma leafLoop_operator_match x p c l o op :
  x <> [] -> (byteval c <? 128)%N = true ->
  hasSuffixComparisonOp (x ++ p ++ [c]) = Some op -> p ++ [c] = op ->
  leafLoop [byteval c]
    {| lbuf := x ++ p; lleft := l; loperator := o; foundOp := false |} =
  Ok {| lbuf := []; lleft := trimSpace x; loperator := op; foundOp := true |}.
Proof.
  intros Hx Hc Hs Hop. cbn [leafLoop].
  rewrite (leafStep_match _ c op); cbn [lbuf foundOp].
  - rewrite <- app_assoc, Hop, trimSuffix_app. reflexivity.
  - destruct x; [congruence|discriminate].
  - exact Hc.
  - reflexivity.
  - now rewrite <- app_assoc.
Qed.

Ltac suffix_check :=
  unfold hasSuffixComparisonOp, hasSuffix; rewrite rev_app_distr; reflexivity.

(** The characters of each of the three operators, read after a left
    operand [x] without operator: the operator is recorded, and [x]
    without outer white space is the left operand. *)
Lemma leafLoop_comparison_operator x op :
  In op listComparisonOperator -> x <> [] ->
  (op = coEqual -> hasSuffix x (str "!") = false) ->
  leafLoop (map byteval op)
    {| lbuf := x; lleft := []; loperator := []; foundOp := false |} =
  Ok {| lbuf := []; lleft := trimSpace x; loperator := op; foundOp := true |}.
Proof.
  intros Hin Hx Hbang.
  rewrite <- (app_nil_r x) at 1.
  destruct Hin as [<-|[<-|[<-|[]]]].
  - cbn [coNotExists str list_ascii_of_string map].
    do 9 (rewrite leafLoop_operator_push;
          [cbn [app]|exact Hx|reflexivity|suffix_check]).
    apply leafLoop_operator_match;
      [exact Hx|reflexivity|suffix_check|reflexivity].
  - cbn [coNotEqual str list_ascii_of_string map].
    rewrite leafLoop_operator_push;
      [cbn [app]|exact Hx|reflexivity|suffix_check].
    apply leafLoop_operator_match;
      [exact Hx|reflexivity|suffix_check|reflexivity].
  - cbn [coEqual str list_ascii_of_string map].
    apply leafLoop_operator_match; [exact Hx|reflexivity| |reflexivity].
    specialize (Hbang eq_refl). unfold hasSuffix in Hbang.
    unfold hasSuffixComparisonOp, hasSuffix. cbn [app].
    rewrite rev_app_distr. cbn [find listComparisonOperator].
    cbn [rev app coNotExists coNotEqual coEqual str list_ascii_of_string hasPrefix].
    cbn [rev app str list_ascii_of_string hasPrefix] in Hbang.
    change (Ascii.eqb "S" "=") with false.
    change (Ascii.eqb "=" "=") with true. cbn [andb].
    now rewrite Hbang.
Qed.

Lemma isASCII_comparisonOperator op :
  In op listComparisonOperator -> isASCII op = true.
Proof. intros [<-|[<-|[<-|[]]]]; reflexivity. Qed.

Lemma parseSimpleStatement_operands (c : ascii) (L op R : gostring) :
  In op listComparisonOperator ->
  leadingPad c = false ->
  isASCII (c :: L) = true -> isASCII R = true ->
  noOperator (c :: L) -> noOperator R ->
  (op = coEqual -> hasSuffix (c :: L) (str "!") = false) ->
  parseSimpleStatement ((c :: L) ++ op ++ R) =
  Ok (se (trimSpace (c :: L)) op
         (trimSpace (trimRight (trimSpace (skipLeading R)) ")"))).
Proof.
  intros Hin Hc HaL HaR HnL HnR Hbang.
  destruct (leadingPad_false c Hc) as [Hsp Hpar].
  unfold parseSimpleStatement.
  rewrite runes_ascii
    by (rewrite !isASCII_app, HaL, HaR, (isASCII_comparisonOperator op Hin);
        reflexivity).
  rewrite map_app, leafLoop_app.
  rewrite (leafLoop_operand c L leafInit eq_refl Hsp Hpar HaL HnL).
  cbn [lleft loperator foundOp leafInit].
  rewrite map_app, leafLoop_app.
  rewrite (leafLoop_comparison_operator (c :: L) op Hin) by (discriminate || exact Hbang).
  rewrite (leafLoop_skipLeading R
             {| lbuf := []; lleft := trimSpace (c :: L); loperator := op;
                foundOp := true |} eq_refl HaR HnR).
  reflexivity.
Qed.

(** X15: a left operand, one of the three operators and a right
    operand, the operands being ASCII texts without operator, parse to
    the comparison of the two: the left operand without its outer white
    space, the right operand without the spaces and [(] before it and the
    white space and [)] after it.  ([!] before [=] reads as [!=].) *)
Theorem parseSimpleStatement_comparison (c : ascii) (L op R : gostring) :
  In op listComparisonOperator ->
  leadingPad c = false ->
  isASCII (c :: L) = true -> isASCII R = true ->
  noOperator (c :: L) -> noOperator R ->
  (op = coEqual -> hasSuffix (c :: L) (str "!") = false) ->
  parseSimpleStatement ((c :: L) ++ op ++ R) =
  Ok (se (trimSpace (c :: L)) op
         (trimSpace (trimRight (trimSpace (skipLeading R)) ")"))).
Proof. apply parseSimpleStatement_operands. Qed.

Lemma parseSimpleStatement_comparison_witness :
  parseSimpleStatement (str "$.errorCode " ++ str "NOT EXISTS" ++ str " ) ") =
  Ok (se "$.errorCode" coNotExists "").
Proof.
  apply (parseSimpleStatement_comparison "$" ".errorCode " "NOT EXISTS" " ) ");
    first [reflexivity|split; reflexivity|now left].
Defined.

(** ** Operands joined by one logical operator *)

Lemma walks_nil sub st : walks sub [] st st.
Proof. intros m R. reflexivity. Qed.

Lemma walks_app sub x y st st1 st2 :
  walks sub x st st1 -> walks sub y st1 st2 -> walks sub (x ++ y) st st2.
Proof.
  intros H1 H2 m R. rewrite length_app, <- Nat.add_assoc, <- app_assoc.
  rewrite H1. apply H2.
Qed.

Lemma walks_scan sub x st st' R :
  walks sub x st st' -> scan sub 0 (x ++ R) st = scan sub 0 R st'.
Proof.
  intros H. apply (scanPrefix_Ok sub (length x + 0)).
  rewrite H. destruct R; reflexivity.
Qed.

Lemma walks_group sub A a st :
  nested A -> sub A = Ok a ->
  walks sub (wrap A) st
    {| logicalOp := logicalOp st; expressions := expressions st ++ [a];
       buf := buf st |}.
Proof.
  intros HA Ha m R. pose proof (matchingParenthesisPos_nested A R HA) as Hm.
  replace (length (wrap A)) with (S (S (length A)))
    by (unfold wrap; cbn [length]; rewrite length_app; cbn; lia).
  unfold wrap in *. cbn [app Nat.add scanPrefix scanStep] in *.
  change (byteval "(" =? rLParen)%N with true. cbn iota. rewrite Hm.
  replace (firstn (S (length A) - 1) ((A ++ [")"%char]) ++ R)) with A.
  2:{ cbn [Nat.sub]. rewrite Nat.sub_0_r, <- app_assoc.
      now rewrite firstn_app, Nat.sub_diag, firstn_all, app_nil_r. }
  rewrite Ha.
  apply (scanPrefix_skip sub (A ++ [")"%char]) (S (length A)) m R).
  rewrite length_app. cbn. lia.
Qed.

Lemma walks_byte sub c st st' :
  (byteval c =? rLParen)%N = false -> scanByte c st = Ok st' ->
  walks sub [c] st st'.
Proof.
  intros Hc Hs m R. cbn [length Nat.add app].
  now rewrite (scanPrefix_byte sub c R st m Hc), Hs.
Qed.

Lemma quiet_parts x :
  quiet x = true ->
  isASCII x = true /\ count x "(" = 0 /\ count x ")" = 0 /\
  count x "&" = 0 /\ count x "|" = 0.
Proof.
  unfold quiet. intros H.
  repeat (apply andb_prop in H as [H ?]).
  repeat split; try now apply Nat.eqb_eq. exact H.
Qed.

Lemma quiet_intro x :
  isASCII x = true -> count x "(" = 0 -> count x ")" = 0 ->
  count x "&" = 0 -> count x "|" = 0 -> quiet x = true.
Proof. unfold quiet. now intros -> -> -> -> ->. Qed.

Lemma quiet_app a b : quiet (a ++ b) = true <-> quiet a = true /\ quiet b = true.
Proof.
  split.
  - intros H. apply quiet_parts in H as (Ha & H1 & H2 & H3 & H4).
    rewrite isASCII_app in Ha. apply andb_prop in Ha as [Ha Hb].
    rewrite count_app in H1, H2, H3, H4.
    split; apply quiet_intro; (assumption || lia).
  - intros [Ha Hb].
    apply quiet_parts in Ha as (Ha & H1 & H2 & H3 & H4).
    apply quiet_parts in Hb as (Hb & H1' & H2' & H3' & H4').
    apply quiet_intro; rewrite ?isASCII_app, ?count_app, ?Ha, ?Hb; (reflexivity || lia).
Qed.

Lemma spaces_quiet p : spaces p = true -> quiet p = true.
Proof.
  unfold spaces. induction p as [|c p IH]; [reflexivity|].
  cbn [forallb]. intros H. apply andb_prop in H as [Hc Hp].
  apply Ascii.eqb_eq in Hc. subst c.
  change (str " " ++ p) with ([" "%char] ++ p).
  apply (proj2 (quiet_app [" "%char] p)). split; [reflexivity|now apply IH].
Qed.

Lemma spaces_whiteSpace p : spaces p = true -> whiteSpace p.
Proof.
  unfold spaces. induction p as [|c p IH]; [constructor|].
  cbn [forallb]. intros H. apply andb_prop in H as [Hc Hp].
  apply Ascii.eqb_eq in Hc. subst c.
  apply (concat_cons spaceEncodings (str " ") p); [|now apply IH].
  vm_compute. tauto.
Qed.

Lemma spaces_app p q : spaces (p ++ q) = spaces p && spaces q.
Proof. apply forallb_app. Qed.

Lemma trimSpace_whiteSpace w : whiteSpace w -> trimSpace w = [].
Proof.
  intros H. rewrite <- (app_nil_r w).
  change (w ++ []) with (w ++ [] ++ []).
  now rewrite (trimSpace_surrounded w [] [] H (concat_nil _)).
Qed.

(** A quiet text does not end with a logical operator, and neither
    does a quiet text followed by one character of an operator. *)
Lemma quiet_last x a :
  quiet x = true -> a = "&"%char \/ a = "|"%char ->
  hasPrefix (rev x) [a] = false.
Proof.
  intros H Ha. apply quiet_parts in H as (_ & _ & _ & Hand & Hor).
  destruct (rev x) as [|h t] eqn:E; [reflexivity|].
  cbn [hasPrefix]. rewrite andb_true_r. apply Ascii.eqb_neq. intros <-.
  assert (Hin : In a x) by (apply in_rev; rewrite E; now left).
  destruct Ha as [-> | ->].
  - now apply (count_zero_not_in _ _ Hand).
  - now apply (count_zero_not_in _ _ Hor).
Qed.

Lemma quiet_no_suffix x : quiet x = true -> hasSuffixLogicalOp x = None.
Proof.
  intros H. unfold hasSuffixLogicalOp, hasSuffix.
  cbn [find listLogicalOperators loAnd loOr str list_ascii_of_string rev app].
  destruct (rev x) as [|h t] eqn:E; [reflexivity|].
  assert (Hh : In h x) by (apply in_rev; rewrite E; now left).
  apply quiet_parts in H as (_ & _ & _ & Hand & Hor).
  cbn [hasPrefix].
  destruct (Ascii.eqb_spec "&" h) as [<-|_];
    [now apply (count_zero_not_in _ _ Hand) in Hh|].
  destruct (Ascii.eqb_spec "|" h) as [<-|_];
    [now apply (count_zero_not_in _ _ Hor) in Hh|].
  reflexivity.
Qed.

Lemma quiet_head c x :
  quiet (c :: x) = true ->
  (byteval c <? 128)%N = true /\ (byteval c =? rLParen)%N = false.
Proof.
  intros H. apply quiet_parts in H as (Ha & Ho & _).
  cbn [isASCII forallb] in Ha. apply andb_prop in Ha as [Ha _].
  split; [exact Ha|]. apply N.eqb_neq. intros E.
  apply (count_zero_not_in _ _ Ho). left. symmetry. now apply byteval_inj.
Qed.

Lemma walks_quiet sub y : forall st,
  quiet (buf st ++ y) = true ->
  walks sub y st
    {| logicalOp := logicalOp st; expressions := expressions st;
       buf := buf st ++ y |}.
Proof.
  induction y as [|c y IH]; intros st Hq.
  - rewrite app_nil_r. destruct st. apply walks_nil.
  - change (c :: y) with ([c] ++ y).
    assert (Hq' : quiet ((buf st ++ [c]) ++ y) = true)
      by now rewrite <- app_assoc.
    destruct (proj1 (quiet_app _ _) Hq') as [Hq1 _].
    destruct (proj1 (quiet_app _ _) Hq1) as [_ Hc].
    destruct (quiet_head c [] Hc) as [Ha Hp].
    eapply walks_app.
    + apply (walks_byte sub c st); [exact Hp|].
      unfold scanByte. rewrite (encodeRune_ascii _ Ha).
      rewrite (quiet_no_suffix _ Hq1). reflexivity.
    + specialize (IH {| logicalOp := logicalOp st; expressions := expressions st;
                        buf := buf st ++ [c] |}).
      cbn [buf logicalOp expressions] in IH.
      rewrite <- app_assoc in IH. apply IH. exact Hq.
Qed.

(** The two characters of a logical operator read with a quiet buffer:
    the operator is recorded, and the buffer, when it is not blank, is
    parsed as a comparison. *)
Lemma walks_operator sub op st children :
  In op listLogicalOperators -> quiet (buf st) = true ->
  logicalOp st = [] \/ logicalOp st = op ->
  (if 0 <? length (trimSpace (buf st))
   then exists e, parseSimpleStatement (trimSpace (buf st)) = Ok e /\
                  children = expressions st ++ [e]
   else children = expressions st) ->
  walks sub op st {| logicalOp := op; expressions := children; buf := [] |}.
Proof.
  intros Hin Hq Hop Hch.
  assert (Hfirst : forall a, a = "&"%char \/ a = "|"%char ->
            scanByte a st =
            Ok {| logicalOp := logicalOp st; expressions := expressions st;
                  buf := buf st ++ [a] |}).
  { intros a Ha. unfold scanByte.
    assert (Hasc : (byteval a <? 128)%N = true) by (destruct Ha as [-> | ->]; reflexivity).
    rewrite (encodeRune_ascii _ Hasc).
    assert (Hs : hasSuffixLogicalOp (buf st ++ [a]) = None).
    { unfold hasSuffixLogicalOp, hasSuffix. rewrite rev_app_distr.
      cbn [find listLogicalOperators loAnd loOr str list_ascii_of_string rev app
           hasPrefix].
      pose proof (quiet_last _ "&" Hq (or_introl eq_refl)) as H1.
      pose proof (quiet_last _ "|" Hq (or_intror eq_refl)) as H2.
      cbn [hasPrefix] in H1, H2. rewrite H1, H2.
      now rewrite !andb_false_r. }
    now rewrite Hs. }
  assert (Hsecond : forall a, op = [a; a] -> a = "&"%char \/ a = "|"%char ->
            scanByte a {| logicalOp := logicalOp st; expressions := expressions st;
                          buf := buf st ++ [a] |} =
            Ok {| logicalOp := op; expressions := children; buf := [] |}).
  { intros a Hop2 Ha. unfold scanByte. cbn [buf logicalOp expressions].
    assert (Hasc : (byteval a <? 128)%N = true) by (destruct Ha as [-> | ->]; reflexivity).
    rewrite (encodeRune_ascii _ Hasc), <- app_assoc.
    change ([a] ++ [a]) with [a; a]. rewrite <- Hop2.
    assert (Hs : hasSuffixLogicalOp (buf st ++ op) = Some op).
    { unfold hasSuffixLogicalOp, hasSuffix. rewrite rev_app_distr.
      destruct Ha as [-> | ->]; subst op; reflexivity. }
    rewrite Hs, trimSuffix_app.
    assert (Hl : (if streq (logicalOp st) [] then op else logicalOp st) = op).
    { destruct Hop as [-> | ->]; [reflexivity|].
      now destruct (streq op []). }
    rewrite Hl, streq_self. cbn [negb].
    destruct (0 <? length (trimSpace (buf st))).
    - destruct Hch as (e & -> & ->). reflexivity.
    - now subst children. }
  destruct Hin as [<-|[<-|[]]].
  - change loAnd with (["&"%char] ++ ["&"%char]) at 1.
    eapply walks_app; apply walks_byte; try reflexivity.
    + apply Hfirst. now left.
    + apply Hsecond; [reflexivity|now left].
  - change loOr with (["|"%char] ++ ["|"%char]) at 1.
    eapply walks_app; apply walks_byte; try reflexivity.
    + apply Hfirst. now right.
    + apply Hsecond; [reflexivity|now right].
Qed.

Lemma trimSpace_length_pos (x : gostring) : x <> [] -> (0 <? length x) = true.
Proof. destruct x; [congruence|reflexivity]. Qed.

(** An operand followed by the operator: the loop adds the tree of the
    operand and records the operator. *)
Lemma walks_operand_operator sub op o e st :
  In op listLogicalOperators -> operandParses sub o e ->
  buf st = [] -> logicalOp st = [] \/ logicalOp st = op ->
  walks sub (operandText o ++ op) st
    {| logicalOp := op; expressions := expressions st ++ [e]; buf := [] |}.
Proof.
  intros Hin Ho Hb Hop. destruct o as [p1 A p2|x]; cbn [operandText operandParses] in *.
  - destruct Ho as (H1 & H2 & HA & He). apply wellNested_nested in HA.
    assert (Hq : quiet (p1 ++ p2) = true).
    { apply quiet_app. split; now apply spaces_quiet. }
    rewrite <- !app_assoc.
    eapply walks_app; [apply walks_quiet; rewrite Hb; now apply spaces_quiet|].
    eapply walks_app; [apply (walks_group sub A e _ HA He)|].
    eapply walks_app; [apply walks_quiet; cbn [buf]; rewrite Hb; exact Hq|].
    cbn [buf logicalOp expressions]. rewrite Hb. cbn [app].
    apply walks_operator; cbn [buf logicalOp expressions];
      [exact Hin|exact Hq|exact Hop|].
    rewrite trimSpace_whiteSpace
      by (apply spaces_whiteSpace; rewrite spaces_app, H1, H2; reflexivity).
    reflexivity.
  - destruct Ho as (Hq & Hne & He).
    eapply walks_app; [apply walks_quiet; rewrite Hb; exact Hq|].
    rewrite Hb. cbn [app].
    apply walks_operator; cbn [buf logicalOp expressions];
      [exact Hin|exact Hq|exact Hop|].
    rewrite (trimSpace_length_pos _ Hne). now exists e.
Qed.

(** The last operand and the end of [safeParse]. *)
Lemma scan_last_operand sub o e st :
  operandParses sub o e -> buf st = [] ->
  exists st',
    scan sub 0 (operandText o) st = Ok st' /\
    finish st' =
    match expressions st ++ [e] with
    | [x] => Ok x
    | l => Ok (Complex (logicalOp st) l)
    end.
Proof.
  intros Ho Hb. destruct o as [p1 A p2|x]; cbn [operandText operandParses] in *.
  - destruct Ho as (H1 & H2 & HA & He). apply wellNested_nested in HA.
    assert (Hq : quiet (p1 ++ p2) = true).
    { apply quiet_app. split; now apply spaces_quiet. }
    destruct st as [lo ex bu]. cbn [buf] in Hb. subst bu.
    eexists. split.
    + rewrite <- (app_nil_r (p1 ++ wrap A ++ p2)), <- !app_assoc.
      erewrite (walks_scan sub p1);
        [|apply walks_quiet; now apply spaces_quiet].
      erewrite (walks_scan sub (wrap A));
        [|apply (walks_group sub A e _ HA He)].
      erewrite (walks_scan sub p2); [|apply walks_quiet; exact Hq].
      reflexivity.
    + unfold finish. cbn [buf logicalOp expressions app].
      rewrite trimSpace_whiteSpace
        by (apply spaces_whiteSpace; rewrite spaces_app, H1, H2; reflexivity).
      cbn [length Nat.ltb Nat.leb].
      now destruct (ex ++ [e]) as [|x [|y l]].
  - destruct Ho as (Hq & Hne & He).
    destruct st as [lo ex bu]. cbn [buf] in Hb. subst bu.
    eexists. split.
    + rewrite <- (app_nil_r x) at 1.
      erewrite (walks_scan sub x); [|apply walks_quiet; exact Hq].
      reflexivity.
    + unfold finish. cbn [buf logicalOp expressions app].
      rewrite (trimSpace_length_pos _ Hne), He.
      now destruct (ex ++ [e]) as [|x0 [|y l]].
Qed.

(** The loop and the end of [safeParse] on operands joined by [op]:
    the trees of the operands follow, in order, the trees found before
    them. *)
Lemma scan_operands sub op : In op listLogicalOperators ->
  forall os es st,
    Forall2 (operandParses sub) os es -> os <> [] ->
    buf st = [] -> logicalOp st = [] \/ logicalOp st = op ->
    exists st',
      scan sub 0 (joinOperands op os) st = Ok st' /\
      finish st' =
      match expressions st ++ es with
      | [x] => Ok x
      | l => Ok (Complex (match os with
                          | [_] => logicalOp st
                          | _ => op
                          end) l)
      end.
Proof.
  intros Hin. induction os as [|o os IH]; intros es st Hall Hne Hb Hop;
    [congruence|].
  inversion Hall as [|? e ? es' Ho Hrest]; subst.
  destruct os as [|o' os].
  - inversion Hrest; subst. cbn [joinOperands].
    apply (scan_last_operand sub o e st Ho Hb).
  - cbn [joinOperands]. fold (joinOperands op (o' :: os)).
    pose proof (walks_operand_operator sub op o e st Hin Ho Hb Hop) as Hw.
    destruct (IH es'
                {| logicalOp := op; expressions := expressions st ++ [e];
                   buf := [] |} Hrest ltac:(discriminate) eq_refl
                (or_intror eq_refl)) as (st' & Hscan & Hfin).
    exists st'. split.
    + rewrite app_assoc, (walks_scan sub _ _ _ _ Hw). exact Hscan.
    + rewrite Hfin. cbn [expressions logicalOp]. rewrite <- app_assoc.
      cbn [app].
      assert (Hlen : 2 <= length (expressions st ++ e :: es')).
      { rewrite length_app. cbn [length].
        apply Forall2_length in Hrest. cbn [length] in Hrest. lia. }
      destruct (expressions st ++ e :: es') as [|x [|y l]];
        cbn [length] in Hlen; try lia.
      now destruct os.
Qed.

Lemma quiet_balance x : quiet x = true -> balance x = 0%Z.
Proof.
  intros H. apply quiet_parts in H as (_ & Ho & Hc & _). unfold balance.
  now rewrite Ho, Hc.
Qed.

Lemma operand_balance sub o e :
  operandParses sub o e -> balance (operandText o) = 0%Z.
Proof.
  destruct o as [p1 A p2|x]; cbn [operandParses operandText].
  - intros (H1 & H2 & HA & _). apply wellNested_nested in HA as [HA _].
    rewrite !balance_app, balance_wrap, HA.
    now rewrite (quiet_balance _ (spaces_quiet _ H1)),
                (quiet_balance _ (spaces_quiet _ H2)).
  - intros (Hq & _). now apply quiet_balance.
Qed.

Lemma joinOperands_balance sub op os es :
  In op listLogicalOperators -> Forall2 (operandParses sub) os es ->
  balance (joinOperands op os) = 0%Z.
Proof.
  intros Hin. assert (Hop : balance op = 0%Z)
    by (destruct Hin as [<-|[<-|[]]]; reflexivity).
  induction 1 as [|o e os es Ho Hrest IH]; [reflexivity|].
  cbn [joinOperands]. destruct os as [|o' os].
  - now apply (operand_balance sub o e).
  - fold (joinOperands op (o' :: os)).
    rewrite !balance_app, IH, Hop, (operand_balance sub o e Ho). reflexivity.
Qed.

Lemma parse_balanced s :
  balance (cleanInput s) = 0%Z -> parse s = safeParse (cleanInput s) 0.
Proof.
  intros H. unfold parse. unfold balance in H.
  rewrite !cleanInput_count in H by tauto.
  replace (count s "(" =? count s ")") with true
    by (symmetry; apply Nat.eqb_eq; lia).
  reflexivity.
Qed.

Lemma parse_operands s op os es :
  In op listLogicalOperators ->
  cleanInput s = joinOperands op os -> 2 <= length os ->
  Forall2 (operandParses (fun x => safeParse x 1)) os es ->
  parse s = Ok (Complex op es).
Proof.
  intros Hin Hs Hlen Hall.
  rewrite parse_balanced
    by (rewrite Hs; now apply (joinOperands_balance _ op os es Hin Hall)).
  rewrite Hs.
  change (safeParse (joinOperands op os) 0)
    with (match scan (fun x => safeParse x 1) 0 (joinOperands op os) scanInit with
          | Err e => Err e
          | Ok st => finish st
          end).
  destruct (scan_operands (fun x => safeParse x 1) op Hin os es scanInit Hall)
    as (st' & -> & ->); try reflexivity.
  - intros ->. cbn in Hlen. lia.
  - now left.
  - cbn [expressions scanInit app].
    pose proof (Forall2_length Hall) as Hl.
    destruct os as [|o1 [|o2 os]]; cbn [length] in Hlen; try lia.
    destruct es as [|e1 [|e2 es]]; cbn [length] in Hl; try lia.
    reflexivity.
Qed.

(** X16: two or more operands joined by one logical operator parse to
    the group with that operator and the trees of the operands, in the
    order they are written.  An operand is a text with matched
    parentheses put between parentheses, with nothing but spaces around
    them, that [safeParse] accepts one level down, or a text of ASCII
    characters without parenthesis, [&] and [|] that is not blank and
    that [parseSimpleStatement] accepts once trimmed; the input may carry
    white space and braces around the whole. *)
Theorem parse_joined_operands (s : gostring) (op : logicalOperator)
    (os : list operand) (es : list expression) :
  In op listLogicalOperators ->
  cleanInput s = joinOperands op os -> 2 <= length os ->
  Forall2 (operandParses (fun x => safeParse x 1)) os es ->
  parse s = Ok (Complex op es).
Proof. apply parse_operands. Qed.

Lemma parse_joined_operands_witness :
  parse "{ ($.a = 1) && $.b = 2 && ( $.c != 3 || $.d NOT EXISTS ) }" =
  Ok (ce loAnd [se "$.a" coEqual "1"; se "$.b" coEqual "2";
                ce loOr [se "$.c" coNotEqual "3"; se "$.d" coNotExists ""]]).
Proof.
  apply (parse_joined_operands _ loAnd
           [Group "" "$.a = 1" " "; Leaf " $.b = 2 ";
            Group " " " $.c != 3 || $.d NOT EXISTS " ""]).
  - now left.
  - vm_compute. reflexivity.
  - cbn. lia.
  - repeat constructor; vm_compute; (reflexivity || discriminate).
Defined.

Lemma isEquivalent_permutation op es es' :
  Permutation es es' -> isEquivalent (Complex op es) (Complex op es') = true.
Proof.
  intros H. apply isEquivalent_equiv.
  apply equiv_complex with (l' := es); [now symmetry|].
  clear. induction es; constructor; [apply equiv_refl|assumption].
Qed.

(** X17: the order in which the operands of one logical operator are
    written does not matter, and neither do the spaces around them: two
    inputs whose operands stand for the same trees up to order are
    equivalent for [areCloudWatchExpressionsEquivalent], without error. *)
Theorem operand_order_insignificant (s s' : gostring) (op : logicalOperator)
    (os os' : list operand) (es es' : list expression) :
  In op listLogicalOperators ->
  cleanInput s = joinOperands op os -> cleanInput s' = joinOperands op os' ->
  2 <= length os ->
  Forall2 (operandParses (fun x => safeParse x 1)) os es ->
  Forall2 (operandParses (fun x => safeParse x 1)) os' es' ->
  Permutation es es' ->
  areCloudWatchExpressionsEquivalent s s' = (true, None).
Proof.
  intros Hin Hs Hs' Hlen Hall Hall' Hperm.
  unfold areCloudWatchExpressionsEquivalent.
  rewrite (parse_operands s op os es Hin Hs Hlen Hall).
  rewrite (parse_operands s' op os' es' Hin Hs')
    by (try assumption;
        rewrite (Forall2_length Hall'), <- (Permutation_length Hperm),
                <- (Forall2_length Hall); assumption).
  now rewrite (isEquivalent_permutation op es es' Hperm).
Qed.

Lemma operand_order_insignificant_witness :
  areCloudWatchExpressionsEquivalent
    "{ ($.a = 1) && $.b = 2 && ( $.c != 3 || $.d NOT EXISTS ) }"
    "( $.c != 3 || $.d NOT EXISTS )&&$.b = 2&&($.a = 1)"
  = (true, None).
Proof.
  apply (operand_order_insignificant _ _ loAnd
           [Group "" "$.a = 1" " "; Leaf " $.b = 2 ";
            Group " " " $.c != 3 || $.d NOT EXISTS " ""]
           [Group "" " $.c != 3 || $.d NOT EXISTS " ""; Leaf "$.b = 2";
            Group "" "$.a = 1" ""]
           [se "$.a" coEqual "1"; se "$.b" coEqual "2";
            ce loOr [se "$.c" coNotEqual "3"; se "$.d" coNotExists ""]]
           [ce loOr [se "$.c" coNotEqual "3"; se "$.d" coNotExists ""];
            se "$.b" coEqual "2"; se "$.a" coEqual "1"]).
  - now left.
  - vm_compute. reflexivity.
  - vm_compute. reflexivity.
  - cbn. lia.
  - repeat constructor; vm_compute; (reflexivity || discriminate).
  - repeat constructor; vm_compute; (reflexivity || discriminate).
  - apply Permutation_rev.
Defined.

(** ** The depth-2 parser *)

Lemma notParen_spec r :
  notParen r = true -> (r =? rLParen)%N = false /\ (r =? rRParen)%N = false.
Proof.
  unfold notParen. intros H. apply andb_true_iff in H as [H1 H2].
  now apply negb_true_iff in H1, H2.
Qed.

Lemma notParen_intro r :
  (r =? rLParen)%N = false -> (r =? rRParen)%N = false -> notParen r = true.
Proof. unfold notParen. now intros -> ->. Qed.

Lemma notParen_normalize r : notParen r = true -> notParen (normalize r) = true.
Proof.
  unfold normalize. destruct (validRune r); [easy|reflexivity].
Qed.

Lemma notParen_map_normalize rs :
  forallb notParen rs = true -> forallb notParen (map normalize rs) = true.
Proof.
  induction rs as [|r rs IH]; [reflexivity|]. cbn [forallb map].
  intros H. apply andb_true_iff in H as [Hr Hrs].
  now rewrite (notParen_normalize r Hr), IH.
Qed.

Lemma encodeRunes_snoc rs r :
  encodeRunes (rs ++ [r]) = encodeRunes rs ++ encodeRune r.
Proof. rewrite encodeRunes_app. cbn. now rewrite app_nil_r. Qed.

(** A text written from runes that ends with an ASCII byte was written
    from that byte last. *)
Lemma encodeRunes_last rs t a :
  encodeRunes rs = t ++ [a] -> (byteval a <? 128)%N = true ->
  exists rs0, rs = rs0 ++ [byteval a] /\ encodeRunes rs0 = t.
Proof.
  intros He Ha.
  destruct (exists_last (l := rs)) as (rs0 & r & ->).
  { intros ->. destruct t; discriminate. }
  rewrite encodeRunes_snoc in He. exists rs0.
  destruct (r <? 128)%N eqn:Er.
  - rewrite (encodeRune_low r Er) in He. apply app_inj_tail in He as [Ht Hb].
    split; [|exact Ht]. subst a. unfold byteval, byte_of.
    rewrite N_ascii_embedding; [reflexivity|]. apply N.ltb_lt in Er. lia.
  - exfalso. destruct (encodeRune_high r Er) as [Hlen Hall].
    destruct (exists_last (l := encodeRune r)) as (e & l & Hel).
    { intros E. rewrite E in Hlen. cbn in Hlen. lia. }
    rewrite Hel in He, Hall. rewrite app_assoc in He.
    apply app_inj_tail in He as [_ ->].
    apply Forall_app in Hall as [_ Hl]. inversion Hl; subst.
    apply N.ltb_lt in Ha. lia.
Qed.

Lemma logicalOperator_bytes op :
  In op listLogicalOperators ->
  exists a, op = [a; a] /\ (byteval a <? 128)%N = true /\
            (byteval a =? rLParen)%N = false /\ (byteval a =? rRParen)%N = false.
Proof.
  intros [<-|[<-|[]]]; [exists "&"%char|exists "|"%char]; repeat split.
Qed.

(** Where the buffer ends with a logical operator, the text before the
    operator was written from the runes before its two. *)
Lemma encodeRunes_trimSuffix rs op :
  hasSuffixLogicalOp (encodeRunes rs) = Some op ->
  In op listLogicalOperators /\
  exists rs0, rs = rs0 ++ map byteval op /\
              trimSuffix (encodeRunes rs) op = encodeRunes rs0.
Proof.
  intros H. apply find_some in H as [Hin Hs]. split; [exact Hin|].
  apply hasSuffix_spec in Hs as (t & Ht).
  destruct (logicalOperator_bytes op Hin) as (a & -> & Ha & _).
  change [a; a] with ([a] ++ [a]) in Ht. rewrite app_assoc in Ht.
  destruct (encodeRunes_last rs _ a Ht Ha) as (rs1 & -> & H1).
  destruct (encodeRunes_last rs1 _ a H1 Ha) as (rs0 & -> & H0).
  exists rs0. split; [now rewrite <- app_assoc|].
  rewrite Ht, <- app_assoc. change ([a] ++ [a]) with [a; a].
  now rewrite trimSuffix_app.
Qed.

Lemma forallb_notParen_app a b :
  forallb notParen (a ++ b) = true ->
  forallb notParen a = true /\ forallb notParen b = true.
Proof. rewrite forallb_app. apply andb_true_iff. Qed.

Lemma quietPrefixes_prefix a b : quietPrefixes (a ++ b) -> quietPrefixes a.
Proof.
  intros H i Hi. specialize (H i). rewrite length_app in H.
  rewrite firstn_app in H. replace (i - length a) with 0 in H by lia.
  cbn [firstn] in H. rewrite app_nil_r in H. apply H. lia.
Qed.

Lemma quietPrefixes_snoc rs r :
  quietPrefixes rs -> hasSuffixLogicalOp (encodeRunes rs) = None ->
  quietPrefixes (rs ++ [r]).
Proof.
  intros Hq Hn i Hi. rewrite length_app in Hi. cbn [length] in Hi.
  rewrite firstn_app.
  destruct (Nat.eq_dec i (length rs)) as [->|Hne].
  - now rewrite firstn_all, Nat.sub_diag, app_nil_r.
  - replace (i - length rs) with 0 by lia. cbn [firstn]. rewrite app_nil_r.
    apply Hq. lia.
Qed.

Lemma quietPrefixes_one r : quietPrefixes [r].
Proof. intros [|i] Hi; [reflexivity|cbn in Hi; lia]. Qed.

Lemma quietPrefixes_nil : quietPrefixes [].
Proof. intros i Hi. cbn in Hi. lia. Qed.

Lemma quietPrefixes_normalize rs :
  quietPrefixes rs -> quietPrefixes (map normalize rs).
Proof.
  intros H i Hi. rewrite length_map in Hi.
  rewrite firstn_map, encodeRunes_normalize. now apply H.
Qed.

Lemma depth2_leaf_errors s e :
  Depth2.parseSimpleStatement s = Err e -> In e depth2Errors.
Proof.
  intros H. change (Depth2.parseSimpleStatement s) with (parseSimpleStatement s) in H.
  apply parseSimpleStatement_errors in H as [-> | ->]; cbn; tauto.
Qed.

(** On a calm text the loop of the depth-2 [safeParse] only fills its
    buffer: it finds no operator and makes no recursive call. *)
Lemma scanLoop_calm sub rest : forall pre st,
  Depth2.buf st = encodeRunes pre -> Depth2.isInsideSubExp st = false ->
  forallb notParen rest = true -> quietPrefixes (pre ++ rest) ->
  Depth2.scanLoop sub rest st =
  Ok {| Depth2.buf := encodeRunes (pre ++ rest);
        Depth2.parenthesisAcc := Depth2.parenthesisAcc st;
        Depth2.logicalOp := Depth2.logicalOp st;
        Depth2.expressions := Depth2.expressions st;
        Depth2.isInsideSubExp := false |}.
Proof.
  induction rest as [|r rest IH]; intros pre st Hb Hi Hp Hq.
  - rewrite app_nil_r, <- Hb, <- Hi. now destruct st.
  - cbn [forallb] in Hp. apply andb_true_iff in Hp as [Hr Hp].
    destruct (notParen_spec r Hr) as [Ho Hc].
    cbn [Depth2.scanLoop]. unfold Depth2.scanStep. rewrite Ho, Hc, Hi, Hb.
    assert (Hn : hasSuffixLogicalOp (encodeRunes pre) = None).
    { specialize (Hq (length pre)).
      rewrite firstn_app, firstn_all, Nat.sub_diag, app_nil_r in Hq.
      apply Hq. rewrite length_app. cbn. lia. }
    rewrite Hn.
    rewrite (IH (pre ++ [r])); cbn [Depth2.buf Depth2.isInsideSubExp
      Depth2.parenthesisAcc Depth2.logicalOp Depth2.expressions].
    + now rewrite <- app_assoc.
    + now rewrite encodeRunes_snoc.
    + reflexivity.
    + exact Hp.
    + now rewrite <- app_assoc.
Qed.

Lemma depth2_calm b d y :
  calm y -> Depth2.safeParseFrom (S b) d y = Depth2.parseSimpleStatement y.
Proof.
  intros (rs & -> & Hp & Hq). cbn [Depth2.safeParseFrom].
  rewrite runes_encodeRunes.
  rewrite (scanLoop_calm _ (map normalize rs) [] Depth2.scanInit eq_refl eq_refl
             (notParen_map_normalize rs Hp) (quietPrefixes_normalize rs Hq)).
  reflexivity.
Qed.

(** The step of the loop on a rune that is no parenthesis, outside a
    sub-expression: what it hands to the recursive call, if anything, is
    the buffer without the operator it ends with. *)
Lemma scanStep_outside sub r st pre :
  Depth2.buf st = encodeRunes pre -> Depth2.isInsideSubExp st = false ->
  notParen r = true ->
  match hasSuffixLogicalOp (encodeRunes pre) with
  | None =>
      Depth2.scanStep sub r st =
      Ok {| Depth2.buf := encodeRunes (pre ++ [r]);
            Depth2.parenthesisAcc := Depth2.parenthesisAcc st;
            Depth2.logicalOp := Depth2.logicalOp st;
            Depth2.expressions := Depth2.expressions st;
            Depth2.isInsideSubExp := false |}
  | Some op =>
      exists pre0, pre = pre0 ++ map byteval op /\
        match Depth2.scanStep sub r st with
        | Err e => e = errAlternating \/ sub (encodeRunes pre0) = Err e
        | Ok st' => Depth2.buf st' = encodeRunes [r] /\
                    Depth2.isInsideSubExp st' = false
        end
  end.
Proof.
  intros Hb Hi Hr. destruct (notParen_spec r Hr) as [Ho Hc].
  unfold Depth2.scanStep. rewrite Ho, Hc, Hi, Hb.
  destruct (hasSuffixLogicalOp (encodeRunes pre)) as [op|] eqn:Es.
  - destruct (encodeRunes_trimSuffix pre op Es) as (_ & pre0 & Hpre & ->).
    exists pre0. split; [exact Hpre|].
    destruct (negb _); [now left|].
    destruct (0 <? length (encodeRunes pre0)).
    + destruct (sub (encodeRunes pre0)) as [exp|e] eqn:E; [|now right].
      split; [cbn; now rewrite app_nil_r|reflexivity].
    + split; [cbn; now rewrite app_nil_r|reflexivity].
  - now rewrite encodeRunes_snoc.
Qed.

Lemma depth2Errors_alternating : In errAlternating depth2Errors.
Proof. cbn. tauto. Qed.

(** One level above the leaves: on a text without parentheses the loop
    hands only calm texts to the recursive call. *)
Lemma scanLoop_written sub rest :
  (forall y e, calm y -> sub y = Err e -> In e depth2Errors) ->
  forall pre st,
    Depth2.buf st = encodeRunes pre -> Depth2.isInsideSubExp st = false ->
    forallb notParen rest = true -> forallb notParen pre = true ->
    quietPrefixes pre ->
    match Depth2.scanLoop sub rest st with
    | Err e => In e depth2Errors
    | Ok st' => calm (Depth2.buf st')
    end.
Proof.
  intros Hsub. induction rest as [|r rest IH]; intros pre st Hb Hi Hp Hpre Hq.
  - cbn [Depth2.scanLoop]. exists pre. now rewrite Hb.
  - cbn [forallb] in Hp. apply andb_true_iff in Hp as [Hr Hp].
    cbn [Depth2.scanLoop].
    pose proof (scanStep_outside sub r st pre Hb Hi Hr) as Hstep.
    destruct (hasSuffixLogicalOp (encodeRunes pre)) as [op|] eqn:Es.
    + destruct Hstep as (pre0 & -> & Hstep).
      apply forallb_notParen_app in Hpre as [Hpre0 _].
      apply quietPrefixes_prefix in Hq.
      destruct (Depth2.scanStep sub r st) as [st'|e].
      * destruct Hstep as [Hb' Hi'].
        apply (IH [r] st' Hb' Hi' Hp); [cbn; now rewrite Hr|].
        apply quietPrefixes_one.
      * destruct Hstep as [->|Hs]; [apply depth2Errors_alternating|].
        apply (Hsub (encodeRunes pre0)); [|exact Hs]. now exists pre0.
    + rewrite Hstep.
      apply (IH (pre ++ [r])); cbn [Depth2.buf Depth2.isInsideSubExp];
        try reflexivity; [exact Hp| |now apply quietPrefixes_snoc].
      rewrite forallb_app, Hpre. cbn. now rewrite Hr.
Qed.

Lemma depth2_written b d x e :
  written x -> Depth2.safeParseFrom (S (S b)) d x = Err e -> In e depth2Errors.
Proof.
  intros (rs & -> & Hp).
  assert (Hsub : forall y e0, calm y ->
            Depth2.safeParseFrom (S b) (S d) y = Err e0 -> In e0 depth2Errors).
  { intros y e0 Hy. rewrite (depth2_calm b (S d) y Hy). apply depth2_leaf_errors. }
  remember (S b) as b1. cbn [Depth2.safeParseFrom].
  rewrite runes_encodeRunes.
  pose proof (scanLoop_written _ (map normalize rs) Hsub [] Depth2.scanInit
                eq_refl eq_refl (notParen_map_normalize rs Hp) eq_refl
                quietPrefixes_nil) as Hscan.
  destruct (Depth2.scanLoop _ _ _) as [st|e0]; [|now intros [= <-]].
  destruct (length (Depth2.expressions st) =? 0); [apply depth2_leaf_errors|].
  destruct (0 <? length (Depth2.buf st)); [|discriminate].
  destruct (Depth2.safeParseFrom b1 (S d) (Depth2.buf st)) as [exp|e0] eqn:E;
    [discriminate|].
  intros [= <-]. now apply (Hsub (Depth2.buf st)).
Qed.

Lemma calm_written y : calm y -> written y.
Proof. intros (rs & H1 & H2 & _). now exists rs. Qed.

(** At the top: whatever the input, the loop hands only texts without
    parentheses to the recursive call. *)
Lemma scanLoop_any sub rest :
  (forall x e, written x -> sub x = Err e -> In e depth2Errors) ->
  forall pre st,
    Depth2.buf st = encodeRunes pre -> forallb notParen pre = true ->
    match Depth2.scanLoop sub rest st with
    | Err e => In e depth2Errors
    | Ok st' => written (Depth2.buf st')
    end.
Proof.
  intros Hsub. induction rest as [|r rest IH]; intros pre st Hb Hpre.
  - cbn [Depth2.scanLoop]. exists pre. now rewrite Hb.
  - cbn [Depth2.scanLoop].
    destruct (notParen r) eqn:Hr.
    + destruct (Depth2.isInsideSubExp st) eqn:Hi.
      * destruct (notParen_spec r Hr) as [Ho Hc].
        unfold Depth2.scanStep. rewrite Ho, Hc, Hi, Hb, <- encodeRunes_snoc.
        assert (Hw : forallb notParen (pre ++ [r]) = true).
        { rewrite forallb_app, Hpre. cbn. now rewrite Hr. }
        destruct (Depth2.parenthesisAcc st =? 0)%Z.
        -- destruct (sub (encodeRunes (pre ++ [r]))) as [exp|e] eqn:E.
           ++ now apply (IH []).
           ++ apply (Hsub (encodeRunes (pre ++ [r]))); [|exact E].
              now exists (pre ++ [r]).
        -- now apply (IH (pre ++ [r])).
      * pose proof (scanStep_outside sub r st pre Hb Hi Hr) as Hstep.
        destruct (hasSuffixLogicalOp (encodeRunes pre)) as [op|] eqn:Es.
        -- destruct Hstep as (pre0 & -> & Hstep).
           apply forallb_notParen_app in Hpre as [Hpre0 _].
           destruct (Depth2.scanStep sub r st) as [st'|e].
           ++ destruct Hstep as [Hb' _].
              apply (IH [r] st' Hb'). cbn. now rewrite Hr.
           ++ destruct Hstep as [->|Hs]; [apply depth2Errors_alternating|].
              apply (Hsub (encodeRunes pre0)); [|exact Hs]. now exists pre0.
        -- rewrite Hstep. apply (IH (pre ++ [r])); [reflexivity|].
           rewrite forallb_app, Hpre. cbn. now rewrite Hr.
    + unfold Depth2.scanStep.
      destruct (r =? rLParen)%N eqn:Ho.
      * destruct (3 <? _)%Z; [cbn; tauto|]. now apply (IH pre).
      * destruct (r =? rRParen)%N eqn:Hc.
        -- destruct (_ <? 0)%Z; [cbn; tauto|]. now apply (IH pre).
        -- now rewrite (notParen_intro r Ho Hc) in Hr.
Qed.

Lemma depth2_any b d s e :
  Depth2.safeParseFrom (S (S (S b))) d s = Err e -> In e depth2Errors.
Proof.
  assert (Hsub : forall x e0, written x ->
            Depth2.safeParseFrom (S (S b)) (S d) x = Err e0 -> In e0 depth2Errors).
  { intros x e0 Hx. now apply depth2_written. }
  remember (S (S b)) as b2. cbn [Depth2.safeParseFrom].
  pose proof (scanLoop_any _ (runes s) Hsub [] Depth2.scanInit eq_refl eq_refl)
    as Hscan.
  destruct (Depth2.scanLoop _ _ _) as [st|e0]; [|now intros [= <-]].
  destruct (length (Depth2.expressions st) =? 0); [apply depth2_leaf_errors|].
  destruct (0 <? length (Depth2.buf st)); [|discriminate].
  destruct (Depth2.safeParseFrom b2 (S d) (Depth2.buf st)) as [exp|e0] eqn:E;
    [discriminate|].
  intros [= <-]. now apply (Hsub (Depth2.buf st)).
Qed.

(** X18: the depth-2 [parse] returns five errors and no other, each
    of them on some input.  The error of the depth guard of [safeParse]
    is not among them: what [safeParse] hands to itself holds no
    parenthesis and is cut at the logical operators, so the recursion
    ends, at the latest, two levels down, whatever the input. *)
Theorem depth2_parse_error_messages :
  (forall s e, Depth2.parse s = Err e -> In e depth2Errors) /\
  (forall e, In e depth2Errors -> exists s : gostring, Depth2.parse s = Err e) /\
  (forall s depth, Depth2.parse s <> Err (Depth2.errMaxDepthReached depth)).
Proof.
  assert (Hin : forall s e, Depth2.parse s = Err e -> In e depth2Errors).
  { intros s e. unfold Depth2.parse, Depth2.safeParse. cbn [Nat.sub].
    apply depth2_any. }
  split; [exact Hin|]. split.
  - intros e He. cbn in He.
    destruct He as [<-|[<-|[<-|[<-|[<-|[]]]]]].
    + now exists (str "((((a = b))))").
    + now exists (str "a = b)").
    + now exists (str "a = b && c = d || e = f").
    + now exists (str "a = b = c").
    + now exists (str "a").
  - intros s depth H. apply Hin in H. cbn in H.
    destruct H as [H|[H|[H|[H|[H|[]]]]]]; discriminate H.
Qed.

(** *** The shape of the trees of the depth-2 parser *)

Lemma parseSimpleStatement_simple s e :
  parseSimpleStatement s = Ok e -> exists x, e = Simple x.
Proof.
  unfold parseSimpleStatement.
  destruct (leafLoop (runes s) leafInit) as [st|]; [|discriminate].
  destruct (negb (foundOp st)); [discriminate|].
  intros [= <-]. eauto.
Qed.

Lemma depth2_leaf_shape s e :
  Depth2.parseSimpleStatement s = Ok e -> depth2Shape e = true.
Proof.
  intros H. change (Depth2.parseSimpleStatement s) with (parseSimpleStatement s) in H.
  destruct (parseSimpleStatement_simple s e H) as (x & ->).
  now apply parseSimpleStatement_shape in H.
Qed.

Lemma scanStep_shape2 sub r st st' :
  (forall x e, sub x = Ok e -> depth2Shape e = true) ->
  scanShape2 st -> Depth2.scanStep sub r st = Ok st' -> scanShape2 st'.
Proof.
  intros Hsub [Hop Hes]. unfold Depth2.scanStep.
  destruct (r =? rLParen)%N.
  { destruct (3 <? _)%Z; [discriminate|]. intros [= <-]. now split. }
  destruct (r =? rRParen)%N.
  { destruct (_ <? 0)%Z; [discriminate|]. intros [= <-]. now split. }
  destruct (Depth2.isInsideSubExp st).
  { destruct (_ =? 0)%Z.
    - destruct (sub _) as [exp|] eqn:E; [|discriminate].
      intros [= <-]. split; [exact Hop|]. cbn.
      rewrite forallb_app, Hes. cbn. now rewrite (Hsub _ _ E).
    - intros [= <-]. now split. }
  destruct (hasSuffixLogicalOp (Depth2.buf st)) as [op|] eqn:Eop.
  - apply hasSuffixLogicalOp_In in Eop.
    assert (Hop' : In (if streq (Depth2.logicalOp st) [] then op
                       else Depth2.logicalOp st) listLogicalOperators).
    { destruct (streq (Depth2.logicalOp st) []) eqn:Es; [exact Eop|].
      destruct Hop as [Hop|Hop]; [|exact Hop].
      rewrite Hop in Es. now rewrite streq_self in Es. }
    destruct (negb _); [discriminate|].
    destruct (0 <? _).
    + destruct (sub _) as [exp|] eqn:E; [|discriminate].
      intros [= <-]. split; cbn; [now right|].
      rewrite forallb_app, Hes. cbn. now rewrite (Hsub _ _ E).
    + intros [= <-]. split; cbn; [now right|exact Hes].
  - intros [= <-]. now split.
Qed.

Lemma scanLoop_shape2 sub rs : forall st st',
  (forall x e, sub x = Ok e -> depth2Shape e = true) ->
  scanShape2 st -> Depth2.scanLoop sub rs st = Ok st' -> scanShape2 st'.
Proof.
  induction rs as [|r rs IH]; intros st st' Hsub Hst H; cbn [Depth2.scanLoop] in H.
  - now injection H as <-.
  - destruct (Depth2.scanStep sub r st) as [st1|] eqn:E; [|discriminate].
    apply (IH st1 st' Hsub); [|exact H].
    now apply (scanStep_shape2 sub r st).
Qed.

Lemma depth2_shape b : forall d s e,
  Depth2.safeParseFrom b d s = Ok e -> depth2Shape e = true.
Proof.
  induction b as [|b IH]; intros d s e H; cbn [Depth2.safeParseFrom] in H;
    [discriminate|].
  destruct (Depth2.scanLoop _ _ _) as [st|] eqn:E; [|discriminate].
  apply (scanLoop_shape2 _ _ _ _ (IH (S d))) in E;
    [|split; [now left|reflexivity]].
  destruct E as [Hop Hes].
  destruct (length (Depth2.expressions st) =? 0) eqn:El;
    [now apply depth2_leaf_shape in H|].
  apply Nat.eqb_neq in El.
  assert (Hs : streq (Depth2.logicalOp st) []
               || existsb (streq (Depth2.logicalOp st)) listLogicalOperators = true).
  { destruct Hop as [-> | Hop]; [reflexivity|].
    rewrite (existsb_streq_In _ _ Hop). apply orb_true_r. }
  destruct (0 <? length (Depth2.buf st)).
  - destruct (Depth2.safeParseFrom b (S d) (Depth2.buf st)) as [exp|] eqn:Es;
      [|discriminate].
    injection H as <-. cbn [depth2Shape]. rewrite Hs, forallb_app, Hes.
    cbn [forallb]. rewrite (IH _ _ _ Es), length_app. cbn [length andb].
    replace (1 <=? length (Depth2.expressions st) + 1) with true
      by (symmetry; apply Nat.leb_le; lia).
    reflexivity.
  - injection H as <-. cbn [depth2Shape]. rewrite Hs, Hes.
    replace (1 <=? length (Depth2.expressions st)) with true
      by (symmetry; apply Nat.leb_le; lia).
    reflexivity.
Qed.

(** X19: every tree the depth-2 [parse] returns has the shape
    [depth2Shape]; in particular none of its groups is empty, where the
    depth-5 version returns the empty group on [{}]. *)
Theorem depth2_parse_result_shape (s : gostring) (e : expression) :
  Depth2.parse s = Ok e -> depth2Shape e = true.
Proof. unfold Depth2.parse, Depth2.safeParse. apply depth2_shape. Qed.

Lemma depth2_parse_result_shape_witness :
  depth2Shape (ce loOr [ce loAnd [se "a" coEqual "b"; se "c" coNotEqual "d"];
                        se "e" coNotExists ""]) = true.
Proof.
  apply (depth2_parse_result_shape "{ ((a = b && c != d)) || e NOT EXISTS }").
  vm_compute. reflexivity.
Defined.

(** *** Blank inputs *)

(** X20: on an input that is blank once its outer white space and
    braces are removed, the two versions differ: the depth-5 [parse]
    returns a group without operator and without children, the depth-2
    [parse] reports the missing operator. *)
Theorem parse_blank_input (s : gostring) :
  cleanInput s = [] ->
  parse s = Ok (Complex [] []) /\ Depth2.parse s = Err errMissingOperator.
Proof.
  intros H. split.
  - rewrite parse_balanced by (now rewrite H). now rewrite H.
  - unfold Depth2.parse. fold (cleanInput s). now rewrite H.
Qed.

Lemma parse_blank_input_witness :
  parse " {{ }} " = Ok (Complex [] []) /\
  Depth2.parse " {{ }} " = Err errMissingOperator.
Proof. apply (parse_blank_input " {{ }} "). vm_compute. reflexivity. Defined.

(** *** Four opening parentheses *)

Lemma opening_prefix (k : nat) : forall (s y post : gostring),
  repeat "("%char k ++ s = y ++ post -> count post "(" = 0 ->
  exists s', y = repeat "("%char k ++ s'.
Proof.
  induction k as [|k IH]; intros s y post H Hpost; [now exists y|].
  cbn [repeat app] in H. destruct y as [|c y].
  - cbn [app] in H. subst post. cbn in Hpost. discriminate.
  - injection H as <- H. destruct (IH s y post H Hpost) as (s' & ->).
    now exists s'.
Qed.

Lemma cleanInput_keeps_opening (k : nat) (s : gostring) :
  exists s', cleanInput (repeat "("%char k ++ s) = repeat "("%char k ++ s'.
Proof.
  destruct k as [|k]; [now exists (cleanInput s)|].
  destruct (cleanInput_decompose (repeat "("%char (S k) ++ s))
    as (pre & post & Hdec & Hcount).
  destruct (Hcount "("%char (or_introl eq_refl)) as [Hpre Hpost].
  destruct pre as [|c pre].
  - cbn [app] in Hdec. apply (opening_prefix (S k) s _ post Hdec Hpost).
  - cbn [repeat app] in Hdec. injection Hdec as <- _.
    cbn in Hpre. discriminate.
Qed.

(** X21: the depth-2 [parse] refuses every input that starts with
    four opening parentheses; three are accepted, and the depth-5 version
    accepts the four. *)
Theorem depth2_four_parentheses :
  (forall s : gostring,
      Depth2.parse (str "((((" ++ s) = Err Depth2.errNestedParenthesis) /\
  Depth2.parse "(((a = b)))" = Ok (se "a" coEqual "b") /\
  parse "((((a = b))))" = Ok (se "a" coEqual "b").
Proof.
  split; [|split; vm_compute; reflexivity].
  intros s. unfold Depth2.parse. fold (cleanInput (str "((((" ++ s)).
  destruct (cleanInput_keeps_opening 4 s) as (s' & Hs).
  change (repeat "("%char 4) with (str "((((") in Hs. rewrite Hs.
  unfold Depth2.safeParse. cbn [Nat.sub Depth2.safeParseFrom].
  rewrite (runes_app_ascii (str "((((") s' eq_refl).
  reflexivity.
Qed.

(** ** [cleanExpression] *)

Lemma count_cons (c x : ascii) (s : gostring) :
  count (x :: s) c = (if ascii_dec x c then 1 else 0) + count s c.
Proof. unfold count. cbn [count_occ]. now destruct (ascii_dec x c). Qed.

Lemma replaceFrom_removes c s : forall k, count (replaceFrom [c] [] k s) c = 0.
Proof.
  induction s as [|x s IH]; intros k; [reflexivity|].
  cbn [replaceFrom]. destruct k as [|k]; [|apply IH].
  cbn [hasPrefix]. rewrite andb_true_r.
  destruct (Ascii.eqb_spec c x) as [->|Hne]; cbn [length pred app]; [apply IH|].
  rewrite count_cons, IH. destruct (ascii_dec x c); [congruence|reflexivity].
Qed.

Lemma replaceFrom_count_le old new d s : forall k,
  count new d = 0 -> count (replaceFrom old new k s) d <= count s d.
Proof.
  induction s as [|x s IH]; intros k Hnew; [reflexivity|].
  cbn [replaceFrom]. rewrite (count_cons d x s). destruct k as [|k].
  - destruct (hasPrefix (x :: s) old).
    + rewrite count_app, Hnew. specialize (IH (pred (length old)) Hnew). lia.
    + rewrite count_cons. specialize (IH 0 Hnew). lia.
  - specialize (IH k Hnew). lia.
Qed.

Lemma replaceAll_keeps_zero s old new d :
  count new d = 0 -> count s d = 0 -> count (replaceAll s old new) d = 0.
Proof.
  intros Hnew Hs. pose proof (replaceFrom_count_le old new d s 0 Hnew). 
  unfold replaceAll. lia.
Qed.

Lemma trimSpace_count_le s d : count (trimSpace s) d <= count s d.
Proof.
  destruct (trimSpace_decompose s) as (pre & post & Hdec & _).
  rewrite Hdec at 2. rewrite !count_app. lia.
Qed.

Lemma contains_true s p :
  contains s p = true -> exists pre post, s = pre ++ p ++ post.
Proof.
  induction s as [|c s IH]; cbn [contains]; intros H.
  - rewrite orb_false_r in H. apply hasPrefix_spec in H as (t & ->).
    now exists [], t.
  - apply orb_true_iff in H as [H|H].
    + apply hasPrefix_spec in H as (t & ->). now exists [], t.
    + destruct (IH H) as (pre & post & ->). now exists (c :: pre), post.
Qed.

Lemma contains_substring pre s post p :
  contains (pre ++ s ++ post) p = false -> contains s p = false.
Proof.
  intros H. destruct (contains s p) eqn:E; [|reflexivity].
  destruct (contains_true s p E) as (a & b & ->).
  exfalso. apply (contains_false _ _ H (pre ++ a) (b ++ post)).
  now rewrite <- !app_assoc.
Qed.

(** Where the output of a replacement starts with [p], and [p] does
    not hold the first character of [new], the input starts with [p]. *)
Lemma replaceFrom_prefix old n0 new p : forall s,
  ~ In n0 p -> hasPrefix (replaceFrom old (n0 :: new) 0 s) p = true ->
  hasPrefix s p = true.
Proof.
  induction p as [|a p IH]; intros s Hn H; [reflexivity|].
  destruct s as [|c s]; [discriminate H|].
  cbn [replaceFrom] in H. destruct (hasPrefix (c :: s) old).
  - cbn [app hasPrefix] in H. apply andb_true_iff in H as [H _].
    apply Ascii.eqb_eq in H. subst. exfalso. apply Hn. now left.
  - cbn [hasPrefix] in *. apply andb_true_iff in H as [-> H]. cbn [andb].
    apply IH; [|exact H]. intros Hin. apply Hn. now right.
Qed.

Lemma replaceFrom_no_occurrence s : forall k,
  contains (replaceFrom (str "NOT EXISTS") notExistsLiteral k s)
           (str "NOT EXISTS") = false.
Proof.
  induction s as [|c s IH]; intros k; [reflexivity|].
  cbn [replaceFrom]. destruct k as [|k]; [|apply IH].
  destruct (hasPrefix (c :: s) (str "NOT EXISTS")) eqn:E.
  - specialize (IH (pred (length (str "NOT EXISTS")))).
    remember (replaceFrom _ _ (pred _) s) as o eqn:Ho. clear Ho.
    unfold notExistsLiteral.
    cbn [str list_ascii_of_string app contains hasPrefix].
    unfold dquote. cbn. exact IH.
  - cbn [contains]. rewrite (IH 0), orb_false_r.
    destruct (hasPrefix (c :: replaceFrom _ _ 0 s) (str "NOT EXISTS")) eqn:E';
      [|reflexivity].
    rewrite <- E. symmetry.
    apply (replaceFrom_prefix (str "NOT EXISTS") "="%char
             (tl notExistsLiteral) (str "NOT EXISTS") (c :: s)).
    + cbn. intros H. repeat (destruct H as [H|H]; [discriminate H|]). exact H.
    + change ("="%char :: tl notExistsLiteral) with notExistsLiteral.
      cbn [replaceFrom]. now rewrite E.
Qed.

Lemma replaceFrom_identity old new s :
  contains s old = false -> replaceFrom old new 0 s = s.
Proof.
  induction s as [|c s IH]; [reflexivity|].
  cbn [contains replaceFrom]. intros H. apply orb_false_iff in H as [-> H].
  now rewrite IH.
Qed.

Lemma contains_character (s : gostring) c : count s c = 0 -> contains s [c] = false.
Proof.
  induction s as [|x s IH]; [reflexivity|].
  rewrite count_cons. cbn [contains hasPrefix]. rewrite andb_true_r.
  destruct (ascii_dec x c) as [->|Hne]; [discriminate|].
  intros H. rewrite (IH H), orb_false_r. apply Ascii.eqb_neq. congruence.
Qed.

Lemma cleanExpression_clean s :
  (forall c, In c removedCharacters -> count s c = 0) ->
  contains s (str "NOT EXISTS") = false ->
  cleanExpression s = trimSpace s.
Proof.
  intros Hc Hn. unfold cleanExpression, replaceAll.
  rewrite (replaceFrom_identity (str "$") [] s)
    by (apply contains_character, Hc; cbn; tauto).
  rewrite (replaceFrom_identity (str ".") [] s)
    by (apply contains_character, Hc; cbn; tauto).
  rewrite (replaceFrom_identity (str "{") [] s)
    by (apply contains_character, Hc; cbn; tauto).
  rewrite (replaceFrom_identity (str "}") [] s)
    by (apply contains_character, Hc; cbn; tauto).
  now rewrite (replaceFrom_identity _ _ s Hn).
Qed.

Lemma cleanExpression_removed exp c :
  In c removedCharacters -> count (cleanExpression exp) c = 0.
Proof.
  intros Hin. unfold cleanExpression.
  pose proof (trimSpace_count_le
    (replaceAll (replaceAll (replaceAll (replaceAll (replaceAll exp "$" [])
       "." []) "{" []) "}" []) "NOT EXISTS" notExistsLiteral) c) as Hle.
  cbv zeta. 
  enough (count (replaceAll (replaceAll (replaceAll (replaceAll
            (replaceAll exp "$" []) "." []) "{" []) "}" [])
            "NOT EXISTS" notExistsLiteral) c = 0) by lia.
  assert (Hlit : count notExistsLiteral c = 0).
  { cbn in Hin. destruct Hin as [<-|[<-|[<-|[<-|[]]]]]; reflexivity. }
  apply replaceAll_keeps_zero; [exact Hlit|].
  cbn in Hin. destruct Hin as [<-|[<-|[<-|[<-|[]]]]].
  - do 3 (apply replaceAll_keeps_zero; [reflexivity|]).
    apply (replaceFrom_removes "$").
  - do 2 (apply replaceAll_keeps_zero; [reflexivity|]).
    apply (replaceFrom_removes ".").
  - apply replaceAll_keeps_zero; [reflexivity|].
    apply (replaceFrom_removes "{").
  - apply (replaceFrom_removes "}").
Qed.

Lemma cleanExpression_no_occurrence exp :
  contains (cleanExpression exp) (str "NOT EXISTS") = false.
Proof.
  unfold cleanExpression. cbv zeta.
  set (e := replaceAll (replaceAll (replaceAll (replaceAll exp "$" [])
              "." []) "{" []) "}" []).
  destruct (trimSpace_decompose (replaceAll e "NOT EXISTS" notExistsLiteral))
    as (pre & post & Hdec & _).
  apply (contains_substring pre _ post). rewrite <- Hdec.
  apply replaceFrom_no_occurrence.
Qed.

Example cleanExpression_example :
  cleanExpression "{ $.errorCode NOT EXISTS }" =
  str "errorCode = " ++ dquote :: str "__NOT_EXISTS__" ++ [dquote].
Proof. vm_compute. reflexivity. Qed.


(** ** Comparisons, end to end *)

(** A quiet input is parsed as one comparison. *)
Lemma parse_leaf s :
  quiet (cleanInput s) = true -> cleanInput s <> [] ->
  parse s = parseSimpleStatement (cleanInput s).
Proof.
  intros Hq Hne.
  rewrite parse_balanced by (now apply quiet_balance).
  unfold safeParse. cbn [Nat.sub safeParseFrom].
  rewrite <- (app_nil_r (cleanInput s)) at 1.
  erewrite (walks_scan _ (cleanInput s));
    [|apply walks_quiet; exact Hq].
  cbn [scan]. unfold finish. cbn [buf expressions logicalOp scanInit app].
  rewrite cleanInput_trimmed, (trimSpace_length_pos _ Hne).
  now destruct (parseSimpleStatement (cleanInput s)).
Qed.

Lemma contains_app_space s p c :
  contains s p = false -> hasSuffix p [c] = false -> p <> [] ->
  contains (s ++ [c]) p = false.
Proof.
  intros Hs Hp Hne. destruct (contains (s ++ [c]) p) eqn:E; [|reflexivity].
  exfalso. destruct (contains_true _ _ E) as (pre & post & Heq).
  destruct (exists_last (l := post)) as (post' & x & ->).
  - intros ->. rewrite app_nil_r in Heq.
    destruct (exists_last Hne) as (p' & y & ->).
    rewrite app_assoc in Heq. apply app_inj_tail in Heq as [_ <-].
    unfold hasSuffix in Hp. rewrite rev_app_distr in Hp. cbn in Hp.
    now rewrite Ascii.eqb_refl in Hp.
  - rewrite !app_assoc in Heq. apply app_inj_tail in Heq as [Heq _].
    apply (contains_false _ _ Hs pre post'). now rewrite Heq, <- app_assoc.
Qed.

Lemma noOperator_space_after a : noOperator a -> noOperator (a ++ str " ").
Proof.
  intros [H1 H2]. split; apply contains_app_space; try assumption;
    (reflexivity || discriminate).
Qed.

Lemma noOperator_space_before a : noOperator a -> noOperator (str " " ++ a).
Proof.
  intros [H1 H2]. split; cbn [app str list_ascii_of_string contains];
    [rewrite H1|rewrite H2]; reflexivity.
Qed.

Lemma trimRight_absent (x : gostring) c : count x c = 0 -> trimRight x c = x.
Proof.
  intros H. unfold trimRight.
  assert (Hd : dropWhile (Ascii.eqb c) (rev x) = rev x).
  { destruct (rev x) as [|h t] eqn:E; [reflexivity|].
    cbn [dropWhile]. destruct (Ascii.eqb_spec c h) as [->|_]; [|reflexivity].
    exfalso. apply (count_zero_not_in _ _ H). apply in_rev. rewrite E. now left. }
  now rewrite Hd, rev_involutive.
Qed.

Lemma isEquivalent_swapped x op y :
  isEquivalent (se x op y) (se y op x) = true.
Proof.
  apply isEquivalent_equiv. constructor. apply simpleEquivalent_spec.
  cbn. tauto.
Qed.

(** The comparison of two operands written with one space around the
    operator. *)
Lemma parse_comparison s a op b :
  In op listComparisonOperator ->
  cleanInput s = a ++ str " " ++ op ++ str " " ++ b ->
  comparisonOperand a -> comparisonOperand b ->
  parse s = Ok (se (trimSpace a) op (trimSpace b)).
Proof.
  intros Hin Hs (Hqa & Hna & Hnea & Hsa) (Hqb & Hnb & Hneb & Hsb).
  assert (Hqop : quiet op = true)
    by (destruct Hin as [<-|[<-|[<-|[]]]]; reflexivity).
  assert (Hq : quiet (cleanInput s) = true).
  { rewrite Hs. repeat (apply quiet_app; split); (assumption || reflexivity). }
  assert (Hne : cleanInput s <> []).
  { rewrite Hs. destruct a; [congruence|discriminate]. }
  rewrite (parse_leaf s Hq Hne), Hs. clear Hq Hne.
  destruct a as [|c a']; [congruence|].
  assert (Hc : leadingPad c = false).
  { unfold skipLeading in Hsa. cbn [dropWhile] in Hsa.
    destruct (leadingPad c); [|reflexivity].
    exfalso. pose proof (dropWhile_decompose leadingPad a') as (pre & Hp & _).
    apply (f_equal (@length ascii)) in Hsa, Hp. rewrite length_app in Hp.
    cbn [length] in Hsa. lia. }
  replace ((c :: a') ++ str " " ++ op ++ str " " ++ b)
    with ((c :: a' ++ str " ") ++ op ++ (str " " ++ b))
    by (cbn [app]; now rewrite <- !app_assoc).
  rewrite parseSimpleStatement_operands.
  - change (c :: a' ++ str " ") with ([] ++ (c :: a') ++ str " ").
    rewrite (trimSpace_surrounded [] (c :: a') (str " ")
               (concat_nil _) whiteSpace_space).
    assert (Hsk : skipLeading (str " " ++ b) = b).
    { unfold skipLeading in *. cbn [app str list_ascii_of_string dropWhile].
      change (leadingPad " ") with true. cbn iota. exact Hsb. }
    rewrite Hsk, trimRight_absent.
    + now rewrite trimSpace_idempotent.
    + apply quiet_parts in Hqb as (_ & _ & Hcb & _).
      pose proof (trimSpace_count_le b ")"). lia.
  - exact Hin.
  - exact Hc.
  - change (c :: a' ++ str " ") with ((c :: a') ++ str " ").
    rewrite isASCII_app. apply quiet_parts in Hqa as (-> & _). reflexivity.
  - change (str " " ++ b) with ([" "%char] ++ b).
    rewrite isASCII_app. apply quiet_parts in Hqb as (-> & _). reflexivity.
  - now apply (noOperator_space_after (c :: a')).
  - now apply noOperator_space_before.
  - intros _. change (c :: a' ++ str " ") with ((c :: a') ++ str " ").
    unfold hasSuffix. rewrite rev_app_distr. reflexivity.
Qed.

(** X23: the order of the two operands of a comparison does not
    matter in the text either: [a op b] and [b op a], written with one
    space on each side of the operator, are equivalent for
    [areCloudWatchExpressionsEquivalent], without error.  The operands
    are texts of ASCII characters, not empty, without parenthesis, [&],
    [|] and comparison operator, that do not start with a space. *)
Theorem comparison_operand_order (s s' a op b : gostring) :
  In op listComparisonOperator ->
  cleanInput s = a ++ str " " ++ op ++ str " " ++ b ->
  cleanInput s' = b ++ str " " ++ op ++ str " " ++ a ->
  comparisonOperand a -> comparisonOperand b ->
  areCloudWatchExpressionsEquivalent s s' = (true, None).
Proof.
  intros Hin Hs Hs' Ha Hb. unfold areCloudWatchExpressionsEquivalent.
  rewrite (parse_comparison s a op b Hin Hs Ha Hb).
  rewrite (parse_comparison s' b op a Hin Hs' Hb Ha).
  now rewrite isEquivalent_swapped.
Qed.

Lemma comparison_operand_order_witness :
  areCloudWatchExpressionsEquivalent
    "{ $.eventName != DeleteGroupPolicy }" "DeleteGroupPolicy != $.eventName"
  = (true, None).
Proof.
  apply (comparison_operand_order _ _ "$.eventName" "!=" "DeleteGroupPolicy").
  - right. now left.
  - vm_compute. reflexivity.
  - vm_compute. reflexivity.
  - repeat split; (reflexivity || discriminate).
  - repeat split; (reflexivity || discriminate).
Defined.

(** ** Spaces after a fragment, braces around an input *)

Lemma leafLoop_spaces pad : forall st,
  spaces pad = true ->
  leafLoop (map byteval pad) st =
  Ok {| lbuf := match lbuf st with
                | [] => []
                | _ :: _ => lbuf st ++ pad
                end;
        lleft := lleft st; loperator := loperator st; foundOp := foundOp st |}.
Proof.
  induction pad as [|c pad IH]; intros st Hp.
  - cbn [map leafLoop]. destruct st as [b l o f]. cbn [lbuf lleft loperator foundOp].
    destruct b; [reflexivity|now rewrite app_nil_r].
  - unfold spaces in Hp. cbn [forallb] in Hp. apply andb_true_iff in Hp as [Hc Hp].
    apply Ascii.eqb_eq in Hc. subst c. cbn [map leafLoop].
    destruct (lbuf st) as [|b0 b] eqn:Eb.
    + rewrite (leafStep_pad " " st Eb eq_refl), (IH st Hp), Eb. reflexivity.
    + rewrite leafStep_push; rewrite ?Eb; try discriminate; try reflexivity.
      * rewrite (IH _ Hp). cbn [lbuf lleft loperator foundOp app].
        now rewrite <- app_assoc.
      * unfold hasSuffixComparisonOp, hasSuffix.
        change (b0 :: b) with ([b0] ++ b). rewrite <- app_assoc, !rev_app_distr.
        reflexivity.
Qed.

(** X24: spaces after a fragment of ASCII characters are ignored:
    [parseSimpleStatement] returns the same with and without them. *)
Theorem parseSimpleStatement_trailing_spaces (s pad : gostring) :
  isASCII s = true -> spaces pad = true ->
  parseSimpleStatement (s ++ pad) = parseSimpleStatement s.
Proof.
  intros Ha Hp. unfold parseSimpleStatement.
  assert (Hpa : isASCII pad = true).
  { apply quiet_parts. now apply spaces_quiet. }
  rewrite (runes_ascii (s ++ pad)) by (now rewrite isASCII_app, Ha, Hpa).
  rewrite (runes_ascii s Ha), map_app, leafLoop_app.
  destruct (leafLoop (map byteval s) leafInit) as [st|e]; [|reflexivity].
  rewrite (leafLoop_spaces pad st Hp). cbn [foundOp lleft loperator lbuf].
  destruct (negb (foundOp st)); [reflexivity|].
  destruct (lbuf st) as [|b0 b]; [reflexivity|].
  change ((b0 :: b) ++ pad) with ([] ++ (b0 :: b) ++ pad).
  now rewrite (trimSpace_surrounded [] (b0 :: b) pad (concat_nil _)
                 (spaces_whiteSpace pad Hp)).
Qed.

Lemma parseSimpleStatement_trailing_spaces_witness :
  parseSimpleStatement (str "a = b c" ++ str "   ") = parseSimpleStatement "a = b c".
Proof.
  apply (parseSimpleStatement_trailing_spaces "a = b c" "   "); reflexivity.
Defined.

Lemma trimLeft_absent (x : gostring) c : count x c = 0 -> trimLeft x c = x.
Proof.
  intros H. unfold trimLeft. destruct x as [|h t]; [reflexivity|].
  cbn [dropWhile]. destruct (Ascii.eqb_spec c h) as [->|_]; [|reflexivity].
  rewrite count_cons in H. destruct (ascii_dec h h); [discriminate|congruence].
Qed.

Lemma cleanInput_braces (s : gostring) :
  count s "{" = 0 -> count s "}" = 0 ->
  cleanInput ("{"%char :: s ++ ["}"%char]) = cleanInput s.
Proof.
  intros Ho Hc.
  assert (Hfix : trimSpace ("{"%char :: s ++ ["}"%char]) = "{"%char :: s ++ ["}"%char]).
  { apply trimSpace_fixed; [reflexivity|].
    cbn [rev]. rewrite rev_app_distr. reflexivity. }
  assert (Hs : cleanInput s = trimSpace s).
  { unfold cleanInput.
    rewrite trimLeft_absent by (pose proof (trimSpace_count_le s "{"); lia).
    rewrite trimRight_absent by (pose proof (trimSpace_count_le s "}"); lia).
    apply trimSpace_idempotent. }
  rewrite Hs. unfold cleanInput. rewrite Hfix.
  assert (Hl : trimLeft ("{"%char :: s ++ ["}"%char]) "{" = s ++ ["}"%char]).
  { unfold trimLeft. cbn [dropWhile]. change (Ascii.eqb "{" "{") with true.
    cbn iota. apply (trimLeft_absent (s ++ ["}"%char])).
    rewrite count_app, Ho. reflexivity. }
  rewrite Hl.
  assert (Hr : trimRight (s ++ ["}"%char]) "}" = s).
  { unfold trimRight. rewrite rev_app_distr. cbn [rev app dropWhile].
    change (Ascii.eqb "}" "}") with true. cbn iota.
    apply (trimRight_absent s "}" Hc). }
  now rewrite Hr.
Qed.

(** X25: braces around an input that holds none are optional: both
    versions of [parse] return the same with and without them. *)
Theorem parse_outer_braces (s : gostring) :
  count s "{" = 0 -> count s "}" = 0 ->
  parse ("{"%char :: s ++ ["}"%char]) = parse s /\
  Depth2.parse ("{"%char :: s ++ ["}"%char]) = Depth2.parse s.
Proof.
  intros Ho Hc. split.
  - unfold parse. rewrite (cleanInput_braces s Ho Hc).
    rewrite !count_cons, !count_app. cbn [count count_occ].
    destruct (ascii_dec "{" "(") as [E|_]; [discriminate E|].
    destruct (ascii_dec "{" ")") as [E|_]; [discriminate E|].
    destruct (ascii_dec "}" "(") as [E|_]; [discriminate E|].
    destruct (ascii_dec "}" ")") as [E|_]; [discriminate E|].
    now rewrite !Nat.add_0_r.
  - unfold Depth2.parse. fold (cleanInput ("{"%char :: s ++ ["}"%char])).
    fold (cleanInput s). now rewrite (cleanInput_braces s Ho Hc).
Qed.

Lemma parse_outer_braces_witness :
  parse "{ $.a = 1 && $.b = 2 }" = parse " $.a = 1 && $.b = 2 " /\
  Depth2.parse "{ $.a = 1 && $.b = 2 }" = Depth2.parse " $.a = 1 && $.b = 2 ".
Proof.
  apply (parse_outer_braces " $.a = 1 && $.b = 2 "); reflexivity.
Defined.

(** ** The two versions on operands without parentheses *)

Lemma scanLoop2_app sub rs1 : forall rs2 st,
  Depth2.scanLoop sub (rs1 ++ rs2) st =
  match Depth2.scanLoop sub rs1 st with
  | Err e => Err e
  | Ok st' => Depth2.scanLoop sub rs2 st'
  end.
Proof.
  induction rs1 as [|r rs1 IH]; intros rs2 st; [reflexivity|].
  cbn [app Depth2.scanLoop]. destruct (Depth2.scanStep sub r st); [apply IH|reflexivity].
Qed.

Lemma quiet_plain x : quiet x = true -> plain x.
Proof.
  intros H. apply quiet_parts in H as (Ha & Ho & Hc & Hand & Hor).
  split; [exact Ha|now apply count_zero_not_in|now apply count_zero_not_in|].
  intros op pre post [<-|[<-|[]]] ->.
  - apply (count_zero_not_in _ _ Hand). apply in_or_app. right. now left.
  - apply (count_zero_not_in _ _ Hor). apply in_or_app. right. now left.
Qed.

Lemma encodeRunes_ascii x : isASCII x = true -> encodeRunes (map byteval x) = x.
Proof.
  induction x as [|c x IH]; [reflexivity|].
  cbn [isASCII forallb map]. intros H. apply andb_prop in H as [Hc Hx].
  rewrite encodeRunes_cons, (encodeRune_ascii c Hc). cbn [app].
  f_equal. now apply IH.
Qed.

Lemma quiet_firstn x i : quiet x = true -> quiet (firstn i x) = true.
Proof.
  intros H. rewrite <- (firstn_skipn i x) in H.
  now apply quiet_app in H as [H _].
Qed.

(** A quiet text is calm: the depth-2 [safeParse] parses it as one
    comparison, at every level. *)
Lemma quiet_calm x : quiet x = true -> calm x.
Proof.
  intros H. pose proof (quiet_parts x H) as (Ha & Ho & Hc & _).
  exists (map byteval x). split; [now rewrite encodeRunes_ascii|]. split.
  - apply forallb_forall. intros r Hr. apply in_map_iff in Hr as (c & <- & Hin).
    apply notParen_intro; apply N.eqb_neq; intros E.
    + apply (count_zero_not_in _ _ Ho). now rewrite <- (byteval_inj _ "("%char E).
    + apply (count_zero_not_in _ _ Hc). now rewrite <- (byteval_inj _ ")"%char E).
  - intros i Hi. rewrite firstn_map, encodeRunes_ascii.
    + apply quiet_no_suffix. now apply quiet_firstn.
    + apply quiet_parts. now apply quiet_firstn.
Qed.

(** Spaces around a fragment do not change what it parses to. *)
Lemma parseSimpleStatement_spaced pad1 x pad2 :
  isASCII x = true -> spaces pad1 = true -> spaces pad2 = true ->
  parseSimpleStatement (pad1 ++ x ++ pad2) = parseSimpleStatement x.
Proof.
  intros Ha H1 H2. unfold parseSimpleStatement.
  assert (Hp1 : forallb leadingPad pad1 = true).
  { unfold spaces in H1. rewrite forallb_forall in *. intros c Hc.
    specialize (H1 c Hc). apply Ascii.eqb_eq in H1. now subst c. }
  assert (Hpa : isASCII pad2 = true).
  { apply quiet_parts. now apply spaces_quiet. }
  rewrite (runes_app_ascii pad1 _ (isASCII_pad pad1 Hp1)), leafLoop_app.
  rewrite (leafLoop_pad pad1 leafInit eq_refl Hp1).
  rewrite (runes_ascii (x ++ pad2)) by (now rewrite isASCII_app, Ha, Hpa).
  rewrite (runes_ascii x Ha), map_app, leafLoop_app.
  destruct (leafLoop (map byteval x) leafInit) as [st|e]; [|reflexivity].
  rewrite (leafLoop_spaces pad2 st H2). cbn [foundOp lleft loperator lbuf].
  destruct (negb (foundOp st)); [reflexivity|].
  destruct (lbuf st) as [|b0 b]; [reflexivity|].
  change ((b0 :: b) ++ pad2) with ([] ++ (b0 :: b) ++ pad2).
  now rewrite (trimSpace_surrounded [] (b0 :: b) pad2 (concat_nil _)
                 (spaces_whiteSpace pad2 H2)).
Qed.

Lemma flatOperand_depth2 b d x e :
  flatOperand x e -> Depth2.safeParseFrom (S b) d x = Ok e.
Proof.
  intros (Hq & Hne & (pad1 & pad2 & H1 & H2 & Hx) & He).
  rewrite (depth2_calm b d x (quiet_calm x Hq)).
  change (Depth2.parseSimpleStatement x) with (parseSimpleStatement x).
  rewrite Hx, parseSimpleStatement_spaced; [exact He| |exact H1|exact H2].
  apply quiet_parts. rewrite Hx in Hq.
  apply quiet_app in Hq as [_ Hq]. now apply quiet_app in Hq as [Hq _].
Qed.

Lemma flatOperand_nonempty x e : flatOperand x e -> x <> [].
Proof. intros (_ & Hne & _) ->. now apply Hne. Qed.

(** The depth-2 loop on an operator and the operand after it, the
    buffer holding the operand before: the operand before is parsed. *)
Lemma scanLoop2_unit sub op y e z st :
  In op listLogicalOperators ->
  Depth2.buf st = y -> Depth2.isInsideSubExp st = false ->
  Depth2.logicalOp st = [] \/ Depth2.logicalOp st = op ->
  quiet y = true -> y <> [] -> sub y = Ok e ->
  quiet z = true -> z <> [] ->
  Depth2.scanLoop sub (map byteval (op ++ z)) st =
  Ok {| Depth2.buf := z;
        Depth2.parenthesisAcc := Depth2.parenthesisAcc st;
        Depth2.logicalOp := op;
        Depth2.expressions := Depth2.expressions st ++ [e];
        Depth2.isInsideSubExp := false |}.
Proof.
  intros Hin Hb Hi Hop Hqy Hney He Hqz Hnez.
  destruct (logicalOperator_bytes op Hin) as (a & -> & Ha & Hao & Hac).
  assert (Haa : a = "&"%char \/ a = "|"%char).
  { destruct Hin as [E|[E|[]]]; injection E as <-; auto. }
  destruct z as [|c z]; [congruence|].
  destruct (quiet_head c z Hqz) as [Hca Hco].
  assert (Hcc : (byteval c =? rRParen)%N = false).
  { apply N.eqb_neq. intros E. apply quiet_parts in Hqz as (_ & _ & Hc & _).
    apply (count_zero_not_in _ _ Hc). left. symmetry. now apply byteval_inj. }
  cbn [app map Depth2.scanLoop].
  (* the two characters of the operator *)
  unfold Depth2.scanStep at 1. rewrite Hao, Hac, Hi, Hb.
  rewrite (quiet_no_suffix y Hqy), (encodeRune_ascii a Ha).
  unfold Depth2.scanStep at 1.
  cbn [Depth2.buf Depth2.isInsideSubExp Depth2.parenthesisAcc Depth2.logicalOp
       Depth2.expressions].
  rewrite Hao, Hac.
  assert (H1 : hasSuffixLogicalOp (y ++ [a]) = None).
  { unfold hasSuffixLogicalOp, hasSuffix. rewrite rev_app_distr.
    cbn [find listLogicalOperators loAnd loOr str list_ascii_of_string rev app
         hasPrefix].
    pose proof (quiet_last _ "&" Hqy (or_introl eq_refl)) as E1.
    pose proof (quiet_last _ "|" Hqy (or_intror eq_refl)) as E2.
    cbn [hasPrefix] in E1, E2. rewrite E1, E2.
    now rewrite !andb_false_r. }
  rewrite H1, (encodeRune_ascii a Ha).
  (* the first character of the operand *)
  unfold Depth2.scanStep at 1.
  cbn [Depth2.buf Depth2.isInsideSubExp Depth2.parenthesisAcc Depth2.logicalOp
       Depth2.expressions].
  rewrite Hco, Hcc, <- app_assoc. change ([a] ++ [a]) with [a; a].
  assert (H2 : hasSuffixLogicalOp (y ++ [a; a]) = Some [a; a]).
  { unfold hasSuffixLogicalOp, hasSuffix. rewrite rev_app_distr.
    destruct Haa as [-> | ->]; reflexivity. }
  rewrite H2, trimSuffix_app.
  rewrite (trimSpace_length_pos y Hney), He, (encodeRune_ascii c Hca).
  destruct Hop as [E|E]; rewrite E;
    [rewrite (streq_self [])|destruct (streq [a; a] [])];
    rewrite streq_self; cbn [negb].
  (* the rest of the operand *)
  all: rewrite (scanLoop_plain sub z [c]); cbn [Depth2.buf Depth2.isInsideSubExp
    Depth2.parenthesisAcc Depth2.logicalOp Depth2.expressions];
    try reflexivity; now apply quiet_plain.
Qed.

(** The depth-2 loop on the operands after the first, each behind the
    operator: when it ends, the buffer holds the last operand and the
    operands before it are parsed. *)
Lemma scanLoop2_flat sub op : In op listLogicalOperators ->
  forall zs es st y e,
    Forall2 (fun z ez => quiet z = true /\ z <> [] /\ sub z = Ok ez) zs es ->
    Depth2.buf st = y -> Depth2.isInsideSubExp st = false ->
    Depth2.logicalOp st = [] \/ Depth2.logicalOp st = op ->
    quiet y = true -> y <> [] -> sub y = Ok e ->
    exists st' e',
      Depth2.scanLoop sub (map byteval (concat (map (app op) zs))) st = Ok st' /\
      Depth2.buf st' <> [] /\ sub (Depth2.buf st') = Ok e' /\
      Depth2.expressions st' ++ [e'] = Depth2.expressions st ++ e :: es /\
      (zs <> [] -> Depth2.logicalOp st' = op).
Proof.
  intros Hin. induction zs as [|z zs IH]; intros es st y e Hall Hb Hi Hop Hq Hne He.
  - inversion Hall; subst. exists st, e. cbn [map concat Depth2.scanLoop].
    repeat split; try assumption; congruence.
  - inversion Hall as [|? ez ? es' (Hqz & Hnez & Hez) Hrest]; subst.
    cbn [map concat]. rewrite map_app, scanLoop2_app.
    rewrite (scanLoop2_unit sub op (Depth2.buf st) e z st Hin eq_refl Hi Hop
               Hq Hne He Hqz Hnez).
    destruct (IH es'
                {| Depth2.buf := z;
                   Depth2.parenthesisAcc := Depth2.parenthesisAcc st;
                   Depth2.logicalOp := op;
                   Depth2.expressions := Depth2.expressions st ++ [e];
                   Depth2.isInsideSubExp := false |}
                z ez Hrest eq_refl eq_refl (or_intror eq_refl)
                Hqz Hnez Hez) as (st' & e' & Hscan & Hb' & He' & Hex & Hop').
    exists st', e'. cbn [Depth2.expressions Depth2.logicalOp] in *.
    repeat split; try assumption.
    + rewrite Hex, <- app_assoc. reflexivity.
    + intros _. destruct zs as [|z' zs'].
      * inversion Hrest; subst. cbn in Hscan. now injection Hscan as <-.
      * apply Hop'. discriminate.
Qed.

Lemma joinOperands_cons op o o' tl :
  joinOperands op (o :: o' :: tl) =
  operandText o ++ op ++ joinOperands op (o' :: tl).
Proof. reflexivity. Qed.

Lemma joinOperands_flat op x : forall zs,
  joinOperands op (map Leaf (x :: zs)) = x ++ concat (map (app op) zs).
Proof.
  intros zs. revert x. induction zs as [|z zs IH]; intros x.
  - cbn. now rewrite app_nil_r.
  - change (map Leaf (x :: z :: zs)) with (Leaf x :: Leaf z :: map Leaf zs).
    rewrite joinOperands_cons.
    change (Leaf z :: map Leaf zs) with (map Leaf (z :: zs)).
    rewrite IH. cbn [operandText map concat]. now rewrite <- app_assoc.
Qed.

Lemma depth2_unfold b d s :
  Depth2.safeParseFrom (S b) d s =
  match Depth2.scanLoop (Depth2.safeParseFrom b (S d)) (runes s) Depth2.scanInit with
  | Err e => Err e
  | Ok st =>
      if length (Depth2.expressions st) =? 0 then Depth2.parseSimpleStatement s
      else
        match (if 0 <? length (Depth2.buf st)
               then match Depth2.safeParseFrom b (S d) (Depth2.buf st) with
                    | Err e => Err e
                    | Ok exp => Ok (Depth2.expressions st ++ [exp])
                    end
               else Ok (Depth2.expressions st)) with
        | Err e => Err e
        | Ok exprs => Ok (Complex (Depth2.logicalOp st) exprs)
        end
  end.
Proof. reflexivity. Qed.

Lemma flatOperand_operandParses sub x e :
  flatOperand x e -> operandParses sub (Leaf x) e.
Proof. intros (Hq & Hne & _ & He). cbn. auto. Qed.

(** X26: on two or more comparisons joined by one logical operator,
    without parentheses, the depth-2 and the depth-5 version of [parse]
    return the same group: the comparisons in the order they are
    written.  Each operand is a text of ASCII characters without
    parenthesis, [&] and [|] that is not blank, has nothing but spaces
    around its trimmed form, and is accepted by [parseSimpleStatement]
    once trimmed. *)
Theorem versions_agree_on_flat_operands (s : gostring) (op : logicalOperator)
    (xs : list gostring) (es : list expression) :
  In op listLogicalOperators ->
  cleanInput s = joinOperands op (map Leaf xs) -> 2 <= length xs ->
  Forall2 flatOperand xs es ->
  Depth2.parse s = Ok (Complex op es) /\ parse s = Ok (Complex op es).
Proof.
  intros Hin Hs Hlen Hall. split.
  - unfold Depth2.parse. fold (cleanInput s). rewrite Hs.
    destruct xs as [|x [|z zs]]; cbn [length] in Hlen; try lia.
    inversion Hall as [|? e ? es' Hx Hrest]; subst.
    rewrite joinOperands_flat.
    assert (Hqx : quiet x = true) by apply Hx.
    unfold Depth2.safeParse. cbn [Nat.sub]. rewrite depth2_unfold.
    assert (Hjoin' : isASCII (x ++ concat (map (app op) (z :: zs))) = true).
    { replace (concat (map (app op) (z :: zs)))
        with (op ++ (z ++ concat (map (app op) zs))) by (cbn; now rewrite app_assoc).
      rewrite !isASCII_app.
      inversion Hrest as [|? ? ? ? Hz Hzs]; subst.
      apply quiet_parts in Hqx as (-> & _).
      destruct Hz as (Hqz & _). apply quiet_parts in Hqz as (-> & _).
      replace (isASCII op) with true
        by (destruct Hin as [<-|[<-|[]]]; reflexivity).
      cbn [andb]. clear - Hin Hzs.
      induction Hzs as [|z0 e0 zs0 es0 Hz _ IH]; [reflexivity|].
      cbn [map concat]. rewrite !isASCII_app, IH.
      destruct Hz as (Hqz & _). apply quiet_parts in Hqz as (-> & _).
      destruct Hin as [<-|[<-|[]]]; reflexivity. }
    rewrite (runes_ascii _ Hjoin'), map_app, scanLoop2_app.
    rewrite (scanLoop_plain _ x [] Depth2.scanInit (quiet_plain x Hqx) eq_refl eq_refl).
    cbn [Depth2.parenthesisAcc Depth2.logicalOp Depth2.expressions
         Depth2.scanInit app].
    destruct (scanLoop2_flat (Depth2.safeParseFrom 2 1) op Hin (z :: zs) es'
                {| Depth2.buf := x; Depth2.parenthesisAcc := 0;
                   Depth2.logicalOp := []; Depth2.expressions := [];
                   Depth2.isInsideSubExp := false |} x e)
      as (st' & e' & -> & Hb' & He' & Hex & Hop'); try reflexivity.
    + clear - Hrest.
      induction Hrest as [|z0 e0 zs0 es0 Hz _ IH]; constructor; [|exact IH].
      repeat split; [apply Hz|now apply (flatOperand_nonempty z0 e0)|].
      now apply flatOperand_depth2.
    + now left.
    + exact Hqx.
    + now apply (flatOperand_nonempty x e).
    + now apply flatOperand_depth2.
    + cbn [Depth2.expressions app] in Hex.
      assert (Hex' : Depth2.expressions st' <> []).
      { intros E. rewrite E in Hex. cbn in Hex.
        inversion Hrest; subst. discriminate Hex. }
      destruct (Depth2.expressions st') as [|x0 l0] eqn:Eex; [congruence|].
      cbn [length Nat.eqb].
      rewrite (trimSpace_length_pos _ Hb'), He', Hex, Hop' by discriminate.
      reflexivity.
  - apply (parse_operands s op (map Leaf xs) es Hin Hs).
    + now rewrite length_map.
    + clear - Hall. induction Hall; constructor; [|assumption].
      now apply flatOperand_operandParses.
Qed.

Lemma versions_agree_on_flat_operands_witness :
  Depth2.parse "{ $.a = 1 || $.b != 2 || $.c NOT EXISTS }" =
  Ok (ce loOr [se "$.a" coEqual "1"; se "$.b" coNotEqual "2";
               se "$.c" coNotExists ""]) /\
  parse "{ $.a = 1 || $.b != 2 || $.c NOT EXISTS }" =
  Ok (ce loOr [se "$.a" coEqual "1"; se "$.b" coNotEqual "2";
               se "$.c" coNotExists ""]).
Proof.
  apply (versions_agree_on_flat_operands _ loOr
           [str "$.a = 1 "; str " $.b != 2 "; str " $.c NOT EXISTS"]).
  - right. now left.
  - vm_compute. reflexivity.
  - cbn. lia.
  - repeat constructor; try (vm_compute; (reflexivity || discriminate)).
    + now exists [], (str " ").
    + now exists (str " "), (str " ").
    + now exists (str " "), [].
Defined.

(** ** The operator at the end of a buffer *)

(** X27: [hasSuffixLogicalOp] finds an operator exactly when the
    text ends with it, the two operators never ending the same text;
    [hasSuffixComparisonOp] finds an operator exactly when the text ends
    with one, and returns the longest the text ends with: [!=] rather
    than the [=] it ends with. *)
Theorem operator_at_end (s : gostring) :
  (forall op, hasSuffixLogicalOp s = Some op <->
              In op listLogicalOperators /\ hasSuffix s op = true) /\
  (forall op, hasSuffixComparisonOp s = Some op <->
              In op listComparisonOperator /\ hasSuffix s op = true /\
              forall op', In op' listComparisonOperator ->
                          hasSuffix s op' = true -> length op' <= length op).
Proof.
  split; intros op.
  - split.
    + intros H. now apply find_some in H.
    + intros [Hin Hs]. unfold hasSuffixLogicalOp.
      cbn [find listLogicalOperators].
      destruct Hin as [<-|[<-|[]]]; [now rewrite Hs|].
      destruct (hasSuffix s loAnd) eqn:E; [|now rewrite Hs].
      exfalso. apply hasSuffix_spec in E as (t & ->).
      unfold hasSuffix, loAnd, loOr in Hs. rewrite rev_app_distr in Hs.
      discriminate Hs.
  - unfold hasSuffixComparisonOp. cbn [find listComparisonOperator].
    destruct (hasSuffix s coNotExists) eqn:E1.
    { split.
      - intros [= <-]. split; [now left|]. split; [exact E1|].
        intros op' [<-|[<-|[<-|[]]]] _; cbn; lia.
      - intros (Hin & Hs & Hmax). f_equal. symmetry.
        specialize (Hmax coNotExists (or_introl eq_refl) E1).
        destruct Hin as [<-|[<-|[<-|[]]]]; [reflexivity| |]; cbn in Hmax; lia. }
    destruct (hasSuffix s coNotEqual) eqn:E2.
    { split.
      - intros [= <-]. split; [right; now left|]. split; [exact E2|].
        intros op' [<-|[<-|[<-|[]]]] H'; [congruence| |]; cbn; lia.
      - intros (Hin & Hs & Hmax). f_equal. symmetry.
        specialize (Hmax coNotEqual (or_intror (or_introl eq_refl)) E2).
        destruct Hin as [<-|[<-|[<-|[]]]]; [congruence|reflexivity|].
        cbn in Hmax. lia. }
    destruct (hasSuffix s coEqual) eqn:E3.
    { split.
      - intros [= <-]. split; [right; right; now left|]. split; [exact E3|].
        intros op' [<-|[<-|[<-|[]]]] H'; [congruence|congruence|]. cbn. lia.
      - intros (Hin & Hs & _). f_equal.
        destruct Hin as [<-|[<-|[<-|[]]]]; [congruence|congruence|reflexivity]. }
    split; [discriminate|].
    intros (Hin & Hs & _). destruct Hin as [<-|[<-|[<-|[]]]]; congruence.
Qed.

(** ** The loop of [safeParse], errors included *)

Lemma runs_walks sub x st st' : walks sub x st st' -> runs sub x st (Ok st').
Proof. intros H m R. apply H. Qed.

Lemma runs_app sub x y st st1 r :
  walks sub x st st1 -> runs sub y st1 r -> runs sub (x ++ y) st r.
Proof.
  intros H1 H2 m R. rewrite length_app, <- Nat.add_assoc, <- app_assoc.
  rewrite H1. apply H2.
Qed.

Lemma runs_scan sub x st r R :
  runs sub x st r ->
  scan sub 0 (x ++ R) st =
  match r with
  | Ok st' => scan sub 0 R st'
  | Err e => Err e
  end.
Proof.
  intros H. specialize (H 0 R). destruct r as [st'|e].
  - apply (scanPrefix_Ok sub (length x + 0)). rewrite H. destruct R; reflexivity.
  - now apply (scanPrefix_Err sub (length x + 0)).
Qed.

Lemma runs_byte sub c st :
  (byteval c =? rLParen)%N = false -> runs sub [c] st (scanByte c st).
Proof.
  intros Hc m R. cbn [length Nat.add app].
  rewrite (scanPrefix_byte sub c R st m Hc). now destruct (scanByte c st).
Qed.

(** A parenthesised text with matched parentheses: the recursive call
    decides. *)
Lemma runs_group sub A st :
  nested A ->
  runs sub (wrap A) st
    match sub A with
    | Err e => Err e
    | Ok a => Ok {| logicalOp := logicalOp st; expressions := expressions st ++ [a];
                    buf := buf st |}
    end.
Proof.
  intros HA. destruct (sub A) as [a|e] eqn:Ha.
  - apply runs_walks. now apply walks_group.
  - intros m R. pose proof (matchingParenthesisPos_nested A R HA) as Hm.
    replace (length (wrap A)) with (S (S (length A)))
      by (unfold wrap; cbn [length]; rewrite length_app; cbn; lia).
    unfold wrap in *. cbn [app Nat.add scanPrefix scanStep] in *.
    change (byteval "(" =? rLParen)%N with true. cbn iota. rewrite Hm.
    replace (firstn (S (length A) - 1) ((A ++ [")"%char]) ++ R)) with A.
    2:{ cbn [Nat.sub]. rewrite Nat.sub_0_r, <- app_assoc.
        now rewrite firstn_app, Nat.sub_diag, firstn_all, app_nil_r. }
    now rewrite Ha.
Qed.

(** *** Bare texts *)

Lemma bare_parts x :
  bare x = true ->
  count x "(" = 0 /\ count x ")" = 0 /\ count x "&" = 0 /\ count x "|" = 0.
Proof.
  unfold bare. intros H.
  apply andb_prop in H as [H H4]. apply andb_prop in H as [H H3].
  apply andb_prop in H as [H1 H2].
  repeat split; now apply Nat.eqb_eq.
Qed.

Lemma bare_app a b : bare (a ++ b) = bare a && bare b.
Proof.
  unfold bare. rewrite !count_app.
  destruct (count a "("), (count a ")"), (count a "&"), (count a "|");
    cbn; try reflexivity; now rewrite ?andb_false_r.
Qed.

Lemma bare_cons c x :
  bare (c :: x) = true ->
  c <> "("%char /\ c <> "&"%char /\ c <> "|"%char /\ bare x = true.
Proof.
  change (c :: x) with ([c] ++ x). rewrite bare_app. intros H.
  apply andb_prop in H as [Hc Hx]. apply bare_parts in Hc as (H1 & _ & H3 & H4).
  repeat split; try exact Hx; intros ->; discriminate.
Qed.

Lemma quiet_bare x : quiet x = true -> bare x = true.
Proof.
  intros H. apply quiet_parts in H as (_ & H1 & H2 & H3 & H4).
  unfold bare. now rewrite H1, H2, H3, H4.
Qed.

(** What the loop writes for a byte that is no character of a logical
    operator does not end with one. *)
Lemma encodeRune_last c :
  c <> "&"%char -> c <> "|"%char ->
  exists d r, rev (encodeRune (byteval c)) = d :: r /\
              d <> "&"%char /\ d <> "|"%char.
Proof.
  destruct c as [[] [] [] [] [] [] [] []]; intros H1 H2;
    try (exfalso; apply H1; reflexivity); try (exfalso; apply H2; reflexivity);
    eexists _, _; (split; [vm_compute; reflexivity|split; discriminate]).
Qed.

Lemma calmEnd_nil : calmEnd [].
Proof. intros a _. reflexivity. Qed.

Lemma calmEnd_byte b c :
  c <> "&"%char -> c <> "|"%char -> calmEnd (b ++ encodeRune (byteval c)).
Proof.
  intros H1 H2 a Ha. rewrite rev_app_distr.
  destruct (encodeRune_last c H1 H2) as (d & r & -> & Hd1 & Hd2).
  cbn [app hasPrefix]. rewrite andb_true_r. apply Ascii.eqb_neq.
  destruct Ha as [-> | ->]; congruence.
Qed.

Lemma calmEnd_no_suffix b : b <> [] -> calmEnd b -> hasSuffixLogicalOp b = None.
Proof.
  intros Hne H. unfold hasSuffixLogicalOp, hasSuffix.
  cbn [find listLogicalOperators loAnd loOr str list_ascii_of_string rev app].
  pose proof (H "&"%char (or_introl eq_refl)) as H1.
  pose proof (H "|"%char (or_intror eq_refl)) as H2.
  destruct (rev b) as [|d r] eqn:E.
  - apply (f_equal (@rev ascii)) in E. rewrite rev_involutive in E. cbn in E.
    congruence.
  - cbn [hasPrefix] in *. rewrite andb_true_r in H1, H2. now rewrite H1, H2.
Qed.

Lemma encodeRune_nonempty_byte c : encodeRune (byteval c) <> [].
Proof.
  destruct (encodeRune (byteval c)) eqn:E; [|discriminate].
  pose proof (encodeRune_nonempty (byteval c)) as H. congruence.
Qed.

(** The loop on a bare text: the bytes, taken as runes, are written to
    the buffer. *)
Lemma walks_bare sub y : forall st,
  bare y = true ->
  walks sub y st
    {| logicalOp := logicalOp st; expressions := expressions st;
       buf := buf st ++ encodeRunes (map byteval y) |}.
Proof.
  induction y as [|c y IH]; intros st Hy.
  - cbn [map encodeRunes concat]. rewrite app_nil_r. destruct st. apply walks_nil.
  - apply bare_cons in Hy as (Ho & Ha & Hb & Hy).
    cbn [map]. rewrite encodeRunes_cons.
    change (walks sub (c :: y)) with (walks sub ([c] ++ y)).
    eapply walks_app.
    + apply (walks_byte sub c st).
      * apply N.eqb_neq. intros E. apply Ho. now apply byteval_inj.
      * unfold scanByte.
        rewrite (calmEnd_no_suffix _
                   ltac:(intros E; apply app_eq_nil in E as [_ E];
                         now apply encodeRune_nonempty_byte in E)
                   (calmEnd_byte (buf st) c Ha Hb)).
        reflexivity.
    + specialize (IH {| logicalOp := logicalOp st; expressions := expressions st;
                        buf := buf st ++ encodeRune (byteval c) |} Hy).
      cbn [buf logicalOp expressions] in IH. now rewrite <- app_assoc in IH.
Qed.

Lemma calmEnd_written b y :
  bare y = true -> calmEnd b -> calmEnd (b ++ encodeRunes (map byteval y)).
Proof.
  revert b. induction y as [|c y IH]; intros b Hy Hb.
  - cbn [map encodeRunes concat]. now rewrite app_nil_r.
  - apply bare_cons in Hy as (_ & Ha & Ho & Hy).
    cbn [map]. rewrite encodeRunes_cons, app_assoc.
    apply IH; [exact Hy|]. now apply calmEnd_byte.
Qed.

Lemma quiet_calmEnd b : quiet b = true -> calmEnd b.
Proof. intros H a Ha. now apply quiet_last. Qed.

(** The two characters of a logical operator read with a buffer that
    does not end with one of them. *)
Lemma runs_operator sub op st :
  In op listLogicalOperators -> calmEnd (buf st) ->
  runs sub op st (closeOperand op (buf st) st).
Proof.
  intros Hin Hq.
  assert (Hfirst : forall a, a = "&"%char \/ a = "|"%char ->
            scanByte a st =
            Ok {| logicalOp := logicalOp st; expressions := expressions st;
                  buf := buf st ++ [a] |}).
  { intros a Ha. unfold scanByte.
    assert (Hasc : (byteval a <? 128)%N = true) by (destruct Ha as [-> | ->]; reflexivity).
    rewrite (encodeRune_ascii _ Hasc).
    assert (Hs : hasSuffixLogicalOp (buf st ++ [a]) = None).
    { unfold hasSuffixLogicalOp, hasSuffix. rewrite rev_app_distr.
      cbn [find listLogicalOperators loAnd loOr str list_ascii_of_string rev app
           hasPrefix].
      pose proof (Hq "&"%char (or_introl eq_refl)) as H1.
      pose proof (Hq "|"%char (or_intror eq_refl)) as H2.
      cbn [hasPrefix] in H1, H2. rewrite H1, H2.
      now rewrite !andb_false_r. }
    now rewrite Hs. }
  assert (Hsecond : forall a, op = [a; a] -> a = "&"%char \/ a = "|"%char ->
            scanByte a {| logicalOp := logicalOp st; expressions := expressions st;
                          buf := buf st ++ [a] |} =
            closeOperand op (buf st) st).
  { intros a Hop2 Ha. unfold scanByte, closeOperand. cbn [buf logicalOp expressions].
    assert (Hasc : (byteval a <? 128)%N = true) by (destruct Ha as [-> | ->]; reflexivity).
    rewrite (encodeRune_ascii _ Hasc), <- app_assoc.
    change ([a] ++ [a]) with [a; a]. rewrite <- Hop2.
    assert (Hs : hasSuffixLogicalOp (buf st ++ op) = Some op).
    { unfold hasSuffixLogicalOp, hasSuffix. rewrite rev_app_distr.
      destruct Ha as [-> | ->]; subst op; reflexivity. }
    now rewrite Hs, trimSuffix_app. }
  destruct Hin as [<-|[<-|[]]].
  - change loAnd with (["&"%char] ++ ["&"%char]) at 1.
    eapply runs_app.
    + apply walks_byte; [reflexivity|]. apply Hfirst. now left.
    + rewrite <- (Hsecond "&"%char eq_refl (or_introl eq_refl)).
      now apply runs_byte.
  - change loOr with (["|"%char] ++ ["|"%char]) at 1.
    eapply runs_app.
    + apply walks_byte; [reflexivity|]. apply Hfirst. now right.
    + rewrite <- (Hsecond "|"%char eq_refl (or_intror eq_refl)).
      now apply runs_byte.
Qed.

(** A bare text and the operator behind it. *)
Lemma runs_text_operator sub op x st :
  In op listLogicalOperators -> bare x = true -> calmEnd (buf st) ->
  runs sub (x ++ op) st
    (closeOperand op (buf st ++ encodeRunes (map byteval x)) st).
Proof.
  intros Hin Hx Hb.
  eapply runs_app; [now apply walks_bare|].
  apply (runs_operator sub op
           {| logicalOp := logicalOp st; expressions := expressions st;
              buf := buf st ++ encodeRunes (map byteval x) |} Hin).
  now apply calmEnd_written.
Qed.

(** The same for a quiet text, which is written as it is. *)
Lemma runs_quiet_operator sub op x st :
  In op listLogicalOperators -> quiet (buf st ++ x) = true ->
  runs sub (x ++ op) st (closeOperand op (buf st ++ x) st).
Proof.
  intros Hin Hq. destruct (proj1 (quiet_app _ _) Hq) as [Hb Hx].
  pose proof (runs_text_operator sub op x st Hin (quiet_bare _ Hx)
                (quiet_calmEnd _ Hb)) as H.
  apply quiet_parts in Hx as (Ha & _).
  now rewrite (encodeRunes_ascii _ Ha) in H.
Qed.

(** With another operator fixed, the operator is refused. *)
Lemma closeOperand_alternating op1 op2 text st :
  logicalOp st = op1 -> op1 <> [] -> op1 <> op2 ->
  closeOperand op2 text st = Err errAlternating.
Proof.
  intros H1 Hne Hdiff. unfold closeOperand. rewrite H1.
  destruct (streq op1 []) eqn:E.
  - apply streq_true in E. congruence.
  - destruct (streq op1 op2) eqn:E2; [|reflexivity].
    apply streq_true in E2. congruence.
Qed.

(** ** Operands joined by two different operators *)

Lemma runs_Err_app sub x y st e :
  runs sub x st (Err e) -> runs sub (x ++ y) st (Err e).
Proof.
  intros H m R. rewrite length_app, <- Nat.add_assoc, <- app_assoc. apply H.
Qed.

(** Operands that parse, each followed by the operator: the loop adds
    their trees and records the operator. *)
Lemma walks_followedBy sub op : In op listLogicalOperators ->
  forall os es st,
    Forall2 (operandParses sub) os es ->
    buf st = [] -> logicalOp st = [] \/ logicalOp st = op ->
    walks sub (followedBy op os) st
      {| logicalOp := match os with
                      | [] => logicalOp st
                      | _ :: _ => op
                      end;
         expressions := expressions st ++ es; buf := [] |}.
Proof.
  intros Hin. induction os as [|o os IH]; intros es st Hall Hb Hop.
  - inversion Hall; subst. destruct st as [lo ex bu]. cbn [buf] in Hb. subst bu.
    cbn [followedBy map concat logicalOp expressions]. rewrite app_nil_r.
    apply walks_nil.
  - inversion Hall as [|? e ? es' Ho Hrest]; subst.
    unfold followedBy. cbn [map concat]. fold (followedBy op os).
    eapply walks_app;
      [apply (walks_operand_operator sub op o e st Hin Ho Hb Hop)|].
    specialize (IH es' {| logicalOp := op; expressions := expressions st ++ [e];
                          buf := [] |} Hrest eq_refl (or_intror eq_refl)).
    cbn [logicalOp expressions] in IH. rewrite <- app_assoc in IH. cbn [app] in IH.
    now destruct os.
Qed.

Lemma logicalOperator_nonempty op : In op listLogicalOperators -> op <> [].
Proof. intros [<-|[<-|[]]]; discriminate. Qed.

(** The last operand and the other operator behind it. *)
Lemma runs_last_operand sub op1 op2 o st :
  In op1 listLogicalOperators -> In op2 listLogicalOperators -> op1 <> op2 ->
  lastOperand sub o -> buf st = [] -> logicalOp st = op1 ->
  runs sub (operandText o ++ op2) st (Err errAlternating).
Proof.
  intros H1 H2 Hne Ho Hb Hop.
  pose proof (logicalOperator_nonempty op1 H1) as Hop1.
  destruct o as [p1 A p2|x]; cbn [operandText lastOperand] in *.
  - destruct Ho as (e & Hp1 & Hp2 & HA & He). apply wellNested_nested in HA.
    assert (Hq : quiet (p1 ++ p2) = true).
    { apply quiet_app. split; now apply spaces_quiet. }
    rewrite <- !app_assoc.
    eapply runs_app; [apply walks_quiet; rewrite Hb; now apply spaces_quiet|].
    eapply runs_app; [apply (walks_group sub A e _ HA He)|].
    cbn [buf logicalOp expressions]. rewrite Hb. cbn [app].
    erewrite <- closeOperand_alternating with (op1 := op1) (op2 := op2).
    + apply (runs_quiet_operator sub op2 p2
               {| logicalOp := logicalOp st; expressions := expressions st ++ [e];
                  buf := p1 |} H2 Hq).
    + exact Hop.
    + exact Hop1.
    + exact Hne.
  - erewrite <- closeOperand_alternating with (op1 := op1) (op2 := op2).
    + apply (runs_text_operator sub op2 x st H2 Ho). rewrite Hb.
      apply calmEnd_nil.
    + exact Hop.
    + exact Hop1.
    + exact Hne.
Qed.

Lemma safeParseFrom_unfold b s :
  safeParseFrom (S b) s =
  match scan (safeParseFrom b) 0 s scanInit with
  | Err e => Err e
  | Ok st => finish st
  end.
Proof. reflexivity. Qed.

Lemma mixes_Err b s : mixes b s -> safeParseFrom b s = Err errAlternating.
Proof.
  induction 1 as [b op1 op2 os es o rest H1 H2 Hne Hos Hall Ho
                 |b op os es before inner rest Hin Hall Hsp Hn Hmix IH].
  - rewrite safeParseFrom_unfold.
    pose proof (walks_followedBy (safeParseFrom b) op1 H1 os es scanInit Hall
                  eq_refl (or_introl eq_refl)) as Hw.
    rewrite (walks_scan _ _ _ _ _ Hw).
    assert (Hr : runs (safeParseFrom b) (operandText o ++ op2)
                   {| logicalOp := match os with
                                   | [] => logicalOp scanInit
                                   | _ :: _ => op1
                                   end;
                      expressions := expressions scanInit ++ es; buf := [] |}
                   (Err errAlternating)).
    { apply (runs_last_operand _ op1 op2); try assumption; try reflexivity.
      cbn [logicalOp]. now destruct os. }
    rewrite app_assoc. now rewrite (runs_scan _ _ _ _ rest Hr).
  - rewrite safeParseFrom_unfold.
    assert (Hop : logicalOp scanInit = [] \/ logicalOp scanInit = op) by now left.
    pose proof (walks_followedBy (safeParseFrom b) op Hin os es scanInit Hall
                  eq_refl Hop) as Hw.
    rewrite (walks_scan _ _ _ _ _ Hw).
    erewrite (walks_scan _ before);
      [|apply walks_quiet; cbn [buf app]; now apply spaces_quiet].
    pose proof (runs_group (safeParseFrom b) inner
                  {| logicalOp := match os with
                                  | [] => logicalOp scanInit
                                  | _ :: _ => op
                                  end;
                     expressions := expressions scanInit ++ es;
                     buf := [] ++ before |} (wellNested_nested _ Hn)) as Hr.
    rewrite IH in Hr. cbn [logicalOp expressions buf] in *.
    now rewrite (runs_scan _ _ _ _ rest Hr).
Qed.

Lemma parse_mixes s :
  count s "(" = count s ")" -> mixes (S maxDepth) (cleanInput s) ->
  parse s = Err errAlternating.
Proof.
  intros Hc Hm. unfold parse. apply Nat.eqb_eq in Hc. rewrite Hc. cbn [negb].
  apply (mixes_Err _ _ Hm).
Qed.

(** ** Alternating operators *)

Ltac operand_parses :=
  repeat constructor; vm_compute; (reflexivity || discriminate).

Lemma mixes_spec_example :
  mixes (S maxDepth) (cleanInput "{(a=b)&&(c=d)||(e=f)}").
Proof.
  replace (cleanInput "{(a=b)&&(c=d)||(e=f)}")
    with (followedBy loAnd [Group "" "a=b" ""] ++
          operandText (Group "" "c=d" "") ++ loOr ++ str "(e=f)")
    by (vm_compute; reflexivity).
  apply (mixes_here maxDepth loAnd loOr [Group "" "a=b" ""]
           [se "a" coEqual "b"] (Group "" "c=d" "") "(e=f)").
  - now left.
  - right. now left.
  - discriminate.
  - discriminate.
  - operand_parses.
  - exists (se "c" coEqual "d"). operand_parses.
Qed.

Lemma mixes_leaves_example :
  mixes (S maxDepth) (cleanInput "{ $.a = 1 || ($.b = 2) || $.c = 3 && $.d = 4 }").
Proof.
  replace (cleanInput "{ $.a = 1 || ($.b = 2) || $.c = 3 && $.d = 4 }")
    with (followedBy loOr [Leaf "$.a = 1 "; Group " " "$.b = 2" " "] ++
          operandText (Leaf " $.c = 3 ") ++ loAnd ++ str " $.d = 4")
    by (vm_compute; reflexivity).
  apply (mixes_here maxDepth loOr loAnd [Leaf "$.a = 1 "; Group " " "$.b = 2" " "]
           [se "$.a" coEqual "1"; se "$.b" coEqual "2"] (Leaf " $.c = 3 ")
           " $.d = 4").
  - right. now left.
  - now left.
  - discriminate.
  - discriminate.
  - operand_parses.
  - reflexivity.
Qed.

Lemma mixes_nested_example :
  mixes (S maxDepth) (cleanInput "{(g=h) && ((a=b)&&(c=d)||(e=f))}").
Proof.
  replace (cleanInput "{(g=h) && ((a=b)&&(c=d)||(e=f))}")
    with (followedBy loAnd [Group "" "g=h" " "] ++ str " " ++
          wrap "(a=b)&&(c=d)||(e=f)" ++ [])
    by (vm_compute; reflexivity).
  apply (mixes_inside maxDepth loAnd [Group "" "g=h" " "] [se "g" coEqual "h"]
           " " "(a=b)&&(c=d)||(e=f)" []).
  - now left.
  - operand_parses.
  - reflexivity.
  - reflexivity.
  - change (str "(a=b)&&(c=d)||(e=f)")
      with (followedBy loAnd [Group "" "a=b" ""] ++
            operandText (Group "" "c=d" "") ++ loOr ++ str "(e=f)").
    apply (mixes_here 4 loAnd loOr [Group "" "a=b" ""]
             [se "a" coEqual "b"] (Group "" "c=d" "") "(e=f)").
    + now left.
    + right. now left.
    + discriminate.
    + discriminate.
    + operand_parses.
    + exists (se "c" coEqual "d"). operand_parses.
Qed.




(** ** ASCII white space *)

Lemma asciiSpace_cases c :
  asciiSpace c = true ->
  In c ["009"; "010"; "011"; "012"; "013"; " "]%char.
Proof.
  destruct c as [[] [] [] [] [] [] [] []]; intros H; vm_compute in H;
    try discriminate; cbn; tauto.
Qed.

Ltac space_cases H :=
  let K := fresh in
  pose proof (asciiSpace_cases _ H) as K; cbn [In] in K;
  destruct K as [<-|[<-|[<-|[<-|[<-|[<-|[]]]]]]].

Lemma blank_cons c p : blank (c :: p) = true <-> asciiSpace c = true /\ blank p = true.
Proof. unfold blank. cbn [forallb]. apply andb_true_iff. Qed.

Lemma blank_app p q : blank (p ++ q) = blank p && blank q.
Proof. apply forallb_app. Qed.

Lemma blank_whiteSpace p : blank p = true -> whiteSpace p.
Proof.
  induction p as [|c p IH]; [constructor|].
  intros H. apply blank_cons in H as [Hc Hp].
  apply (concat_cons spaceEncodings [c] p); [|now apply IH].
  space_cases Hc; vm_compute; tauto.
Qed.

Lemma blank_quiet p : blank p = true -> quiet p = true.
Proof.
  induction p as [|c p IH]; [reflexivity|].
  intros H. apply blank_cons in H as [Hc Hp].
  change (c :: p) with ([c] ++ p).
  apply (proj2 (quiet_app [c] p)). split; [|now apply IH].
  space_cases Hc; reflexivity.
Qed.

Lemma blank_trimSpace p : blank p = true -> trimSpace p = [].
Proof. intros H. apply trimSpace_whiteSpace. now apply blank_whiteSpace. Qed.

Lemma trimSpace_blank_around p x q :
  blank p = true -> blank q = true -> trimSpace (p ++ x ++ q) = trimSpace x.
Proof. intros Hp Hq. apply trimSpace_surrounded; now apply blank_whiteSpace. Qed.

Lemma noOperator_blank_after w : forall a,
  noOperator a -> blank w = true -> noOperator (a ++ w).
Proof.
  induction w as [|c w IH]; intros a Ha Hw; [now rewrite app_nil_r|].
  apply blank_cons in Hw as [Hc Hw].
  change (a ++ c :: w) with (a ++ [c] ++ w). rewrite app_assoc.
  apply IH; [|exact Hw]. destruct Ha as [H1 H2].
  split; apply contains_app_space; try assumption; try discriminate;
    space_cases Hc; reflexivity.
Qed.

Lemma noOperator_blank_before w a :
  noOperator a -> blank w = true -> noOperator (w ++ a).
Proof.
  intros Ha. induction w as [|c w IH]; intros Hw; [exact Ha|].
  apply blank_cons in Hw as [Hc Hw]. specialize (IH Hw). destruct IH as [H1 H2].
  split; cbn [app contains]; rewrite ?H1, ?H2, orb_false_r;
    space_cases Hc; reflexivity.
Qed.

Lemma existsb_streq_true (x : gostring) l : existsb (streq x) l = true -> In x l.
Proof.
  intros H. apply existsb_exists in H as (y & Hin & Hy).
  apply streq_true in Hy. now subst.
Qed.

(** ** Texts that [strings.TrimSpace] leaves as they are *)

Lemma spaceEncodings_singleOrHigh : forallb singleOrHigh spaceEncodings = true.
Proof. vm_compute. reflexivity. Qed.

Lemma revEncodings_singleOrHigh : forallb singleOrHigh revEncodings = true.
Proof. vm_compute. reflexivity. Qed.

Lemma encodingPrefix_ascii_app encs c x y :
  forallb singleOrHigh encs = true ->
  (byteval c <? 128)%N = true ->
  encodingPrefix encs (c :: x) = None ->
  encodingPrefix encs (c :: x ++ y) = None.
Proof.
  intros Hall Hc H. apply encodingPrefix_None. intros e t Hin Heq.
  rewrite encodingPrefix_None in H.
  rewrite forallb_forall in Hall. specialize (Hall e Hin).
  destruct e as [|b [|b2 e']].
  - now apply (H [] (c :: x) Hin).
  - cbn in Heq. injection Heq as -> _. now apply (H [b] x Hin).
  - cbn in Heq, Hall. injection Heq as -> _.
    apply N.leb_le in Hall. apply N.ltb_lt in Hc. lia.
Qed.

Lemma trimmed_ends x :
  trimSpace x = x -> spacePrefix x = None /\ spaceSuffixRev (rev x) = None.
Proof.
  intros H. destruct (trimSpace_decompose x) as (pre & post & _ & _ & _ & H1 & H2).
  now rewrite H in H1, H2.
Qed.

Lemma isASCII_rev x : isASCII (rev x) = isASCII x.
Proof.
  unfold isASCII. induction x as [|c x IH]; [reflexivity|].
  cbn [rev forallb]. rewrite forallb_app, IH. cbn [forallb]. 
  rewrite andb_true_r. apply andb_comm.
Qed.

(** A text that starts and ends with texts of ASCII characters, not
    empty and without white space at their ends. *)
Lemma trimSpace_between a m z :
  a <> [] -> z <> [] -> isASCII a = true -> isASCII z = true ->
  trimSpace a = a -> trimSpace z = z ->
  trimSpace (a ++ m ++ z) = a ++ m ++ z.
Proof.
  intros Ha Hz Haa Hza Hta Htz.
  destruct (trimmed_ends a Hta) as [Hpa _].
  destruct (trimmed_ends z Htz) as [_ Hsz].
  apply trimSpace_fixed.
  - destruct a as [|c a]; [congruence|]. cbn [app].
    cbn [isASCII forallb] in Haa. apply andb_prop in Haa as [Hc _].
    apply (encodingPrefix_ascii_app spaceEncodings c a (m ++ z)
             spaceEncodings_singleOrHigh Hc Hpa).
  - rewrite app_assoc, rev_app_distr.
    rewrite <- isASCII_rev in Hza.
    destruct (rev z) as [|d r] eqn:E.
    + apply (f_equal (@rev ascii)) in E. rewrite rev_involutive in E.
      cbn in E. congruence.
    + cbn [app]. cbn [isASCII forallb] in Hza. apply andb_prop in Hza as [Hd _].
      apply (encodingPrefix_ascii_app revEncodings d r (rev (a ++ m))
               revEncodings_singleOrHigh Hd Hsz).
Qed.

(** ** A comparison with white space around its operator *)

Lemma word_parts x :
  word x = true -> quiet x = true /\ noOperator x /\ trimSpace x = x.
Proof.
  unfold word, trimmed, noOperator. intros H.
  apply andb_prop in H as [H Ht]. apply andb_prop in H as [H Hn].
  apply andb_prop in H as [Hq He].
  repeat split; try now apply negb_true_iff.
  - exact Hq.
  - now apply streq_true.
Qed.

Lemma skipLeading_blank p R :
  blank p = true -> (forall c tl, R = c :: tl -> leadingPad c = false) ->
  R <> [] ->
  exists q, blank q = true /\ skipLeading (p ++ R) = q ++ R.
Proof.
  intros Hp HR Hne. induction p as [|a p IH].
  - exists []. split; [reflexivity|]. destruct R as [|c tl]; [congruence|].
    cbn [app]. unfold skipLeading. cbn [dropWhile]. now rewrite (HR c tl eq_refl).
  - apply blank_cons in Hp as [Ha Hp]. destruct (IH Hp) as (q & Hq & E).
    cbn [app]. unfold skipLeading in *. cbn [dropWhile].
    destruct (leadingPad a).
    + now exists q.
    + exists (a :: p). split; [now apply blank_cons|reflexivity].
Qed.

Lemma no_bang_after_blank L p :
  blank p = true -> (p = [] -> hasSuffix L (str "!") = false) ->
  hasSuffix (L ++ p) (str "!") = false.
Proof.
  intros Hp HL. unfold hasSuffix in *. rewrite rev_app_distr.
  destruct (rev p) as [|d r] eqn:E.
  - apply (f_equal (@rev ascii)) in E. rewrite rev_involutive in E. cbn in E.
    now apply HL.
  - assert (Hd : asciiSpace d = true).
    { unfold blank in Hp. rewrite forallb_forall in Hp. apply Hp.
      apply in_rev. rewrite E. now left. }
    cbn [app rev str list_ascii_of_string hasPrefix].
    space_cases Hd; reflexivity.
Qed.

Lemma comparisonOperator_trimmed op :
  In op listComparisonOperator -> op <> [] /\ trimSpace op = op.
Proof.
  intros [<-|[<-|[<-|[]]]]; (split; [discriminate|vm_compute; reflexivity]).
Qed.

(** A text without white space at its ends does not start with a space. *)
Lemma trimmed_head c x : trimSpace (c :: x) = c :: x -> c <> " "%char.
Proof.
  intros Ht ->. destruct (trimmed_ends _ Ht) as [Hp _].
  rewrite spacePrefix_None in Hp. apply (Hp (str " ") x); [vm_compute; tauto|].
  reflexivity.
Qed.

Lemma operand_head c x :
  trimSpace (c :: x) = c :: x -> count (c :: x) "(" = 0 -> leadingPad c = false.
Proof.
  intros Ht Ho. unfold leadingPad. apply orb_false_iff.
  split; apply Ascii.eqb_neq.
  - exact (trimmed_head c x Ht).
  - intros ->. apply (count_zero_not_in _ _ Ho). now left.
Qed.

(** The text of a comparison: a left operand, white space, an operator,
    white space and a right operand, with white space around the whole.
    The operands are ASCII texts without parenthesis, comparison
    operator and white space at their ends. *)
Lemma comparison_text pad0 L pad1 op pad2 R pad3 :
  blank pad0 = true -> blank pad1 = true -> blank pad2 = true ->
  blank pad3 = true ->
  In op listComparisonOperator ->
  L <> [] -> isASCII L = true -> count L "(" = 0 -> noOperator L ->
  trimSpace L = L -> (op = coEqual -> hasSuffix L (str "!") = false) ->
  isASCII R = true -> count R "(" = 0 -> count R ")" = 0 -> noOperator R ->
  trimSpace R = R ->
  trimSpace (pad0 ++ L ++ pad1 ++ op ++ pad2 ++ R ++ pad3) <> [] /\
  parseSimpleStatement (trimSpace (pad0 ++ L ++ pad1 ++ op ++ pad2 ++ R ++ pad3))
  = Ok (se L op R).
Proof.
  intros H0 H1 H2 H3 Hop HLne HLa HLo HLn HLt Hbang HRa HRo HRc HRn HRt.
  destruct L as [|c L']; [congruence|]. clear HLne.
  pose proof (operand_head _ _ HLt HLo) as Hc.
  pose proof (quiet_parts _ (blank_quiet _ H1)) as (H1a & _).
  pose proof (quiet_parts _ (blank_quiet _ H2)) as (H2a & _).
  pose proof (isASCII_comparisonOperator _ Hop) as Hopa.
  destruct (comparisonOperator_trimmed _ Hop) as [Hopne Hopt].
  assert (Hb : op = coEqual -> hasSuffix ((c :: L') ++ pad1) (str "!") = false).
  { intros E. apply no_bang_after_blank; [exact H1|]. intros _. now apply Hbang. }
  assert (Hleft : trimSpace ((c :: L') ++ pad1) = c :: L').
  { rewrite <- HLt at 2.
    apply (trimSpace_blank_around [] (c :: L') pad1 eq_refl H1). }
  assert (HlA : isASCII (c :: L' ++ pad1) = true).
  { change (c :: L' ++ pad1) with ((c :: L') ++ pad1).
    now rewrite isASCII_app, HLa, H1a. }
  assert (HlN : noOperator (c :: L' ++ pad1)).
  { change (c :: L' ++ pad1) with ((c :: L') ++ pad1).
    now apply noOperator_blank_after. }
  destruct R as [|d R'].
  - replace (pad0 ++ (c :: L') ++ pad1 ++ op ++ pad2 ++ [] ++ pad3)
      with (pad0 ++ ((c :: L') ++ pad1 ++ op) ++ (pad2 ++ pad3))
      by (now rewrite <- !app_assoc).
    rewrite trimSpace_blank_around
      by (try assumption; now rewrite blank_app, H2, H3).
    rewrite trimSpace_between by (assumption || discriminate).
    split; [discriminate|].
    replace ((c :: L') ++ pad1 ++ op) with ((c :: L' ++ pad1) ++ op ++ [])
      by (cbn [app]; now rewrite app_nil_r, <- app_assoc).
    rewrite (parseSimpleStatement_operands c (L' ++ pad1) op [] Hop Hc HlA
               eq_refl HlN (conj eq_refl eq_refl) Hb).
    change (c :: L' ++ pad1) with ((c :: L') ++ pad1). rewrite Hleft.
    reflexivity.
  - assert (Hd : leadingPad d = false) by exact (operand_head _ _ HRt HRo).
    replace (pad0 ++ (c :: L') ++ pad1 ++ op ++ pad2 ++ (d :: R') ++ pad3)
      with (pad0 ++ ((c :: L') ++ (pad1 ++ op ++ pad2) ++ (d :: R')) ++ pad3)
      by (now rewrite <- !app_assoc).
    rewrite trimSpace_blank_around by assumption.
    rewrite trimSpace_between by (assumption || discriminate).
    split; [discriminate|].
    replace ((c :: L') ++ (pad1 ++ op ++ pad2) ++ d :: R')
      with ((c :: L' ++ pad1) ++ op ++ (pad2 ++ d :: R'))
      by (cbn [app]; now rewrite <- !app_assoc).
    assert (HrA : isASCII (pad2 ++ d :: R') = true)
      by now rewrite isASCII_app, H2a, HRa.
    assert (HrN : noOperator (pad2 ++ d :: R'))
      by now apply noOperator_blank_before.
    rewrite (parseSimpleStatement_operands c (L' ++ pad1) op (pad2 ++ d :: R')
               Hop Hc HlA HrA HlN HrN Hb).
    change (c :: L' ++ pad1) with ((c :: L') ++ pad1). rewrite Hleft.
    destruct (skipLeading_blank pad2 (d :: R') H2) as (q & Hq & ->).
    + intros c0 tl [= <- <-]. exact Hd.
    + discriminate.
    + assert (E : trimSpace (q ++ d :: R') = d :: R').
      { rewrite <- HRt at 2. rewrite <- (app_nil_r (d :: R')) at 1.
        apply (trimSpace_blank_around q (d :: R') [] Hq eq_refl). }
      rewrite E, (trimRight_absent _ _ HRc), HRt. reflexivity.
Qed.

Lemma comparison_padded pad0 L pad1 op pad2 R pad3 :
  wellSpaced (Comparison pad0 L pad1 op pad2 R pad3) = true ->
  trimSpace (phraseText (Comparison pad0 L pad1 op pad2 R pad3)) <> [] /\
  parseSimpleStatement
    (trimSpace (phraseText (Comparison pad0 L pad1 op pad2 R pad3)))
  = Ok (se L op R).
Proof.
  cbn [wellSpaced phraseText]. intros H.
  apply andb_prop in H as [H Hbang]. apply andb_prop in H as [H HR].
  apply andb_prop in H as [H HLne]. apply andb_prop in H as [H HL].
  apply andb_prop in H as [H Hop]. apply andb_prop in H as [H H3].
  apply andb_prop in H as [H H2]. apply andb_prop in H as [H0 H1].
  apply existsb_streq_true in Hop.
  pose proof (word_parts _ HL) as (HLq & HLn & HLt).
  pose proof (word_parts _ HR) as (HRq & HRn & HRt).
  pose proof (quiet_parts _ HLq) as (HLa & HLo & _).
  pose proof (quiet_parts _ HRq) as (HRa & HRo & HRc & _).
  apply comparison_text; try assumption.
  - intros ->. discriminate.
  - intros ->. rewrite streq_refl in Hbang. cbn [andb] in Hbang.
    now apply negb_true_iff in Hbang.
Qed.

(** ** Expressions written with white space around their parts *)

Lemma phrase_induction (P : phrase -> Prop) :
  (forall pad0 text pad1, P (Words pad0 text pad1)) ->
  (forall pad0 L pad1 op pad2 R pad3, P (Comparison pad0 L pad1 op pad2 R pad3)) ->
  (forall pad0 op items pad1, Forall P items -> P (Parens pad0 op items pad1)) ->
  forall t, P t.
Proof.
  intros HW HC HP. fix IH 1. intros [p0 x p1|p0 L p1 op p2 R p3|p0 op items p1].
  - apply HW.
  - apply HC.
  - apply HP. induction items as [|t items IHl]; constructor; [apply IH|exact IHl].
Qed.

Lemma nested_app a b : nested a -> nested b -> nested (a ++ b).
Proof.
  intros [Ha Ha'] [Hb Hb']. split.
  - rewrite balance_app. lia.
  - intros j. rewrite firstn_app, balance_app.
    specialize (Ha' j). specialize (Hb' (j - length a)).
    destruct (Nat.le_gt_cases (length a) j) as [Hj|Hj].
    + rewrite firstn_all2 by exact Hj. lia.
    + replace (j - length a) with 0 by lia. cbn [firstn].
      rewrite balance_nil. lia.
Qed.

Lemma nested_no_parenthesis x :
  count x "(" = 0 -> count x ")" = 0 -> nested x.
Proof.
  intros Ho Hc.
  assert (H : forall j, balance (firstn j x) = 0%Z).
  { intros j. unfold balance.
    pose proof (firstn_skipn j x) as E.
    pose proof (count_app (firstn j x) (skipn j x) "(") as E1.
    pose proof (count_app (firstn j x) (skipn j x) ")") as E2.
    rewrite E in E1, E2. lia. }
  split.
  - specialize (H (length x)). now rewrite firstn_all in H.
  - intros j. rewrite H. lia.
Qed.

Lemma nested_quiet x : quiet x = true -> nested x.
Proof.
  intros H. apply quiet_parts in H as (_ & Ho & Hc & _).
  now apply nested_no_parenthesis.
Qed.

Lemma nested_wrap a : nested a -> nested (wrap a).
Proof.
  intros [Ha Ha']. split; [now rewrite balance_wrap|].
  intros [|j]; [cbn [firstn]; rewrite balance_nil; lia|].
  unfold wrap. rewrite balance_open by reflexivity.
  rewrite firstn_app, balance_app. specialize (Ha' j).
  destruct (j - length a) as [|k] eqn:E.
  - cbn [firstn]. rewrite balance_nil. lia.
  - rewrite firstn_all2 by lia. rewrite Ha. cbn [firstn].
    destruct k; cbn [firstn]; vm_compute; discriminate.
Qed.

Lemma nested_joinTexts op texts :
  In op listLogicalOperators -> Forall nested texts ->
  nested (joinTexts op texts).
Proof.
  intros Hop. induction 1 as [|x tl Hx Htl IH]; [now apply nested_no_parenthesis|].
  cbn [joinTexts]. destruct tl as [|y tl]; [exact Hx|].
  apply nested_app; [exact Hx|]. apply nested_app; [|exact IH].
  destruct Hop as [<-|[<-|[]]]; now apply nested_no_parenthesis.
Qed.

Lemma comparisonOperator_quiet op :
  In op listComparisonOperator -> quiet op = true.
Proof. intros [<-|[<-|[<-|[]]]]; reflexivity. Qed.

(** The text of a comparison is quiet. *)
Lemma comparison_quiet pad0 L pad1 op pad2 R pad3 :
  wellSpaced (Comparison pad0 L pad1 op pad2 R pad3) = true ->
  quiet (phraseText (Comparison pad0 L pad1 op pad2 R pad3)) = true.
Proof.
  cbn [wellSpaced phraseText]; intros H.
  apply andb_prop in H as [H Hbang]. apply andb_prop in H as [H HR].
  apply andb_prop in H as [H HLne]. apply andb_prop in H as [H HL].
  apply andb_prop in H as [H Hop]. apply andb_prop in H as [H H3].
  apply andb_prop in H as [H H2]. apply andb_prop in H as [H0 H1].
  apply existsb_streq_true in Hop.
  apply word_parts in HL as (HL & _). apply word_parts in HR as (HR & _).
  repeat (apply quiet_app; split); try assumption;
    try now apply blank_quiet.
  now apply comparisonOperator_quiet.
Qed.

Lemma wellSpaced_Words pad0 text pad1 :
  wellSpaced (Words pad0 text pad1) = true ->
  blank pad0 = true /\ blank pad1 = true /\ bare text = true.
Proof.
  cbn [wellSpaced]. intros H.
  apply andb_prop in H as [H Hx]. apply andb_prop in H as [H0 H1].
  now repeat split.
Qed.

Lemma blank_bare p : blank p = true -> bare p = true.
Proof. intros H. now apply quiet_bare, blank_quiet. Qed.

Lemma blank_written p : blank p = true -> encodeRunes (map byteval p) = p.
Proof.
  intros H. apply encodeRunes_ascii.
  now apply blank_quiet, quiet_parts in H as (H & _).
Qed.

(** The text of a comparison, and of a bare text with white space
    around it, is bare. *)
Lemma leaf_bare t :
  wellSpaced t = true ->
  match t with
  | Parens _ _ _ _ => True
  | _ => bare (phraseText t) = true
  end.
Proof.
  destruct t as [p0 x p1|p0 L p1 op p2 R p3|p0 op items p1]; [| |trivial];
    intros H.
  - apply wellSpaced_Words in H as (H0 & H1 & Hx). cbn [phraseText].
    now rewrite !bare_app, (blank_bare _ H0), (blank_bare _ H1), Hx.
  - now apply quiet_bare, comparison_quiet.
Qed.

Lemma wellSpaced_Parens pad0 op items pad1 :
  wellSpaced (Parens pad0 op items pad1) = true ->
  blank pad0 = true /\ blank pad1 = true /\ In op listLogicalOperators /\
  forallb wellSpaced items = true.
Proof.
  cbn [wellSpaced]. intros H.
  apply andb_prop in H as [H Hit]. apply andb_prop in H as [H Hop].
  apply andb_prop in H as [H0 H1]. apply existsb_streq_true in Hop.
  now repeat split.
Qed.

Lemma phrase_nested t : wellSpaced t = true -> nested (phraseText t).
Proof.
  induction t as [p0 x p1|p0 L p1 op p2 R p3|p0 op items p1 IH]
    using phrase_induction; intros H.
  - pose proof (leaf_bare _ H) as Hb. apply bare_parts in Hb as (Ho & Hc & _).
    now apply nested_no_parenthesis.
  - apply nested_quiet. now apply comparison_quiet.
  - apply wellSpaced_Parens in H as (H0 & H1 & Hop & Hit).
    cbn [phraseText].
    apply nested_app; [apply nested_quiet; now apply blank_quiet|].
    apply nested_app; [|apply nested_quiet; now apply blank_quiet].
    apply nested_wrap. apply nested_joinTexts; [exact Hop|].
    rewrite forallb_forall in Hit. rewrite Forall_forall in IH.
    apply Forall_forall. intros x Hx. apply in_map_iff in Hx as (t & <- & Ht).
    apply IH; [exact Ht|now apply Hit].
Qed.

Lemma items_nested op items :
  In op listLogicalOperators -> forallb wellSpaced items = true ->
  nested (joinTexts op (map phraseText items)).
Proof.
  intros Hop H. apply nested_joinTexts; [exact Hop|].
  rewrite forallb_forall in H. apply Forall_forall.
  intros x Hx. apply in_map_iff in Hx as (t & <- & Ht).
  apply phrase_nested. now apply H.
Qed.

Lemma wellSpaced_tight t : wellSpaced t = true -> wellSpaced (tight t) = true.
Proof.
  induction t as [p0 x p1|p0 L p1 op p2 R p3|p0 op items p1 IH]
    using phrase_induction; intros H.
  - cbn [wellSpaced tight] in *. apply andb_prop in H as [_ Hx]. exact Hx.
  - cbn [wellSpaced tight] in *.
    apply andb_prop in H as [H Hbang]. apply andb_prop in H as [H HR].
    apply andb_prop in H as [H HLne]. apply andb_prop in H as [H HL].
    apply andb_prop in H as [H Hop].
    now rewrite Hop, HL, HLne, HR, Hbang.
  - apply wellSpaced_Parens in H as (H0 & H1 & Hop & Hit).
    cbn [wellSpaced tight]. rewrite (existsb_streq_In _ _ Hop). cbn [blank forallb andb].
    rewrite forallb_forall in Hit. rewrite Forall_forall in IH.
    apply forallb_forall. intros x Hx. apply in_map_iff in Hx as (t & <- & Ht).
    apply IH; [exact Ht|now apply Hit].
Qed.

Lemma items_tight items :
  forallb wellSpaced items = true -> forallb wellSpaced (map tight items) = true.
Proof.
  intros H. rewrite forallb_forall in H. apply forallb_forall.
  intros x Hx. apply in_map_iff in Hx as (t & <- & Ht).
  apply wellSpaced_tight. now apply H.
Qed.

(** What is done with the buffer depends on its trimmed text only. *)
Lemma closeOperand_same op x y st st' :
  logicalOp st = logicalOp st' -> expressions st = expressions st' ->
  (0 <? length (trimSpace x)) = (0 <? length (trimSpace y)) ->
  parseSimpleStatement (trimSpace x) = parseSimpleStatement (trimSpace y) ->
  closeOperand op x st = closeOperand op y st'.
Proof. intros H1 H2 H3 H4. unfold closeOperand. now rewrite H1, H2, H3, H4. Qed.

Lemma closeOperand_buf op x st st' :
  closeOperand op x st = Ok st' -> buf st' = [].
Proof.
  unfold closeOperand. destruct (negb _); [discriminate|].
  destruct (0 <? _).
  - destruct (parseSimpleStatement _); [|discriminate]. now intros [= <-].
  - now intros [= <-].
Qed.

Lemma finish_same st st' :
  logicalOp st = logicalOp st' -> expressions st = expressions st' ->
  (0 <? length (trimSpace (buf st))) = (0 <? length (trimSpace (buf st'))) ->
  parseSimpleStatement (trimSpace (buf st))
  = parseSimpleStatement (trimSpace (buf st')) ->
  finish st = finish st'.
Proof. intros H1 H2 H3 H4. unfold finish. now rewrite H1, H2, H3, H4. Qed.

(** What the loop writes for a comparison or a bare text is parsed the
    same with and without the white space around its parts. *)
Lemma leaf_tight t :
  wellSpaced t = true ->
  match t with
  | Parens _ _ _ _ => True
  | _ =>
      (0 <? length (trimSpace (encodeRunes (map byteval (phraseText t)))))
      = (0 <? length (trimSpace (encodeRunes (map byteval (phraseText (tight t)))))) /\
      parseSimpleStatement (trimSpace (encodeRunes (map byteval (phraseText t))))
      = parseSimpleStatement
          (trimSpace (encodeRunes (map byteval (phraseText (tight t)))))
  end.
Proof.
  destruct t as [p0 x p1|p0 L p1 op p2 R p3|p0 op items p1]; [| |trivial];
    intros H.
  - apply wellSpaced_Words in H as (H0 & H1 & Hx).
    cbn [phraseText tight]. cbn [app]. rewrite app_nil_r.
    rewrite !map_app, !encodeRunes_app, (blank_written _ H0), (blank_written _ H1).
    rewrite (trimSpace_blank_around p0 _ p1 H0 H1). now split.
  - pose proof (comparison_quiet _ _ _ _ _ _ _ H) as Hq.
    pose proof (comparison_quiet _ _ _ _ _ _ _ (wellSpaced_tight _ H)) as Hq'.
    apply quiet_parts in Hq as (Ha & _). apply quiet_parts in Hq' as (Ha' & _).
    destruct (comparison_padded _ _ _ _ _ _ _ H) as [Hne Hp].
    destruct (comparison_padded _ _ _ _ _ _ _ (wellSpaced_tight _ H)) as [Hne' Hp'].
    cbn [tight] in *. rewrite (encodeRunes_ascii _ Ha), (encodeRunes_ascii _ Ha').
    rewrite Hp, Hp'. split; [|reflexivity].
    now rewrite !trimSpace_length_pos.
Qed.

(** ** The parser on expressions written with white space *)

Section Respaced.

Variable sub : gostring -> result expression.

(** The recursive call does not see the white space. *)
Hypothesis sub_tight : forall op items,
  In op listLogicalOperators -> forallb wellSpaced items = true ->
  sub (joinTexts op (map phraseText items))
  = sub (joinTexts op (map phraseText (map tight items))).

(** An expression and the operator behind it. *)
Lemma item_operator op t st :
  In op listLogicalOperators -> wellSpaced t = true -> buf st = [] ->
  exists r,
    runs sub (phraseText t ++ op) st r /\
    runs sub (phraseText (tight t) ++ op) st r /\
    forall st', r = Ok st' -> buf st' = [].
Proof.
  intros Hop Ht Hb.
  pose proof (leaf_bare t Ht) as Hq.
  pose proof (leaf_bare _ (wellSpaced_tight t Ht)) as Hq'.
  pose proof (leaf_tight t Ht) as Hsame.
  assert (Hleaf : bare (phraseText t) = true ->
                  bare (phraseText (tight t)) = true ->
                  (0 <? length (trimSpace (encodeRunes (map byteval (phraseText t)))))
                  = (0 <? length (trimSpace
                                    (encodeRunes (map byteval (phraseText (tight t))))))
                  /\
                  parseSimpleStatement
                    (trimSpace (encodeRunes (map byteval (phraseText t))))
                  = parseSimpleStatement
                      (trimSpace (encodeRunes (map byteval (phraseText (tight t))))) ->
                  exists r,
                    runs sub (phraseText t ++ op) st r /\
                    runs sub (phraseText (tight t) ++ op) st r /\
                    forall st', r = Ok st' -> buf st' = []).
  { intros Q Q' [E1 E2].
    exists (closeOperand op (encodeRunes (map byteval (phraseText t))) st).
    split; [|split].
    - pose proof (runs_text_operator sub op (phraseText t) st Hop Q) as Hr.
      rewrite Hb in Hr. apply Hr. apply calmEnd_nil.
    - rewrite (closeOperand_same op _
                 (encodeRunes (map byteval (phraseText (tight t)))) st st
                 eq_refl eq_refl E1 E2).
      pose proof (runs_text_operator sub op (phraseText (tight t)) st Hop Q') as Hr.
      rewrite Hb in Hr. apply Hr. apply calmEnd_nil.
    - intros st'. apply closeOperand_buf. }
  destruct t as [p0 x p1|p0 L p1 cop p2 R p3|p0 op' items p1];
    [now apply Hleaf|now apply Hleaf|clear Hleaf Hq Hq' Hsame].
  apply wellSpaced_Parens in Ht as (H0 & H1 & Hop' & Hit).
  pose proof (items_nested op' items Hop' Hit) as Hn.
  pose proof (items_nested op' _ Hop' (items_tight _ Hit)) as Hn'.
  pose proof (sub_tight op' items Hop' Hit) as Hsub.
  cbn [phraseText tight]. cbn [app]. rewrite app_nil_r.
  destruct st as [lo ex bu]. cbn [buf] in Hb. subst bu.
  destruct (sub (joinTexts op' (map phraseText items))) as [a|e] eqn:Ha.
  - exists (closeOperand op (p0 ++ p1)
              {| logicalOp := lo; expressions := ex ++ [a]; buf := p0 |}).
    split; [|split].
    + rewrite <- !app_assoc.
      eapply runs_app; [apply walks_quiet; cbn [buf app]; now apply blank_quiet|].
      eapply runs_app; [apply (walks_group sub _ a _ Hn Ha)|].
      cbn [logicalOp expressions buf app].
      apply (runs_quiet_operator sub op p1
               {| logicalOp := lo; expressions := ex ++ [a]; buf := p0 |} Hop).
      cbn [buf]. apply quiet_app. split; now apply blank_quiet.
    + eapply runs_app; [apply (walks_group sub _ a _ Hn'); now rewrite <- Hsub|].
      cbn [logicalOp expressions buf].
      rewrite (closeOperand_same op (p0 ++ p1) []
                 {| logicalOp := lo; expressions := ex ++ [a]; buf := p0 |}
                 {| logicalOp := lo; expressions := ex ++ [a]; buf := [] |}
                 eq_refl eq_refl).
      * apply (runs_operator sub op
                 {| logicalOp := lo; expressions := ex ++ [a]; buf := [] |} Hop).
        apply calmEnd_nil.
      * rewrite blank_trimSpace by (now rewrite blank_app, H0, H1). reflexivity.
      * rewrite blank_trimSpace by (now rewrite blank_app, H0, H1). reflexivity.
    + intros st'. apply closeOperand_buf.
  - exists (Err e). split; [|split].
    + rewrite <- !app_assoc.
      eapply runs_app; [apply walks_quiet; cbn [buf app]; now apply blank_quiet|].
      apply runs_Err_app.
      pose proof (runs_group sub _
                    {| logicalOp := lo; expressions := ex; buf := [] ++ p0 |} Hn)
        as Hr.
      now rewrite Ha in Hr.
    + apply runs_Err_app.
      pose proof (runs_group sub _
                    {| logicalOp := lo; expressions := ex; buf := [] |} Hn')
        as Hr.
      now rewrite <- Hsub in Hr.
    + discriminate.
Qed.

(** The last expression and the end of [safeParse]. *)
Lemma item_last t st :
  wellSpaced t = true -> buf st = [] ->
  scanAll sub (phraseText t) st = scanAll sub (phraseText (tight t)) st.
Proof.
  intros Ht Hb.
  pose proof (leaf_bare t Ht) as Hq.
  pose proof (leaf_bare _ (wellSpaced_tight t Ht)) as Hq'.
  pose proof (leaf_tight t Ht) as Hsame.
  assert (Hleaf : bare (phraseText t) = true ->
                  bare (phraseText (tight t)) = true ->
                  (0 <? length (trimSpace (encodeRunes (map byteval (phraseText t)))))
                  = (0 <? length (trimSpace
                                    (encodeRunes (map byteval (phraseText (tight t))))))
                  /\
                  parseSimpleStatement
                    (trimSpace (encodeRunes (map byteval (phraseText t))))
                  = parseSimpleStatement
                      (trimSpace (encodeRunes (map byteval (phraseText (tight t))))) ->
                  scanAll sub (phraseText t) st
                  = scanAll sub (phraseText (tight t)) st).
  { intros Q Q' [E1 E2]. unfold scanAll.
    rewrite <- (app_nil_r (phraseText t)), <- (app_nil_r (phraseText (tight t))).
    rewrite (walks_scan sub (phraseText t) _ _ _ (walks_bare sub _ st Q)).
    rewrite (walks_scan sub (phraseText (tight t)) _ _ _ (walks_bare sub _ st Q')).
    cbn [scan]. apply finish_same; cbn [logicalOp expressions buf];
      rewrite ?Hb; cbn [app]; auto. }
  destruct t as [p0 x p1|p0 L p1 cop p2 R p3|p0 op' items p1];
    [now apply Hleaf|now apply Hleaf|clear Hleaf Hq Hq' Hsame].
  apply wellSpaced_Parens in Ht as (H0 & H1 & Hop' & Hit).
  pose proof (items_nested op' items Hop' Hit) as Hn.
  pose proof (items_nested op' _ Hop' (items_tight _ Hit)) as Hn'.
  pose proof (sub_tight op' items Hop' Hit) as Hsub.
  cbn [phraseText tight]. cbn [app]. rewrite app_nil_r.
  destruct st as [lo ex bu]. cbn [buf] in Hb. subst bu.
  unfold scanAll.
  erewrite (walks_scan sub p0);
    [|apply walks_quiet; cbn [buf app]; now apply blank_quiet].
  rewrite (runs_scan sub _ _ _ p1 (runs_group sub _ _ Hn)).
  rewrite <- (app_nil_r (wrap (joinTexts op' (map phraseText (map tight items))))).
  rewrite (runs_scan sub _ _ _ [] (runs_group sub _ _ Hn')).
  rewrite <- Hsub.
  destruct (sub (joinTexts op' (map phraseText items))) as [a|e]; [|reflexivity].
  cbn [logicalOp expressions buf app scan].
  rewrite <- (app_nil_r p1) at 1.
  erewrite (walks_scan sub p1);
    [|apply walks_quiet; cbn [buf]; apply quiet_app; split; now apply blank_quiet].
  cbn [scan]. apply finish_same; cbn [logicalOp expressions buf]; try reflexivity;
    rewrite blank_trimSpace by (now rewrite blank_app, H0, H1); reflexivity.
Qed.

Lemma joinTexts_cons op x y tl :
  joinTexts op (x :: y :: tl) = x ++ op ++ joinTexts op (y :: tl).
Proof. reflexivity. Qed.

(** Expressions joined by a logical operator. *)
Lemma items_same op : In op listLogicalOperators ->
  forall items st,
    forallb wellSpaced items = true -> buf st = [] ->
    scanAll sub (joinTexts op (map phraseText items)) st
    = scanAll sub (joinTexts op (map phraseText (map tight items))) st.
Proof.
  intros Hop. induction items as [|t items IH]; intros st Hall Hb; [reflexivity|].
  cbn [forallb] in Hall. apply andb_prop in Hall as [Ht Hall].
  destruct items as [|t' items].
  - cbn [map joinTexts]. now apply item_last.
  - cbn [map]. rewrite !joinTexts_cons.
    destruct (item_operator op t st Hop Ht Hb) as (r & Hr & Hr' & Hbuf).
    unfold scanAll. rewrite !app_assoc.
    rewrite (runs_scan sub _ _ _ _ Hr), (runs_scan sub _ _ _ _ Hr').
    destruct r as [st'|e]; [|reflexivity].
    apply (IH st' Hall). now apply Hbuf.
Qed.

End Respaced.

(** At every depth, [safeParse] does not see the white space around the
    parts of the expressions it is given. *)
Lemma safeParseFrom_tight b : forall op items,
  In op listLogicalOperators -> forallb wellSpaced items = true ->
  safeParseFrom b (joinTexts op (map phraseText items))
  = safeParseFrom b (joinTexts op (map phraseText (map tight items))).
Proof.
  induction b as [|b IH]; intros op items Hop Hall; [reflexivity|].
  rewrite !safeParseFrom_unfold.
  apply (items_same (safeParseFrom b) IH op Hop items scanInit Hall eq_refl).
Qed.

Lemma parse_respaced s1 s2 op items1 items2 :
  In op listLogicalOperators ->
  forallb wellSpaced items1 = true -> forallb wellSpaced items2 = true ->
  map tight items1 = map tight items2 ->
  cleanInput s1 = joinTexts op (map phraseText items1) ->
  cleanInput s2 = joinTexts op (map phraseText items2) ->
  parse s1 = parse s2.
Proof.
  intros Hop H1 H2 Heq E1 E2.
  rewrite (parse_balanced s1), (parse_balanced s2).
  - rewrite E1, E2. unfold safeParse.
    rewrite (safeParseFrom_tight _ op items1 Hop H1).
    rewrite (safeParseFrom_tight _ op items2 Hop H2).
    now rewrite Heq.
  - rewrite E2. apply (items_nested op items2 Hop H2).
  - rewrite E1. apply (items_nested op items1 Hop H1).
Qed.

(** ** Quoted literals *)

Lemma opaque_parts x :
  opaque x = true ->
  isASCII x = true /\ count x "(" = 0 /\ count x ")" = 0 /\
  contains x loAnd = false /\ contains x loOr = false /\ noOperator x.
Proof.
  unfold opaque, noOperator. intros H.
  apply andb_prop in H as [H H7]. apply andb_prop in H as [H H6].
  apply andb_prop in H as [H H5]. apply andb_prop in H as [H H4].
  apply andb_prop in H as [H H3]. apply andb_prop in H as [H1 H2].
  repeat split; try (now apply negb_true_iff); try (now apply Nat.eqb_eq).
  exact H1.
Qed.

Lemma contains_In s c p : contains s (c :: p) = true -> In c s.
Proof.
  induction s as [|x s IH]; cbn [contains hasPrefix]; [discriminate|].
  intros H. apply orb_true_iff in H as [H|H].
  - apply andb_prop in H as [H _]. apply Ascii.eqb_eq in H. now left.
  - right. now apply IH.
Qed.

Lemma contains_absent s c p : count s c = 0 -> contains s (c :: p) = false.
Proof.
  intros H. destruct (contains s (c :: p)) eqn:E; [|reflexivity].
  apply contains_In in E. now apply count_zero_not_in in H.
Qed.

(** No doubled character where two texts without one meet, unless the
    first ends and the second starts with the character. *)
Lemma contains_doubled_app c a b :
  contains a [c; c] = false -> contains b [c; c] = false ->
  hasPrefix b [c] = false ->
  contains (a ++ b) [c; c] = false.
Proof.
  intros Ha Hb Hp. induction a as [|x a IH]; [exact Hb|].
  cbn [app contains] in *. apply orb_false_iff in Ha as [Hx Ha].
  rewrite (IH Ha), orb_false_r. cbn [hasPrefix] in *.
  destruct (Ascii.eqb c x); [|reflexivity]. cbn [andb] in *.
  destruct a as [|y a]; cbn [app]; [exact Hp|exact Hx].
Qed.

Lemma hasPrefix_absent m z c :
  m <> [] -> count m c = 0 -> hasPrefix (m ++ z) [c] = false.
Proof.
  intros Hne H. destruct m as [|x m]; [congruence|].
  cbn [app hasPrefix]. rewrite andb_true_r. apply Ascii.eqb_neq. intros <-.
  apply (count_zero_not_in _ _ H). now left.
Qed.

Lemma contains_after_absent c m b :
  count m c = 0 -> contains (m ++ b) [c; c] = contains b [c; c].
Proof.
  induction m as [|x m IH]; intros H; [reflexivity|].
  cbn [app contains hasPrefix].
  assert (Hx : Ascii.eqb c x = false).
  { apply Ascii.eqb_neq. intros <-. apply (count_zero_not_in _ _ H). now left. }
  rewrite Hx. cbn [andb orb]. apply IH.
  unfold count in *. cbn [count_occ] in H.
  destruct (ascii_dec x c); [discriminate|exact H].
Qed.

(** No logical operator where texts without one are joined by a text
    that holds none of its characters. *)
Lemma contains_doubled_between c a m b :
  contains a [c; c] = false -> contains b [c; c] = false ->
  m <> [] -> count m c = 0 ->
  contains (a ++ m ++ b) [c; c] = false.
Proof.
  intros Ha Hb Hne Hm.
  apply contains_doubled_app; [exact Ha| |now apply hasPrefix_absent].
  now rewrite contains_after_absent.
Qed.

Lemma parse_plain s :
  plain (cleanInput s) -> cleanInput s <> [] ->
  parse s = parseSimpleStatement (cleanInput s).
Proof.
  intros Hx Hne. unfold parse.
  rewrite <- (cleanInput_count s "(") by now left.
  rewrite <- (cleanInput_count s ")") by now right.
  unfold count.
  rewrite (proj1 (count_occ_not_In ascii_dec _ _) (plain_open _ Hx)).
  rewrite (proj1 (count_occ_not_In ascii_dec _ _) (plain_close _ Hx)).
  cbn [Nat.eqb negb].
  unfold safeParse. cbn [maxDepth Nat.sub safeParseFrom].
  rewrite (scan_plain _ (cleanInput s) [] scanInit Hx eq_refl).
  unfold finish. cbn [buf expressions logicalOp scanInit app].
  rewrite cleanInput_trimmed, (trimSpace_length_pos _ Hne).
  now destruct (parseSimpleStatement (cleanInput s)).
Qed.

Lemma quotedLiteral_fixed body : trimSpace (quotedLiteral body) = quotedLiteral body.
Proof.
  apply trimSpace_fixed; [reflexivity|].
  unfold quotedLiteral. cbn [rev]. rewrite rev_app_distr. reflexivity.
Qed.

(** A comparison whose operands hold no operator and no parenthesis,
    the right one a quoted literal, written with white space around its
    operator. *)
Lemma parse_quoted_literal s L pad1 op pad2 body :
  In op listComparisonOperator ->
  blank pad1 = true -> blank pad2 = true ->
  opaque L = true -> L <> [] -> trimSpace L = L ->
  (op = coEqual -> hasSuffix L (str "!") = false) ->
  opaque (quotedLiteral body) = true ->
  cleanInput s = L ++ pad1 ++ op ++ pad2 ++ quotedLiteral body ->
  parse s = Ok (se L op (quotedLiteral body)).
Proof.
  intros Hop H1 H2 HL HLne HLt Hbang HR Hs.
  apply opaque_parts in HL as (HLa & HLo & HLc & HLand & HLor & HLn).
  apply opaque_parts in HR as (HRa & HRo & HRc & HRand & HRor & HRn).
  pose proof (quiet_parts _ (blank_quiet _ H1)) as (H1a & H1o & H1c & H1and & H1or).
  pose proof (quiet_parts _ (blank_quiet _ H2)) as (H2a & H2o & H2c & H2and & H2or).
  pose proof (quiet_parts _ (comparisonOperator_quiet _ Hop))
    as (Hopa & Hopo & Hopc & Hopand & Hopor).
  destruct (comparisonOperator_trimmed _ Hop) as [Hopne _].
  assert (Hm : pad1 ++ op ++ pad2 <> []).
  { intros E. apply app_eq_nil in E as [_ E]. apply app_eq_nil in E as [E _].
    congruence. }
  assert (Hplain : plain (cleanInput s)).
  { rewrite Hs.
    replace (L ++ pad1 ++ op ++ pad2 ++ quotedLiteral body)
      with (L ++ (pad1 ++ op ++ pad2) ++ quotedLiteral body)
      by (now rewrite <- !app_assoc).
    apply plain_intro.
    - now rewrite !isASCII_app, HLa, H1a, Hopa, H2a, HRa.
    - rewrite !count_app. lia.
    - rewrite !count_app. lia.
    - apply contains_doubled_between; try assumption. rewrite !count_app. lia.
    - apply contains_doubled_between; try assumption. rewrite !count_app. lia. }
  assert (Hne : cleanInput s <> []).
  { rewrite Hs. destruct L; [congruence|discriminate]. }
  rewrite (parse_plain s Hplain Hne).
  rewrite <- cleanInput_trimmed, Hs.
  destruct (comparison_text [] L pad1 op pad2 (quotedLiteral body) [])
    as [_ Hp]; try assumption; try reflexivity.
  - apply quotedLiteral_fixed.
  - cbn [app] in Hp. rewrite app_nil_r in Hp. exact Hp.
Qed.

(** ** White space *)



